(** * Page-interaction behaviours of [js/main.js]

    A shallow embedding of the FAQ accordion, the form validation and the
    phone formatter of [src/js/main.js], and the properties of the
    specification that concern them.

    JavaScript strings are sequences of UTF-16 code units; the DOM is a
    store of elements addressed by node identity; event handlers are
    functions from store to store. *)

From Stdlib Require Import ZArith Lia Ascii String QArith.
From stdpp Require Import gmap strings list.

(** * JavaScript strings *)

Module JsString.

(** A string value is the list of its UTF-16 code units. *)
Abbreviation jsstring := (list Z).

Definition ch (a : ascii) : Z := Z.of_N (N_of_ascii a).

(** A string literal of the source. *)
Fixpoint lit (s : string) : jsstring :=
  match s with
  | EmptyString => []
  | String a s' => ch a :: lit s'
  end.

(** [\d]: the ten ASCII digits. *)
Definition is_digit (c : Z) : bool := (48 <=? c)%Z && (c <=? 57)%Z.

(** [\s], and what [trim] strips: ECMAScript WhiteSpace and LineTerminator
    (TAB, LF, VT, FF, CR, SP, NBSP, U+1680, U+2000..U+200A, LS, PS,
    U+202F, U+205F, U+3000, U+FEFF). *)
Definition is_space (c : Z) : bool :=
  ((9 <=? c)%Z && (c <=? 13)%Z) || (c =? 32)%Z || (c =? 160)%Z
  || (c =? 5760)%Z || ((8192 <=? c)%Z && (c <=? 8202)%Z)
  || (c =? 8232)%Z || (c =? 8233)%Z || (c =? 8239)%Z || (c =? 8287)%Z
  || (c =? 12288)%Z || (c =? 65279)%Z.

Fixpoint trimStart (s : jsstring) : jsstring :=
  match s with
  | c :: s' => if is_space c then trimStart s' else s
  | [] => []
  end.

Definition trimEnd (s : jsstring) : jsstring := reverse (trimStart (reverse s)).

(** [s.trim()] *)
Definition trim (s : jsstring) : jsstring := trimEnd (trimStart s).

(** [s.replace(/\D/g, '')]: every non-digit is deleted. *)
Definition digits_only (s : jsstring) : jsstring := filter (λ c, is_digit c = true) s.

(** [s.slice(a, b)] and [s.slice(a)] for [0 <= a <= b]. *)
Definition slice (a b : nat) (s : jsstring) : jsstring := take (b - a) (drop a s).
Definition slice_from (a : nat) (s : jsstring) : jsstring := drop a s.

(** Truthiness of a string: it is not empty. *)
Definition truthy (s : jsstring) : bool :=
  match s with [] => false | _ => true end.

End JsString.

Export JsString.

(** * Regular expressions *)

Module Regex.

(** Members of a bracket expression. *)
Inductive atom : Type :=
| ADigit               (* \d *)
| ASpace               (* \s *)
| AChar (c : Z).       (* a literal or escaped character *)

Definition atom_mem (a : atom) (c : Z) : bool :=
  match a with
  | ADigit => is_digit c
  | ASpace => is_space c
  | AChar x => (c =? x)%Z
  end.

Definition set_mem (l : list atom) (c : Z) : bool := existsb (λ a, atom_mem a c) l.

Inductive regex : Type :=
| Void
| Eps
| Chr (c : Z)
| CharSet (l : list atom)      (* [...]  *)
| NegSet (l : list atom)       (* [^...] *)
| Seq (r1 r2 : regex)
| Alt (r1 r2 : regex)
| Star (r : regex).

(** [r+] *)
Definition Plus (r : regex) : regex := Seq r (Star r).

(** The language of a pattern. *)
Inductive Matches : regex → jsstring → Prop :=
| MEps : Matches Eps []
| MChr c : Matches (Chr c) [c]
| MCharSet l c : set_mem l c = true → Matches (CharSet l) [c]
| MNegSet l c : set_mem l c = false → Matches (NegSet l) [c]
| MSeq r1 r2 s1 s2 :
    Matches r1 s1 → Matches r2 s2 → Matches (Seq r1 r2) (s1 ++ s2)
| MAltL r1 r2 s : Matches r1 s → Matches (Alt r1 r2) s
| MAltR r1 r2 s : Matches r2 s → Matches (Alt r1 r2) s
| MStarNil r : Matches (Star r) []
| MStarApp r s1 s2 :
    Matches r s1 → Matches (Star r) s2 → Matches (Star r) (s1 ++ s2).

Fixpoint nullable (r : regex) : bool :=
  match r with
  | Void | Chr _ | CharSet _ | NegSet _ => false
  | Eps | Star _ => true
  | Seq r1 r2 => nullable r1 && nullable r2
  | Alt r1 r2 => nullable r1 || nullable r2
  end.

(** What remains to be matched once [c] has been read. *)
Fixpoint deriv (c : Z) (r : regex) : regex :=
  match r with
  | Void | Eps => Void
  | Chr x => if (c =? x)%Z then Eps else Void
  | CharSet l => if set_mem l c then Eps else Void
  | NegSet l => if set_mem l c then Void else Eps
  | Seq r1 r2 =>
      if nullable r1 then Alt (Seq (deriv c r1) r2) (deriv c r2)
      else Seq (deriv c r1) r2
  | Alt r1 r2 => Alt (deriv c r1) (deriv c r2)
  | Star r1 => Seq (deriv c r1) (Star r1)
  end.

(** [/^r$/.test(s)]: the whole of [s] is in the language of [r]. *)
Fixpoint test (r : regex) (s : jsstring) : bool :=
  match s with
  | [] => nullable r
  | c :: s' => test (deriv c r) s'
  end.

(** [/^[^\s@]+@[^\s@]+\.[^\s@]+$/] *)
Definition emailRegex : regex :=
  Seq (Plus (NegSet [ASpace; AChar (ch "@")]))
    (Seq (Chr (ch "@"))
       (Seq (Plus (NegSet [ASpace; AChar (ch "@")]))
          (Seq (Chr (ch "."))
             (Plus (NegSet [ASpace; AChar (ch "@")]))))).

(** A character that [[^\s@]] accepts. *)
Definition email_plain (c : Z) : Prop := is_space c = false ∧ c ≠ ch "@".

(** [/^[\d\s\-\(\)\+]+$/] *)
Definition phoneRegex : regex :=
  Plus (CharSet [ADigit; ASpace; AChar (ch "-"); AChar (ch "("); AChar (ch ")");
                 AChar (ch "+")]).

End Regex.

Export Regex.

(** * The document *)

Module Dom.

(** An element node, with the properties and attributes the scripts read
    or write.  [parentNode] is the identity of the parent element. *)
Record Element : Type := mkElement {
  tagName : string;
  parentNode : option nat;
  elemId : jsstring;                    (* el.id *)
  classList : gset string;
  attributes : gmap string jsstring;
  value : jsstring;                     (* input.value *)
  inputType : jsstring;                 (* input.type *)
  textContent : jsstring;               (* the text the element itself holds *)
  styleDisplay : jsstring               (* el.style.display *)
}.

(** The document: its elements in document order.  A node is referred to
    by its position, and a reference stays valid: the scripts never insert
    or move a node, and a node they remove from the tree ([Html.set_innerHTML])
    stays in the list without a parent.  (An assignment to [textContent]
    would also remove the children of its target: the error-display elements
    it is made to are taken to hold text only, see [Views.childless].) *)
Abbreviation Document := (list Element).

Definition with_id (v : jsstring) (e : Element) : Element :=
  mkElement (tagName e) (parentNode e) v (classList e) (attributes e)
    (value e) (inputType e) (textContent e) (styleDisplay e).

Definition with_classList (f : gset string → gset string) (e : Element) : Element :=
  mkElement (tagName e) (parentNode e) (elemId e) (f (classList e)) (attributes e)
    (value e) (inputType e) (textContent e) (styleDisplay e).

Definition with_attributes (f : gmap string jsstring → gmap string jsstring)
    (e : Element) : Element :=
  mkElement (tagName e) (parentNode e) (elemId e) (classList e) (f (attributes e))
    (value e) (inputType e) (textContent e) (styleDisplay e).

Definition with_value (v : jsstring) (e : Element) : Element :=
  mkElement (tagName e) (parentNode e) (elemId e) (classList e) (attributes e)
    v (inputType e) (textContent e) (styleDisplay e).

Definition with_textContent (v : jsstring) (e : Element) : Element :=
  mkElement (tagName e) (parentNode e) (elemId e) (classList e) (attributes e)
    (value e) (inputType e) v (styleDisplay e).

Definition with_styleDisplay (v : jsstring) (e : Element) : Element :=
  mkElement (tagName e) (parentNode e) (elemId e) (classList e) (attributes e)
    (value e) (inputType e) (textContent e) v.

(** ** Reading and writing through a reference *)

Definition get_id (d : Document) (n : nat) : jsstring :=
  from_option elemId [] (d !! n).
Definition get_value (d : Document) (n : nat) : jsstring :=
  from_option value [] (d !! n).
Definition get_type (d : Document) (n : nat) : jsstring :=
  from_option inputType [] (d !! n).

Definition get_textContent (d : Document) (n : nat) : jsstring :=
  from_option textContent [] (d !! n).
Definition get_styleDisplay (d : Document) (n : nat) : jsstring :=
  from_option styleDisplay [] (d !! n).

Definition set_id (n : nat) (v : jsstring) (d : Document) : Document :=
  alter (with_id v) n d.
Definition set_value (n : nat) (v : jsstring) (d : Document) : Document :=
  alter (with_value v) n d.
Definition set_textContent (n : nat) (v : jsstring) (d : Document) : Document :=
  alter (with_textContent v) n d.
Definition set_styleDisplay (n : nat) (v : jsstring) (d : Document) : Document :=
  alter (with_styleDisplay v) n d.

Definition classList_contains (d : Document) (n : nat) (c : string) : bool :=
  from_option (λ e, bool_decide (c ∈ classList e)) false (d !! n).
Definition classList_add (n : nat) (c : string) (d : Document) : Document :=
  alter (with_classList (λ s, s ∪ {[c]})) n d.
Definition classList_remove (n : nat) (c : string) (d : Document) : Document :=
  alter (with_classList (λ s, s ∖ {[c]})) n d.
Definition classList_toggle (n : nat) (c : string) (d : Document) : Document :=
  if classList_contains d n c then classList_remove n c d else classList_add n c d.

(** [null] is [None]. *)
Definition getAttribute (d : Document) (n : nat) (a : string) : option jsstring :=
  d !! n ≫= λ e, attributes e !! a.
Definition hasAttribute (d : Document) (n : nat) (a : string) : bool :=
  bool_decide (is_Some (getAttribute d n a)).
Definition setAttribute (n : nat) (a : string) (v : jsstring) (d : Document) : Document :=
  alter (with_attributes (<[a:=v]>)) n d.

(** ** Tree navigation *)

(** The chain of ancestors of [n], nearest first. *)
Fixpoint ancestors_upto (fuel : nat) (d : Document) (n : nat) : list nat :=
  match fuel with
  | O => []
  | S k =>
      match d !! n ≫= parentNode with
      | Some p => p :: ancestors_upto k d p
      | None => []
      end
  end.

Definition ancestors (d : Document) (n : nat) : list nat :=
  ancestors_upto (length d) d n.

(** [n] is a descendant of [root]; [None] stands for [document]. *)
Definition inside (d : Document) (root : option nat) (n : nat) : bool :=
  match root with
  | None => true
  | Some r => bool_decide (r ∈ ancestors d n)
  end.

(** The selectors of the scripts. *)
Inductive selector : Type :=
| ByClass (c : string)                  (* .c *)
| ByTags (ts : list string)             (* t1, t2, ... *)
| ByTagAttr (t a : string).             (* t[a] *)

Definition sel_matches (sel : selector) (e : Element) : bool :=
  match sel with
  | ByClass c => bool_decide (c ∈ classList e)
  | ByTags ts => bool_decide (tagName e ∈ ts)
  | ByTagAttr t a => bool_decide (tagName e = t) && bool_decide (is_Some (attributes e !! a))
  end.

Definition selected (d : Document) (root : option nat) (sel : selector) (n : nat) : bool :=
  from_option (sel_matches sel) false (d !! n) && inside d root n.

(** [root.querySelectorAll(sel)]: a static list, in document order. *)
Definition querySelectorAll (d : Document) (root : option nat) (sel : selector) : list nat :=
  filter (λ n, selected d root sel n = true) (seq 0 (length d)).

(** [root.querySelector(sel)] *)
Definition querySelector (d : Document) (root : option nat) (sel : selector) : option nat :=
  head (querySelectorAll d root sel).

(** [el.closest(sel)]: the element itself or its nearest matching ancestor. *)
Definition closest (d : Document) (n : nat) (sel : selector) : option nat :=
  head (filter (λ k, from_option (sel_matches sel) false (d !! k) = true)
          (n :: ancestors d n)).

(** [document.getElementById(s)] *)
Definition getElementById (d : Document) (s : jsstring) : option nat :=
  fst <$> list_find (λ e, elemId e = s) d.

(** ** Views of an element

    What a handler leaves alone is said through a view: a projection of
    the element that its writes do not change. *)

(** The classes other than [c]. *)
Definition classes_but (c : string) (e : Element) : gset string := classList e ∖ {[c]}.

(** All that [validateField] reads. *)
Definition field_view (e : Element)
    : string * option nat * jsstring * gmap string jsstring * jsstring * jsstring :=
  (tagName e, parentNode e, elemId e, attributes e, value e, inputType e).

End Dom.

Export Dom.

(** * FAQ accordions *)

Module Faq.

(** The body of [faqItems.forEach(otherItem => ...)] in the [click]
    listener of [item]. *)
Definition close_other (item : nat) (d : Document) (otherItem : nat) : Document :=
  if negb (otherItem =? item) && classList_contains d otherItem "open" then
    let d := classList_remove otherItem "open" d in
    match querySelector d (Some otherItem) (ByClass "faq-question") with
    | Some q => setAttribute q "aria-expanded" (lit "false") d
    | None => d
    end
  else d.

(** The [click] listener that [initFaqAccordions] attaches to [question];
    [faqItems], [item] and [question] are the values it closes over. *)
Definition onClick (faqItems : list nat) (item question : nat) (d : Document) : Document :=
  let isOpen := classList_contains d item "open" in
  (* Close all other items *)
  let d := foldl (close_other item) d faqItems in
  (* Toggle current item *)
  let d := classList_toggle item "open" d in
  setAttribute question "aria-expanded" (lit (if isOpen then "false" else "true")) d.

(** A registered listener: the trigger it is attached to and the item it
    closes over. *)
Record Listener : Type := mkListener { l_question : nat; l_item : nat }.

(** One iteration of the [forEach] of [initFaqAccordions].  [random_id n]
    is the string [Math.random().toString(36).substr(2, 9)] drawn while
    item [n] is set up. *)
Definition initItem (random_id : nat → jsstring)
    (st : Document * list Listener) (item : nat) : Document * list Listener :=
  let '(d, ls) := st in
  match querySelector d (Some item) (ByClass "faq-question"),
        querySelector d (Some item) (ByClass "faq-answer") with
  | Some question, Some answer =>
      let id := if truthy (get_id d question) then get_id d question
                else lit "faq-" ++ random_id item in
      let answerId := id ++ lit "-answer" in
      let d := set_id question id d in
      let d := setAttribute question "aria-expanded" (lit "false") d in
      let d := setAttribute question "aria-controls" answerId d in
      let d := set_id answer answerId d in
      let d := setAttribute answer "role" (lit "region") d in
      let d := setAttribute answer "aria-labelledby" id d in
      (d, ls ++ [mkListener question item])
  | _, _ => st
  end.

(** The page once [initFaqAccordions] has run: the captured node list and
    the listeners, in registration order. *)
Record Accordion : Type := mkAccordion {
  faqItems : list nat;
  listeners : list Listener
}.

Definition initFaqAccordions (random_id : nat → jsstring) (d : Document)
    : Document * Accordion :=
  let items := querySelectorAll d None (ByClass "faq-item") in
  let '(d', ls) := foldl (initItem random_id) (d, []) items in
  (d', mkAccordion items ls).

(** A click on [target], at the target: every listener registered on
    [target] itself runs, in registration order.  ([FaqEvents.clickOn]
    takes the event on through the ancestors of the target.) *)
Definition click (acc : Accordion) (target : nat) (d : Document) : Document :=
  foldl (λ d l, if l_question l =? target
                then onClick (faqItems acc) (l_item l) (l_question l) d
                else d)
    d (listeners acc).

(** [toggleFaq(button)] *)
Definition toggleFaq (button : nat) (d : Document) : Document :=
  match closest d button (ByClass "faq-item") with
  | Some item =>
      let d := classList_toggle item "open" d in
      let isOpen := classList_contains d item "open" in
      setAttribute button "aria-expanded" (lit (if isOpen then "true" else "false")) d
  | None => d
  end.

(** A key press on [target], at the target: [initFaqAccordions] registers
    a [keydown] listener next to every [click] listener; on Enter or Space
    it calls [question.click()].  ([FaqEvents.keydownOn] takes the event,
    and the click, on through the ancestors.) *)
Definition keydown (acc : Accordion) (target : nat) (key : jsstring) (d : Document)
    : Document :=
  foldl (λ d l, if l_question l =? target
                then if bool_decide (key = lit "Enter") || bool_decide (key = lit " ")
                     then click acc (l_question l) d
                     else d
                else d)
    d (listeners acc).

(** What a visitor or the page markup can do to an accordion. *)
Inductive activation : Type :=
| Click (question : nat)                    (* pointer click on a trigger *)
| KeyDown (question : nat) (key : jsstring) (* key press on a trigger *)
| CallToggleFaq (button : nat).             (* toggleFaq(button) from an inline handler *)

Definition activate (acc : Accordion) (d : Document) (a : activation) : Document :=
  match a with
  | Click q => click acc q d
  | KeyDown q key => keydown acc q key d
  | CallToggleFaq b => toggleFaq b d
  end.

Definition run (acc : Accordion) (d : Document) (l : list activation) : Document :=
  foldl (activate acc) d l.

(** The tree and the classes other than "open" are the same in both
    documents: what the handlers of this module never write. *)
Definition same_accordion (d d' : Document) : Prop :=
  parentNode <$> d = parentNode <$> d'
  ∧ classes_but "open" <$> d = classes_but "open" <$> d'.

(** The trigger of [item], as the handlers find it. *)
Definition trigger_of (d : Document) (item : nat) : option nat :=
  querySelector d (Some item) (ByClass "faq-question").

(** [item] bears the class "open". *)
Definition is_open (d : Document) (item : nat) : bool :=
  classList_contains d item "open".

(** At most one panel of the page is open. *)
Definition exclusive (acc : Accordion) (d : Document) : Prop :=
  ∀ i j, i ∈ faqItems acc → j ∈ faqItems acc → i ≠ j →
         is_open d i = true → is_open d j = false.

(** The activations that go through the listeners. *)
Definition by_listener (a : activation) : Prop :=
  match a with
  | Click _ | KeyDown _ _ => True
  | CallToggleFaq _ => False
  end.

(** The panels of [items] that are open. *)
Definition open_items (d : Document) (items : list nat) : list nat :=
  filter (λ n, is_open d n = true) items.

End Faq.

(** * Form validation *)

Module Form.

(** The error-display target of [input], as both [showError] and
    [clearError] look it up:
    [errorId = input.getAttribute('aria-describedby')],
    [errorEl = errorId ? document.getElementById(errorId) : null]. *)
Definition errorEl_of (d : Document) (input : nat) : option nat :=
  match getAttribute d input "aria-describedby" with
  | Some errorId => if truthy errorId then getElementById d errorId else None
  | None => None
  end.

(** [clearError(input)] *)
Definition clearError (input : nat) (d : Document) : Document :=
  let d := classList_remove input "error" d in
  match errorEl_of d input with
  | Some errorEl =>
      set_styleDisplay errorEl (lit "none") (set_textContent errorEl (lit "") d)
  | None => d
  end.

(** [showError(input, message)] *)
Definition showError (input : nat) (message : jsstring) (d : Document) : Document :=
  let d := classList_add input "error" d in
  match errorEl_of d input with
  | Some errorEl =>
      set_styleDisplay errorEl (lit "block") (set_textContent errorEl message d)
  | None => d
  end.

Section WithRegexEngine.

(** [RegExp.prototype.test], for the patterns of this file. *)
Variable regex_test : regex → jsstring → bool.

(** [validateField(input)]: the returned boolean and the document it
    leaves. *)
Definition validateField_with (input : nat) (d : Document) : bool * Document :=
  let value := trim (get_value d input) in
  let type := get_type d input in
  let required := hasAttribute d input "required" in
  (* Clear previous error *)
  let d := clearError input d in
  (* Required validation *)
  if required && negb (truthy value) then
    (false, showError input (lit "This field is required") d)
  else
  (* Email validation *)
  if bool_decide (type = lit "email") && truthy value
     && negb (regex_test emailRegex value) then
    (false, showError input (lit "Please enter a valid email address") d)
  else
  (* Phone validation *)
  if bool_decide (type = lit "tel") && truthy value
     && (negb (regex_test phoneRegex value)
         || (length (digits_only value) <? 10)) then
    (false, showError input (lit "Please enter a valid phone number") d)
  else (true, d).

End WithRegexEngine.

Definition validateField : nat → Document → bool * Document :=
  validateField_with test.

(** What the [submit] listener leaves behind: the document, whether
    [e.preventDefault()] was called, and the element [focus()] was called
    on, if any. *)
Record SubmitOutcome : Type := mkOutcome {
  doc : Document;
  defaultPrevented : bool;
  focusTarget : option nat
}.

(** The body of [inputs.forEach(...)] in the [submit] listener. *)
Definition validate_step (st : bool * Document) (input : nat) : bool * Document :=
  let '(isValid, d) := st in
  let '(ok, d) := validateField input d in
  (if negb ok then false else isValid, d).

(** The [submit] listener of [form]; [inputs] is the node list captured
    by [initFormValidation]. *)
Definition onSubmit (form : nat) (inputs : list nat) (d : Document) : SubmitOutcome :=
  let '(isValid, d) := foldl validate_step (true, d) inputs in
  if negb isValid then
    (* Focus first invalid field *)
    let firstInvalid := querySelector d (Some form) (ByClass "error") in
    mkOutcome d true firstInvalid
  else mkOutcome d false None.

(** The forms [initFormValidation] wires up, each with its fields. *)
Definition initFormValidation (d : Document) : list (nat * list nat) :=
  (λ form, (form, querySelectorAll d (Some form) (ByTags ["input"; "textarea"; "select"])))
    <$> querySelectorAll d None (ByTagAttr "form" "data-validate").

End Form.

(** * Phone formatting *)

Module Phone.

(** The string [formatPhone] computes from [input.value]. *)
Definition formatted (v : jsstring) : jsstring :=
  let value := digits_only v in
  if 0 <? length value then
    if length value <=? 3 then
      lit "(" ++ value
    else if length value <=? 6 then
      lit "(" ++ slice 0 3 value ++ lit ") " ++ slice_from 3 value
    else
      lit "(" ++ slice 0 3 value ++ lit ") " ++ slice 3 6 value ++ lit "-"
        ++ slice 6 10 value
  else value.

(** [formatPhone(input)] *)
Definition formatPhone (input : nat) (d : Document) : Document :=
  set_value input (formatted (get_value d input)) d.

End Phone.

(** * The specification's words *)

Module Spec.

(** "no whitespace" *)
Definition no_whitespace (v : jsstring) : Prop := Forall (λ c, is_space c = false) v.

(** "the pattern local@domain.tld (no whitespace, exactly one "@", at least
    one "." in the domain part)": the value splits at its only "@" into a
    local part and a domain part, and the domain part splits at a "." into
    a domain and a tld; none of the three is empty. *)
Definition email_pattern (v : jsstring) : Prop :=
  no_whitespace v ∧
  ∃ local rest,
    v = local ++ [ch "@"] ++ rest ∧ (ch "@" ∉ local) ∧ (ch "@" ∉ rest) ∧ local ≠ [] ∧
    ∃ domain tld, rest = domain ++ [ch "."] ++ tld ∧ domain ≠ [] ∧ tld ≠ [].

(** "digits/space/hyphen/parentheses/plus", the space being U+0020. *)
Definition tel_char (c : Z) : bool :=
  is_digit c || (c =? ch " ")%Z || (c =? ch "-")%Z || (c =? ch "(")%Z
  || (c =? ch ")")%Z || (c =? ch "+")%Z.

(** "contains characters outside digits/space/hyphen/parentheses/plus, OR
    the digit-only count is fewer than 10" *)
Definition tel_invalid (v : jsstring) : Prop :=
  (∃ c, c ∈ v ∧ tel_char c = false) ∨ length (digits_only v) < 10.

(** The same with any white space character in the place of the space. *)
Definition tel_char_ws (c : Z) : bool :=
  is_digit c || is_space c || (c =? ch "-")%Z || (c =? ch "(")%Z
  || (c =? ch ")")%Z || (c =? ch "+")%Z.

Definition tel_invalid_ws (v : jsstring) : Prop :=
  (∃ c, c ∈ v ∧ tel_char_ws c = false) ∨ length (digits_only v) < 10.

(** "the shape (NNN) NNN-NNNN" *)
Inductive slot : Type :=
| N                    (* a digit *)
| P (c : Z).           (* punctuation *)

Definition phone_shape : list slot :=
  [P (ch "("); N; N; N; P (ch ")"); P (ch " "); N; N; N; P (ch "-"); N; N; N; N].

(** "progressively": the digits fill the shape from the left; punctuation
    is written when a digit follows it; the output stops with the digits
    or with the shape. *)
Fixpoint fill (shape : list slot) (ds : jsstring) : jsstring :=
  match shape with
  | [] => []
  | P c :: shape' =>
      match ds with
      | [] => []
      | _ => c :: fill shape' ds
      end
  | N :: shape' =>
      match ds with
      | [] => []
      | x :: ds' => x :: fill shape' ds'
      end
  end.

End Spec.

(** * Sample pages *)

Module Pages.

Definition node (tag : string) (parent : option nat) (classes : list string) : Element :=
  mkElement tag parent [] (list_to_set classes) ∅ [] [] [] [].

(** One container with two panels, A (nodes 1 to 3) and B (nodes 4 to 6):
<<
    <div>
      <div class="faq-item"><button class="faq-question"/><div class="faq-answer"/></div>
      <div class="faq-item"><button class="faq-question"/><div class="faq-answer"/></div>
    </div>
>> *)
Definition one_group : Document :=
  [ node "div" None [];
    node "div" (Some 0) ["faq-item"];
    node "button" (Some 1) ["faq-question"];
    node "div" (Some 1) ["faq-answer"];
    node "div" (Some 0) ["faq-item"];
    node "button" (Some 4) ["faq-question"];
    node "div" (Some 4) ["faq-answer"] ].

(** Two containers (nodes 0 and 4) with one panel each, A (nodes 1 to 3)
    and B (nodes 5 to 7). *)
Definition two_groups : Document :=
  [ node "section" None [];
    node "div" (Some 0) ["faq-item"];
    node "button" (Some 1) ["faq-question"];
    node "div" (Some 1) ["faq-answer"];
    node "section" None [];
    node "div" (Some 4) ["faq-item"];
    node "button" (Some 5) ["faq-question"];
    node "div" (Some 5) ["faq-answer"] ].

Definition input (parent : nat) (type : string) (attrs : list (string * jsstring))
    (val : jsstring) : Element :=
  mkElement "input" (Some parent) [] ∅ (list_to_map attrs) val (lit type) [] [].

Definition message (parent : nat) (id : string) : Element :=
  mkElement "span" (Some parent) (lit id) ∅ ∅ [] [] [] [].

(** A contact form.  The name and email fields have an error-display
    element; the phone field names one that does not exist:
<<
    <form data-validate>
      <input type="text" required aria-describedby="name-error">
      <span id="name-error"></span>
      <input type="email" aria-describedby="email-error">
      <span id="email-error"></span>
      <input type="tel" aria-describedby="phone-error">
    </form>
>> *)
Definition contact_form (name email phone : jsstring) : Document :=
  [ mkElement "form" None [] ∅ {["data-validate" := []]} [] [] [] [];
    input 0 "text" [("required", []); ("aria-describedby", lit "name-error")] name;
    message 0 "name-error";
    input 0 "email" [("aria-describedby", lit "email-error")] email;
    message 0 "email-error";
    input 0 "tel" [("aria-describedby", lit "phone-error")] phone ].

(** A form whose first element bearing the class "error" is not a field:
<<
    <form data-validate>
      <div class="error"></div>
      <input type="text" required>
    </form>
>> *)
Definition form_with_banner : Document :=
  [ mkElement "form" None [] ∅ {["data-validate" := []]} [] [] [] [];
    node "div" (Some 0) ["error"];
    input 0 "text" [("required", [])] [] ].

(** A panel inside a panel, with one question and one answer between
    them: both items find the same trigger.
<<
    <div class="faq-item">
      <div class="faq-item"><button class="faq-question"/><div class="faq-answer"/></div>
    </div>
>> *)
Definition nested_panels : Document :=
  [ node "div" None ["faq-item"; "open"];
    node "div" (Some 0) ["faq-item"];
    node "button" (Some 1) ["faq-question"];
    node "div" (Some 1) ["faq-answer"] ].

(** A panel whose trigger holds an element, the label (node 2):
<<
    <div class="faq-item">
      <button class="faq-question"><span/></button>
      <div class="faq-answer"/>
    </div>
>> *)
Definition labelled_panel : Document :=
  [ node "div" None ["faq-item"];
    node "button" (Some 0) ["faq-question"];
    node "span" (Some 1) [];
    node "div" (Some 0) ["faq-answer"] ].

(** A draw of [Math.random().toString(36).substr(2, 9)]. *)
Definition some_random_id (n : nat) : jsstring := lit "k3j9x1q0z".

End Pages.

(** * What the accordion set-up works on *)

Module FaqInit.

Import Faq.

(** [answer = item.querySelector('.faq-answer')] *)
Definition answer_of (d : Document) (item : nat) : option nat :=
  querySelector d (Some item) (ByClass "faq-answer").

(** An item that has both a question and an answer, with them: the items
    that [initFaqAccordions] does not skip. *)
Definition wired (d : Document) (item : nat) : option (nat * nat * nat) :=
  match trigger_of d item, answer_of d item with
  | Some question, Some answer => Some (item, question, answer)
  | _, _ => None
  end.

Definition wired_items (d : Document) : list (nat * nat * nat) :=
  omap (wired d) (querySelectorAll d None (ByClass "faq-item")).

(** The questions and answers of the wired items. *)
Definition wired_nodes (ws : list (nat * nat * nat)) : list nat :=
  ws ≫= λ w, [w.1.2; w.2].

(** The id an item's question ends with: its own, or a generated one. *)
Definition question_id (random_id : nat → jsstring) (d : Document) (item question : nat)
    : jsstring :=
  if truthy (get_id d question) then get_id d question
  else lit "faq-" ++ random_id item.

(** The writes of one iteration of [initFaqAccordions] on an item it does
    not skip. *)
Definition wire (random_id : nat → jsstring) (item question answer : nat) (d : Document)
    : Document :=
  let id := question_id random_id d item question in
  setAttribute answer "aria-labelledby" id
    (setAttribute answer "role" (lit "region")
       (set_id answer (id ++ lit "-answer")
          (setAttribute question "aria-controls" (id ++ lit "-answer")
             (setAttribute question "aria-expanded" (lit "false")
                (set_id question id d))))).

(** The expanded flag of every trigger says what its panel is. *)
Definition mirrored (acc : Accordion) (d : Document) : Prop :=
  ∀ l, l ∈ listeners acc →
       getAttribute d (l_question l) "aria-expanded"
       = Some (lit (if is_open d (l_item l) then "true" else "false")).

(** The listeners are on different triggers, each the trigger of its item,
    and their items are on the captured list. *)
Definition tidy (acc : Accordion) (d : Document) : Prop :=
  NoDup (l_question <$> listeners acc)
  ∧ ∀ l, l ∈ listeners acc →
         l_item l ∈ faqItems acc ∧ l_item l < length d ∧ l_question l < length d
         ∧ trigger_of d (l_item l) = Some (l_question l).

End FaqInit.

(** * Events on the accordion *)

Module FaqEvents.

Import Faq.

(** The path of an event dispatched on [target]: the target, then its
    ancestors, nearest first.  It is fixed when the event is dispatched, and
    the listeners of the scripts are all registered for the bubbling
    phase. *)
Definition path (d : Document) (target : nat) : list nat := target :: ancestors d target.

(** A [click] event on [target]: at each node of its path the [click]
    listeners registered on that node run. *)
Definition clickOn (acc : Accordion) (target : nat) (d : Document) : Document :=
  foldl (λ d node, click acc node d) d (path d target).

(** The [keydown] listeners registered on [node]: on Enter or Space each
    calls [question.click()], which dispatches a [click] event on its
    trigger. *)
Definition keydownAt (acc : Accordion) (node : nat) (key : jsstring) (d : Document)
    : Document :=
  foldl (λ d l, if l_question l =? node
                then if bool_decide (key = lit "Enter") || bool_decide (key = lit " ")
                     then clickOn acc (l_question l) d
                     else d
                else d)
    d (listeners acc).

(** A [keydown] event on [target]. *)
Definition keydownOn (acc : Accordion) (target : nat) (key : jsstring) (d : Document)
    : Document :=
  foldl (λ d node, keydownAt acc node key d) d (path d target).

(** An event on a node of the page, any node. *)
Inductive event : Type :=
| ClickOn (target : nat)
| KeyDownOn (target : nat) (key : jsstring).

Definition fire (acc : Accordion) (d : Document) (ev : event) : Document :=
  match ev with
  | ClickOn target => clickOn acc target d
  | KeyDownOn target key => keydownOn acc target key d
  end.

Definition fire_all (acc : Accordion) (d : Document) (evs : list event) : Document :=
  foldl (fire acc) d evs.

End FaqEvents.

(** * More views of an element *)

Module Views.

(** All of an element but its value. *)
Definition but_value (e : Element)
    : string * option nat * jsstring * gset string * gmap string jsstring
      * jsstring * jsstring * jsstring :=
  (tagName e, parentNode e, elemId e, classList e, attributes e,
   inputType e, textContent e, styleDisplay e).

(** All of an element but its classes. *)
Definition but_classes (e : Element)
    : string * option nat * jsstring * gmap string jsstring
      * jsstring * jsstring * jsstring * jsstring :=
  (tagName e, parentNode e, elemId e, attributes e,
   value e, inputType e, textContent e, styleDisplay e).

(** What an element is, apart from its place in the tree, its text and
    its display. *)
Definition own (e : Element)
    : string * jsstring * gset string * gmap string jsstring * jsstring * jsstring :=
  (tagName e, elemId e, classList e, attributes e, value e, inputType e).

(** No element of the document is a child of [n]: what [n] holds, if
    anything, is text. *)
Definition childless (d : Document) (n : nat) : Prop :=
  Forall (λ e, parentNode e ≠ Some n) d.

End Views.

(** * Field events *)

Module FieldEvents.

Import Form.

(** The [blur] listener of a field: [validateField(input)], its result
    dropped. *)
Definition onBlur (input : nat) (d : Document) : Document := (validateField input d).2.

(** The [input] listener of a field: [clearError(input)]. *)
Definition onInput (input : nat) (d : Document) : Document := clearError input d.

End FieldEvents.

(** * Header scroll *)

Module Header.

(** [header = document.querySelector('.header')]; without one, no listener
    is registered. *)
Definition initHeaderScroll (d : Document) : option nat :=
  querySelector d None (ByClass "header").

(** The [scroll] listener.  [currentScroll] is [window.pageYOffset], a
    finite double, taken as the rational it is; the state carries the
    variable [lastScroll] next to the document. *)
Definition onScroll (header : nat) (currentScroll : Q) (st : Document * Q) : Document * Q :=
  let '(d, lastScroll) := st in
  let d := if negb (Qle_bool currentScroll 20)
           then classList_add header "scrolled" d
           else classList_remove header "scrolled" d in
  (d, currentScroll).

(** A [scroll] event on the window. *)
Definition scroll (listener : option nat) (currentScroll : Q) (st : Document * Q)
    : Document * Q :=
  match listener with
  | Some header => onScroll header currentScroll st
  | None => st
  end.

End Header.

(** * Markup written by the scripts *)

Module Html.

(** The page: the document, and for each node the string a script last
    assigned to its [innerHTML].  The nodes the parser makes of such a
    string are not nodes of [dom]. *)
Record Page : Type := mkPage {
  dom : Document;
  html : gmap nat jsstring
}.

(** A node taken out of the tree. *)
Definition without_parent (e : Element) : Element :=
  mkElement (tagName e) None (elemId e) (classList e) (attributes e)
    (value e) (inputType e) (textContent e) (styleDisplay e).

(** The children of [n] are removed from it: they stay what they are, and
    keep their own descendants, but have no parent any more. *)
Definition remove_children (n : nat) (d : Document) : Document :=
  (λ e, if bool_decide (parentNode e = Some n) then without_parent e else e) <$> d.

(** [node.innerHTML = v]: the former children of the node are removed and
    [v] is its markup from then on. *)
Definition set_innerHTML (n : nat) (v : jsstring) (p : Page) : Page :=
  if bool_decide (n < length (dom p))
  then mkPage (remove_children n (dom p)) (<[n:=v]> (html p))
  else p.

(** [d'] is [d] with some nodes removed from their parents. *)
Definition pruned (d d' : Document) : Prop :=
  Forall2 (λ e e', parentNode e' = parentNode e ∨ parentNode e' = None) d d'.

Definition on_dom (f : Document → Document) (p : Page) : Page :=
  mkPage (f (dom p)) (html p).

(** The double quote and the line feed of the template literals. *)
Definition dq : jsstring := [34%Z].
Definition nl : jsstring := [10%Z].

(** [node.contains(n)]: the node itself or a descendant of it. *)
Definition contains (d : Document) (node n : nat) : bool :=
  bool_decide (node = n) || bool_decide (node ∈ ancestors d n).

End Html.

Export Html.

(** * Mobile menu *)

Module Menu.

(** What [initMobileMenu] closes over. *)
Record Menu : Type := mkMenu {
  menuBtn : nat;
  mobileNav : nat;
  menuIcon : option nat;
  mobileLinks : list nat
}.

(** [initMobileMenu]: without the button or the drawer nothing is
    registered. *)
Definition initMobileMenu (d : Document) : option Menu :=
  match querySelector d None (ByClass "mobile-menu-btn"),
        querySelector d None (ByClass "mobile-nav") with
  | Some btn, Some nav =>
      Some (mkMenu btn nav (querySelector d (Some btn) (ByClass "icon"))
              (querySelectorAll d (Some nav) (ByClass "mobile-nav-link")))
  | _, _ => None
  end.

(** ['<use href="#icon-close"/>'] and ['<use href="#icon-menu"/>'] *)
Definition icon_close : jsstring := lit "<use href=" ++ dq ++ lit "#icon-close" ++ dq ++ lit "/>".
Definition icon_menu : jsstring := lit "<use href=" ++ dq ++ lit "#icon-menu" ++ dq ++ lit "/>".

(** [if (menuIcon) menuIcon.innerHTML = ...] *)
Definition set_icon (m : Menu) (v : jsstring) (p : Page) : Page :=
  match menuIcon m with
  | Some icon => set_innerHTML icon v p
  | None => p
  end.

(** The [click] listener of the button. *)
Definition onButtonClick (m : Menu) (p : Page) : Page :=
  let d := classList_toggle (mobileNav m) "active" (dom p) in
  let isOpen := classList_contains d (mobileNav m) "active" in
  let d := setAttribute (menuBtn m) "aria-expanded"
             (lit (if isOpen then "true" else "false")) d in
  (* Change icon *)
  set_icon m (if isOpen then icon_close else icon_menu) (mkPage d (html p)).

(** What the listener of a link, and the listener of the document for a
    click outside, both do. *)
Definition close (m : Menu) (p : Page) : Page :=
  let d := classList_remove (mobileNav m) "active" (dom p) in
  let d := setAttribute (menuBtn m) "aria-expanded" (lit "false") d in
  set_icon m icon_menu (mkPage d (html p)).

(** The [click] listener of a link of the drawer. *)
Definition onLinkClick (m : Menu) (p : Page) : Page := close m p.

(** The [click] listener of the document. *)
Definition onDocumentClick (m : Menu) (target : nat) (p : Page) : Page :=
  if negb (contains (dom p) (mobileNav m) target)
     && negb (contains (dom p) (menuBtn m) target)
  then close m p
  else p.

(** The listeners of this controller on [node], in registration order. *)
Definition at_node (m : Menu) (node : nat) (p : Page) : Page :=
  let p := if node =? menuBtn m then onButtonClick m p else p in
  if bool_decide (node ∈ mobileLinks m) then onLinkClick m p else p.

(** A click on [target]: the event goes from the target up through its
    ancestors to the document. *)
Definition click (m : Menu) (target : nat) (p : Page) : Page :=
  let path := target :: ancestors (dom p) target in
  onDocumentClick m target (foldl (λ p node, at_node m node p) p path).

(** The drawer is open. *)
Definition is_active (m : Menu) (p : Page) : bool :=
  classList_contains (dom p) (mobileNav m) "active".

(** The flag of the button and the icon say what the drawer is. *)
Definition in_sync (m : Menu) (p : Page) : Prop :=
  getAttribute (dom p) (menuBtn m) "aria-expanded"
  = Some (lit (if is_active m p then "true" else "false"))
  ∧ ∀ icon, menuIcon m = Some icon →
            html p !! icon = Some (if is_active m p then icon_close else icon_menu).

(** The nodes of the menu are nodes of the document. *)
Definition in_document (m : Menu) (d : Document) : Prop :=
  menuBtn m < length d ∧ mobileNav m < length d
  ∧ ∀ icon, menuIcon m = Some icon → icon < length d.

(** The drawer is closed, and the flag and the icon say so. *)
Definition shut (m : Menu) (p : Page) : Prop :=
  is_active m p = false ∧ in_sync m p.

End Menu.

(** * Form status messages *)

Module Status.

(** [document.getElementById(id)]: the empty string names no element. *)
Definition elementById (d : Document) (id : jsstring) : option nat :=
  if truthy id then getElementById d id else None.

(** [root.querySelector('[role="alert"]')] *)
Definition role_alert (d : Document) (root : nat) (n : nat) : bool :=
  from_option (λ e, bool_decide (attributes e !! "role" = Some (lit "alert"))) false (d !! n)
  && inside d (Some root) n.

(** [form = document.getElementById(formId)],
    [statusEl = form?.querySelector('[role="alert"]')]. *)
Definition statusEl_of (d : Document) (formId : jsstring) : option nat :=
  match elementById d formId with
  | Some form => head (filter (λ n, role_alert d form n = true) (seq 0 (length d)))
  | None => None
  end.

(** The template literals, line feeds and indentation included. *)
Definition success_html (message : jsstring) : jsstring :=
  nl ++ lit "      <div class=" ++ dq ++ lit "alert alert-success" ++ dq ++ lit ">"
  ++ nl ++ lit "        <svg class=" ++ dq ++ lit "icon" ++ dq ++ lit " style=" ++ dq
  ++ lit "width:20px;height:20px" ++ dq ++ lit "><use href=" ++ dq ++ lit "#icon-check"
  ++ dq ++ lit "/></svg>"
  ++ nl ++ lit "        " ++ message
  ++ nl ++ lit "      </div>"
  ++ nl ++ lit "    ".

Definition error_html (message : jsstring) : jsstring :=
  nl ++ lit "      <div class=" ++ dq ++ lit "alert alert-error" ++ dq ++ lit ">"
  ++ nl ++ lit "        " ++ message
  ++ nl ++ lit "      </div>"
  ++ nl ++ lit "    ".

(** [showFormSuccess(formId, message)] *)
Definition showFormSuccess (formId message : jsstring) (p : Page) : Page :=
  match statusEl_of (dom p) formId with
  | Some statusEl =>
      on_dom (set_styleDisplay statusEl (lit "block"))
        (set_innerHTML statusEl (success_html message) p)
  | None => p
  end.

(** [showFormError(formId, message)] *)
Definition showFormError (formId message : jsstring) (p : Page) : Page :=
  match statusEl_of (dom p) formId with
  | Some statusEl =>
      on_dom (set_styleDisplay statusEl (lit "block"))
        (set_innerHTML statusEl (error_html message) p)
  | None => p
  end.

End Status.

(** * Scroll reveal *)

Module Reveal.

(** [document.querySelectorAll('.reveal, .reveal-stagger')] *)
Definition revealElements (d : Document) : list nat :=
  filter (λ n, classList_contains d n "reveal" || classList_contains d n "reveal-stagger"
               = true)
    (seq 0 (length d)).

(** The document and the targets the observer watches. *)
Record State : Type := mkState {
  page : Document;
  observed : gset nat
}.

(** [initScrollReveal]; [prefersReducedMotion] is what
    [window.matchMedia('(prefers-reduced-motion: reduce)').matches] gives.
    Before it runs there is no observer. *)
Definition initScrollReveal (prefersReducedMotion : bool) (d : Document) : State :=
  let els := revealElements d in
  if prefersReducedMotion then
    (* If reduced motion, show everything immediately *)
    mkState (foldl (λ d el, classList_add el "revealed" d) d els) ∅
  else
    mkState d (list_to_set els).

(** An entry the browser hands to the callback. *)
Record Entry : Type := mkEntry { target : nat; isIntersecting : bool }.

(** The callback of the observer. *)
Definition onIntersection (entries : list Entry) (st : State) : State :=
  foldl (λ st entry,
           if isIntersecting entry then
             (* Once revealed, stop observing *)
             mkState (classList_add (target entry) "revealed" (page st))
               (observed st ∖ {[target entry]})
           else st)
    st entries.

(** The targets of the entries that intersect, in the order of the
    entries. *)
Definition intersecting (entries : list Entry) : list nat :=
  target <$> filter (λ entry, isIntersecting entry = true) entries.

End Reveal.

(** * A sample site page *)

Module Site.

Definition el (tag : string) (parent : option nat) (id : string) (classes : list string)
    (attrs : list (string * jsstring)) : Element :=
  mkElement tag parent (lit id) (list_to_set classes) (list_to_map attrs) [] [] [] [].

(** A page with a header and its menu, two elements to reveal and a form
    with a status element:
<<
    0  <header class="header">
    1    <button class="mobile-menu-btn">
    2      <svg class="icon"/>
    3    <nav class="mobile-nav">
    4      <a class="mobile-nav-link"/>
    5      <span/>
    6  <main>
    7    <section class="reveal"/>
    8    <div class="reveal-stagger"/>
    9    <form id="contact" data-validate>
    10     <div role="alert"/>
    11   <p/>
>> *)
Definition page : Document :=
  [ el "header" None "" ["header"] [];
    el "button" (Some 0) "" ["mobile-menu-btn"] [];
    el "svg" (Some 1) "" ["icon"] [];
    el "nav" (Some 0) "" ["mobile-nav"] [];
    el "a" (Some 3) "" ["mobile-nav-link"] [];
    el "span" (Some 3) "" [] [];
    el "main" None "" [] [];
    el "section" (Some 6) "" ["reveal"] [];
    el "div" (Some 6) "" ["reveal-stagger"] [];
    el "form" (Some 6) "contact" [] [("data-validate", [])];
    el "div" (Some 9) "" [] [("role", lit "alert")];
    el "p" (Some 6) "" [] [] ].

(** Its menu, as [initMobileMenu] finds it. *)
Definition menu : Menu.Menu := Menu.mkMenu 1 3 (Some 2) [4].

(** A header whose menu icon holds its glyph:
<<
    0  <header class="header">
    1    <button class="mobile-menu-btn">
    2      <svg class="icon">
    3        <use href="#icon-menu"/>
    4    <nav class="mobile-nav">
    5      <a class="mobile-nav-link"/>
>> *)
Definition bar : Document :=
  [ el "header" None "" ["header"] [];
    el "button" (Some 0) "" ["mobile-menu-btn"] [];
    el "svg" (Some 1) "" ["icon"] [];
    el "use" (Some 2) "" [] [("href", lit "#icon-menu")];
    el "nav" (Some 0) "" ["mobile-nav"] [];
    el "a" (Some 4) "" ["mobile-nav-link"] [] ].

Definition bar_menu : Menu.Menu := Menu.mkMenu 1 4 (Some 2) [5].

(** A form whose status element still holds an earlier message:
<<
    0  <form id="contact">
    1    <div role="alert">
    2      <div class="alert alert-error"/>
>> *)
Definition answered_form : Document :=
  [ el "form" None "contact" [] [];
    el "div" (Some 0) "" [] [("role", lit "alert")];
    el "div" (Some 1) "" ["alert"; "alert-error"] [] ].

End Site.

Import Faq Form Phone.

(** * The matcher decides the language *)

Section RegexFacts.

Lemma nullable_Matches r : nullable r = true ↔ Matches r [].
Proof.
  split.
  - induction r; simpl; intros Hn; try discriminate.
    + constructor.
    + apply andb_true_iff in Hn as [H1 H2].
      change (@nil Z) with (@nil Z ++ []). constructor; auto.
    + apply orb_true_iff in Hn as [H|H]; [apply MAltL | apply MAltR]; auto.
    + constructor.
  - intros H. remember [] as w eqn:Hw. induction H; simpl; try discriminate; auto.
    + apply app_eq_nil in Hw as [-> ->]. rewrite IHMatches1, IHMatches2; auto.
    + rewrite IHMatches; auto.
    + rewrite IHMatches, orb_true_r; auto.
Qed.

Lemma Matches_Star_cons r c s :
  Matches (Star r) (c :: s) →
  ∃ s1 s2, s = s1 ++ s2 ∧ Matches r (c :: s1) ∧ Matches (Star r) s2.
Proof.
  intros H. remember (Star r) as r' eqn:Hr. remember (c :: s) as w eqn:Hw.
  revert Hr Hw. induction H; intros Hr Hw; try discriminate.
  injection Hr as ->. destruct s1 as [|x s1]; simpl in Hw.
  - apply IHMatches2; auto.
  - injection Hw as -> <-. eauto.
Qed.

Lemma Matches_Void s : ¬ Matches Void s.
Proof. intros H. inversion H. Qed.

Lemma Matches_Eps s : Matches Eps s ↔ s = [].
Proof. split; [intros H; inversion H; auto | intros ->; constructor]. Qed.

Lemma Matches_Seq r1 r2 s :
  Matches (Seq r1 r2) s ↔ ∃ s1 s2, s = s1 ++ s2 ∧ Matches r1 s1 ∧ Matches r2 s2.
Proof.
  split.
  - intros H. inversion H; subst. eauto.
  - intros (s1 & s2 & -> & H1 & H2). constructor; auto.
Qed.

Lemma Matches_Alt r1 r2 s : Matches (Alt r1 r2) s ↔ Matches r1 s ∨ Matches r2 s.
Proof.
  split.
  - intros H. inversion H; subst; auto.
  - intros [H|H]; [apply MAltL | apply MAltR]; auto.
Qed.

Lemma Matches_Chr x s : Matches (Chr x) s ↔ s = [x].
Proof. split; [intros H; inversion H; auto | intros ->; constructor]. Qed.

Lemma Matches_CharSet l s : Matches (CharSet l) s ↔ ∃ c, s = [c] ∧ set_mem l c = true.
Proof.
  split; [intros H; inversion H; eauto | intros (c & -> & H); constructor; auto].
Qed.

Lemma Matches_NegSet l s : Matches (NegSet l) s ↔ ∃ c, s = [c] ∧ set_mem l c = false.
Proof.
  split; [intros H; inversion H; eauto | intros (c & -> & H); constructor; auto].
Qed.

Lemma deriv_Matches c r s : Matches (deriv c r) s ↔ Matches r (c :: s).
Proof.
  revert s. induction r; intros s; simpl.
  - split; intros H; inversion H.
  - split; intros H; inversion H.
  - rewrite Matches_Chr. destruct (Z.eqb_spec c c0) as [->|Hne].
    + rewrite Matches_Eps. split; [intros ->; auto | intros [= ->]; auto].
    + split; [intros H; inversion H | intros [= ? ?]; congruence].
  - rewrite Matches_CharSet. destruct (set_mem l c) eqn:E.
    + rewrite Matches_Eps. split; [intros ->; eauto | intros (x & [= -> ->] & _); auto].
    + split; [intros H; inversion H | intros (x & [= -> ->] & ?); congruence].
  - rewrite Matches_NegSet. destruct (set_mem l c) eqn:E.
    + split; [intros H; inversion H | intros (x & [= -> ->] & ?); congruence].
    + rewrite Matches_Eps. split; [intros ->; eauto | intros (x & [= -> ->] & _); auto].
  - assert (Hseq : Matches (Seq (deriv c r1) r2) s ∨ (Matches r1 [] ∧ Matches r2 (c :: s))
                   ↔ Matches (Seq r1 r2) (c :: s)).
    { rewrite !Matches_Seq. split.
      - intros [(s1 & s2 & -> & H1 & H2) | [H1 H2]].
        + exists (c :: s1), s2. rewrite <- IHr1. auto.
        + exists [], (c :: s). auto.
      - intros (s1 & s2 & E & H1 & H2). destruct s1 as [|x s1]; simpl in E.
        + subst s2. auto.
        + injection E as <- ->. left. exists s1, s2. rewrite IHr1. auto. }
    destruct (nullable r1) eqn:En.
    + rewrite Matches_Alt, IHr2, <- Hseq.
      apply nullable_Matches in En. tauto.
    + rewrite <- Hseq. split; [auto | intros [H | [H _]]; auto].
      apply nullable_Matches in H. congruence.
  - rewrite !Matches_Alt, IHr1, IHr2. tauto.
  - rewrite Matches_Seq. split.
    + intros (s1 & s2 & -> & H1 & H2). apply IHr in H1.
      change (c :: s1 ++ s2) with ((c :: s1) ++ s2). constructor; auto.
    + intros H. apply Matches_Star_cons in H as (s1 & s2 & -> & H1 & H2).
      exists s1, s2. rewrite IHr. auto.
Qed.

(** [test] computes membership in the language of the pattern. *)
Lemma test_Matches r s : test r s = true ↔ Matches r s.
Proof.
  revert r. induction s as [|c s IH]; intros r; simpl.
  - apply nullable_Matches.
  - rewrite IH. apply deriv_Matches.
Qed.

(** A starred or plussed single-character pattern. *)
Lemma Matches_Star_chars (P : Z → Prop) r s :
  (∀ w, Matches r w ↔ ∃ c, w = [c] ∧ P c) →
  Matches (Star r) s ↔ Forall P s.
Proof.
  intros Hr. split.
  - intros H. remember (Star r) as r' eqn:E. induction H; try discriminate; auto.
    injection E as ->. apply Hr in H as (c & -> & Hc). simpl. constructor; auto.
  - induction 1 as [|c s Hc _ IH]; [constructor|].
    change (c :: s) with ([c] ++ s). constructor; auto. apply Hr. eauto.
Qed.

Lemma Matches_Plus_chars (P : Z → Prop) r s :
  (∀ w, Matches r w ↔ ∃ c, w = [c] ∧ P c) →
  Matches (Plus r) s ↔ s ≠ [] ∧ Forall P s.
Proof.
  intros Hr. unfold Plus. rewrite Matches_Seq. split.
  - intros (s1 & s2 & -> & H1 & H2). apply Hr in H1 as (c & -> & Hc).
    apply (Matches_Star_chars P) in H2; [|done].
    split; [done | constructor; auto].
  - intros [Hne H]. destruct H as [|c s Hc H]; [done|].
    exists [c], s. split; [done|]. split; [apply Hr; eauto|].
    apply (Matches_Star_chars P); auto.
Qed.

End RegexFacts.

Section EmailPattern.

Lemma email_set_mem c : set_mem [ASpace; AChar (ch "@")] c = false ↔ email_plain c.
Proof.
  unfold set_mem, email_plain. simpl. rewrite orb_false_r, orb_false_iff, Z.eqb_neq. tauto.
Qed.

Lemma Matches_email_part s :
  Matches (Plus (NegSet [ASpace; AChar (ch "@")])) s ↔ s ≠ [] ∧ Forall email_plain s.
Proof.
  apply Matches_Plus_chars. intros w. rewrite Matches_NegSet.
  split; intros (c & -> & H); exists c; (split; [done|]); by apply email_set_mem.
Qed.

Lemma Forall_plain s :
  Forall email_plain s ↔ Spec.no_whitespace s ∧ (ch "@" ∉ s).
Proof.
  unfold Spec.no_whitespace, email_plain. rewrite !Forall_forall. split.
  - intros H. split; [intros c Hc; by apply H|]. intros Hin. by apply H in Hin as [_ ?].
  - intros [H1 H2] c Hc. split; [by apply H1|]. intros ->. done.
Qed.

(** The pattern of the source and the pattern of the specification accept
    the same values. *)
Lemma emailRegex_pattern v : test emailRegex v = true ↔ Spec.email_pattern v.
Proof.
  rewrite test_Matches. unfold emailRegex, Spec.email_pattern. split.
  - intros H.
    apply Matches_Seq in H as (l & r1 & -> & Hl & H).
    apply Matches_Seq in H as (a & r2 & -> & Ha & H).
    apply Matches_Seq in H as (dm & r3 & -> & Hd & H).
    apply Matches_Seq in H as (dot & t & -> & Hdot & Ht).
    apply Matches_Chr in Ha as ->. apply Matches_Chr in Hdot as ->.
    apply Matches_email_part in Hl as [Hl0 Hl], Hd as [Hd0 Hd], Ht as [Ht0 Ht].
    apply Forall_plain in Hl as [Hl1 Hl2], Hd as [Hd1 Hd2], Ht as [Ht1 Ht2].
    split.
    + unfold Spec.no_whitespace in *. rewrite !Forall_app. repeat split; auto.
      all: by repeat constructor.
    + exists l, (dm ++ [ch "."] ++ t). repeat split; auto.
      * rewrite !elem_of_app, list_elem_of_singleton. intros [?|[?|?]]; done.
      * exists dm, t. auto.
  - intros (Hws & l & rest & -> & Hl & Hrest & Hl0 & dm & t & -> & Hd0 & Ht0).
    unfold Spec.no_whitespace in Hws. rewrite !Forall_app in Hws.
    destruct Hws as (Hwl & _ & Hwd & _ & Hwt).
    rewrite !elem_of_app in Hrest.
    repeat (apply MSeq); try apply MChr; apply Matches_email_part; (split; [done|]);
      apply Forall_plain; split; auto.
Qed.

End EmailPattern.

(** * Reading after writing *)

Section DomFacts.

Implicit Types (d : Document) (n k : nat) (e : Element).

(** An update of one element leaves a view [g] of the document alone when
    it leaves the view of every element alone. *)
Lemma fmap_alter_preserved {X} (g : Element → X) (f : Element → Element) n d :
  (∀ e, g (f e) = g e) → g <$> alter f n d = g <$> d.
Proof.
  intros H. apply list_eq. intros k. rewrite !list_lookup_fmap, list_lookup_alter.
  case_decide; [subst|done]. destruct (d !! k); simpl; [by rewrite H | done].
Qed.

Lemma fmap_eq_lookup {X} (g : Element → X) d d' k :
  g <$> d = g <$> d' → g <$> d !! k = g <$> d' !! k.
Proof. intros H. by rewrite <- !list_lookup_fmap, H. Qed.

Lemma fmap_eq_length {X} (g : Element → X) d d' :
  g <$> d = g <$> d' → length d = length d'.
Proof. intros H. by rewrite <- (length_fmap g d), H, length_fmap. Qed.

(** ** What each lookup depends on *)

Lemma ancestors_upto_ext fuel d d' n :
  parentNode <$> d = parentNode <$> d' → ancestors_upto fuel d n = ancestors_upto fuel d' n.
Proof.
  intros H. revert n. induction fuel as [|fuel IH]; intros n; simpl; [done|].
  assert (d !! n ≫= parentNode = d' !! n ≫= parentNode) as ->.
  { pose proof (fmap_eq_lookup parentNode d d' n H) as E.
    destruct (d !! n), (d' !! n); simpl in *; congruence. }
  destruct (d' !! n ≫= parentNode); [by rewrite IH | done].
Qed.

Lemma inside_ext d d' root n :
  parentNode <$> d = parentNode <$> d' → inside d root n = inside d' root n.
Proof.
  intros H. destruct root as [r|]; simpl; [|done]. unfold ancestors.
  by rewrite (fmap_eq_length _ _ _ H), (ancestors_upto_ext _ d d' n H).
Qed.

Lemma closest_ext d d' n c :
  parentNode <$> d = parentNode <$> d' →
  (λ e, bool_decide (c ∈ classList e)) <$> d = (λ e, bool_decide (c ∈ classList e)) <$> d' →
  closest d n (ByClass c) = closest d' n (ByClass c).
Proof.
  intros Hp Hc. unfold closest, ancestors.
  rewrite (fmap_eq_length _ _ _ Hp), (ancestors_upto_ext _ d d' n Hp).
  f_equal. apply list_filter_iff. intros k.
  pose proof (fmap_eq_lookup _ d d' k Hc) as E.
  destruct (d !! k), (d' !! k); simpl in *; try congruence; [|done].
  by injection E as ->.
Qed.

Lemma getElementById_ext d d' s :
  elemId <$> d = elemId <$> d' → getElementById d s = getElementById d' s.
Proof.
  intros H. unfold getElementById.
  assert (fst <$> list_find (λ x, x = s) (elemId <$> d)
          = fst <$> list_find (λ x, x = s) (elemId <$> d')) as E by (by rewrite H).
  rewrite !list_find_fmap in E. rewrite <- !option_fmap_compose in E.
  exact E.
Qed.

Lemma getAttribute_ext d d' n a :
  attributes <$> d = attributes <$> d' → getAttribute d n a = getAttribute d' n a.
Proof.
  intros H. unfold getAttribute. pose proof (fmap_eq_lookup _ d d' n H) as E.
  destruct (d !! n), (d' !! n); simpl in *; congruence.
Qed.

Lemma getElementById_Some d s k :
  getElementById d s = Some k → ∃ e, d !! k = Some e ∧ elemId e = s.
Proof.
  unfold getElementById. intros H. apply fmap_Some in H as ([i x] & H & ->).
  apply list_find_Some in H as (? & ? & _). eauto.
Qed.

(** ** Reading through a write *)

Lemma classList_contains_alter f n d k c :
  classList_contains (alter f n d) k c
  = if decide (n = k)
    then from_option (λ e, bool_decide (c ∈ classList (f e))) false (d !! k)
    else classList_contains d k c.
Proof.
  unfold classList_contains. rewrite list_lookup_alter.
  case_decide; [subst|done]. by destruct (d !! k).
Qed.

Lemma classList_contains_remove n c d k c' :
  classList_contains (classList_remove n c d) k c'
  = classList_contains d k c' && negb (bool_decide (n = k ∧ c = c')).
Proof.
  unfold classList_remove. rewrite classList_contains_alter. unfold classList_contains.
  case_decide as Hn.
  - subst k. destruct (d !! n) as [e|]; simpl; [|done].
    destruct (decide (c = c')) as [->|Hc].
    + rewrite (bool_decide_eq_true_2 (n = n ∧ _)) by done.
      rewrite andb_false_r. apply bool_decide_eq_false_2.
      rewrite elem_of_difference, elem_of_singleton. tauto.
    + rewrite (bool_decide_eq_false_2 (n = n ∧ _)) by tauto.
      rewrite andb_true_r. apply bool_decide_ext.
      rewrite elem_of_difference, elem_of_singleton. split; [tauto|].
      intros H. split; [done|]. congruence.
  - rewrite (bool_decide_eq_false_2 (n = k ∧ _)) by tauto. by rewrite andb_true_r.
Qed.

Lemma classList_contains_add n c d k c' :
  classList_contains (classList_add n c d) k c'
  = classList_contains d k c' || bool_decide (n = k ∧ c = c' ∧ k < length d).
Proof.
  unfold classList_add. rewrite classList_contains_alter. unfold classList_contains.
  case_decide as Hn.
  - subst k. destruct (d !! n) as [e|] eqn:E; simpl.
    + apply lookup_lt_Some in E. destruct (decide (c = c')) as [->|Hc].
      * rewrite (bool_decide_eq_true_2 (n = n ∧ _)) by done.
        rewrite orb_true_r. apply bool_decide_eq_true_2.
        rewrite elem_of_union, elem_of_singleton. tauto.
      * rewrite (bool_decide_eq_false_2 (n = n ∧ _)) by tauto.
        rewrite orb_false_r. apply bool_decide_ext.
        rewrite elem_of_union, elem_of_singleton. split; [|tauto].
        intros [H|H]; [done | congruence].
    + apply lookup_ge_None in E. symmetry. apply bool_decide_eq_false_2. lia.
  - rewrite (bool_decide_eq_false_2 (n = k ∧ _)) by tauto. by rewrite orb_false_r.
Qed.

Lemma classList_contains_lt d k c : classList_contains d k c = true → k < length d.
Proof.
  unfold classList_contains. destruct (d !! k) eqn:E; [|done].
  intros _. by apply lookup_lt_Some in E.
Qed.

Lemma classList_contains_toggle n c d k c' :
  classList_contains (classList_toggle n c d) k c'
  = if bool_decide (n = k ∧ c = c' ∧ k < length d)
    then negb (classList_contains d k c') else classList_contains d k c'.
Proof.
  unfold classList_toggle. destruct (classList_contains d n c) eqn:E.
  - rewrite classList_contains_remove.
    destruct (decide (n = k ∧ c = c')) as [[-> ->]|H'].
    + apply classList_contains_lt in E as Hlt.
      rewrite !bool_decide_eq_true_2 by done. by rewrite E.
    + rewrite !bool_decide_eq_false_2 by tauto. by rewrite andb_true_r.
  - rewrite classList_contains_add. case_bool_decide as H.
    + destruct H as (-> & -> & _). by rewrite E.
    + by rewrite orb_false_r.
Qed.

Lemma classList_contains_ext d d' k c :
  classList <$> d = classList <$> d' → classList_contains d k c = classList_contains d' k c.
Proof.
  intros H. unfold classList_contains. pose proof (fmap_eq_lookup _ d d' k H) as E.
  destruct (d !! k), (d' !! k); simpl in *; try done. by injection E as ->.
Qed.

Lemma classList_setAttribute n a v d : classList <$> setAttribute n a v d = classList <$> d.
Proof. apply (fmap_alter_preserved classList). intros e. reflexivity. Qed.

Lemma classList_set_textContent n v d : classList <$> set_textContent n v d = classList <$> d.
Proof. apply (fmap_alter_preserved classList). intros e. reflexivity. Qed.

Lemma classList_set_styleDisplay n v d : classList <$> set_styleDisplay n v d = classList <$> d.
Proof. apply (fmap_alter_preserved classList). intros e. reflexivity. Qed.

Lemma getAttribute_setAttribute n a v d k a' :
  getAttribute (setAttribute n a v d) k a'
  = if bool_decide (n = k ∧ a = a' ∧ k < length d) then Some v else getAttribute d k a'.
Proof.
  unfold getAttribute, setAttribute. rewrite list_lookup_alter.
  destruct (decide (n = k)) as [->|Hn].
  - destruct (d !! k) as [e|] eqn:E; simpl.
    + apply lookup_lt_Some in E. destruct (decide (a = a')) as [->|Ha].
      * rewrite bool_decide_eq_true_2 by done. apply lookup_insert_eq.
      * rewrite bool_decide_eq_false_2 by tauto. by apply lookup_insert_ne.
    + apply lookup_ge_None in E. rewrite bool_decide_eq_false_2 by lia. done.
  - rewrite bool_decide_eq_false_2 by tauto. done.
Qed.

End DomFacts.

(** * The accordion *)

Section FaqFacts.

Implicit Types (d : Document) (n k item o : nat).

(** ** Selection by class does not see the toggled class *)

Lemma classes_but_mem c x e : c ≠ x → c ∈ classList e ↔ c ∈ classes_but x e.
Proof.
  intros H. unfold classes_but. rewrite elem_of_difference, elem_of_singleton. tauto.
Qed.

Lemma selected_class_ext x d d' root c n :
  c ≠ x →
  parentNode <$> d = parentNode <$> d' →
  classes_but x <$> d = classes_but x <$> d' →
  selected d root (ByClass c) n = selected d' root (ByClass c) n.
Proof.
  intros Hc Hp Hx. unfold selected. rewrite (inside_ext d d' root n Hp). f_equal.
  pose proof (fmap_eq_lookup _ d d' n Hx) as E.
  destruct (d !! n) as [e|], (d' !! n) as [e'|]; simpl in *; try done.
  injection E as E. apply bool_decide_ext.
  rewrite !(classes_but_mem c x) by done. by rewrite E.
Qed.

Lemma querySelector_class_ext x d d' root c :
  c ≠ x →
  parentNode <$> d = parentNode <$> d' →
  classes_but x <$> d = classes_but x <$> d' →
  querySelector d root (ByClass c) = querySelector d' root (ByClass c).
Proof.
  intros Hc Hp Hx. unfold querySelector, querySelectorAll.
  rewrite (fmap_eq_length _ _ _ Hp). f_equal. apply list_filter_iff. intros n.
  by rewrite (selected_class_ext x d d' root c n).
Qed.

Lemma querySelector_lt d root sel n : querySelector d root sel = Some n → n < length d.
Proof.
  unfold querySelector, querySelectorAll. intros H. apply head_Some_elem_of in H.
  apply list_elem_of_filter in H as [_ H]. apply elem_of_seq in H. lia.
Qed.

(** ** What the handlers leave alone *)

Lemma classes_but_remove n c d :
  classes_but c <$> classList_remove n c d = classes_but c <$> d.
Proof.
  apply (fmap_alter_preserved (classes_but c)). intros e. unfold classes_but. simpl.
  apply set_eq. intros y. rewrite !elem_of_difference. tauto.
Qed.

Lemma classes_but_add n c d :
  classes_but c <$> classList_add n c d = classes_but c <$> d.
Proof.
  apply (fmap_alter_preserved (classes_but c)). intros e. unfold classes_but. simpl.
  apply set_eq. intros y. rewrite !elem_of_difference, elem_of_union. tauto.
Qed.

Lemma classes_but_toggle n c d :
  classes_but c <$> classList_toggle n c d = classes_but c <$> d.
Proof.
  unfold classList_toggle. destruct (classList_contains d n c).
  - apply classes_but_remove.
  - apply classes_but_add.
Qed.

Lemma classes_but_setAttribute x n a v d :
  classes_but x <$> setAttribute n a v d = classes_but x <$> d.
Proof. apply (fmap_alter_preserved (classes_but x)). intros e. reflexivity. Qed.

Lemma parentNode_alter_classList f n d :
  parentNode <$> alter (with_classList f) n d = parentNode <$> d.
Proof. apply (fmap_alter_preserved parentNode). intros e. reflexivity. Qed.

Lemma parentNode_toggle n c d : parentNode <$> classList_toggle n c d = parentNode <$> d.
Proof.
  unfold classList_toggle. destruct (classList_contains d n c);
    apply parentNode_alter_classList.
Qed.

Lemma parentNode_setAttribute n a v d : parentNode <$> setAttribute n a v d = parentNode <$> d.
Proof. apply (fmap_alter_preserved parentNode). intros e. reflexivity. Qed.

Lemma attributes_alter_classList f n d :
  attributes <$> alter (with_classList f) n d = attributes <$> d.
Proof. apply (fmap_alter_preserved attributes). intros e. reflexivity. Qed.

Lemma same_accordion_refl d : same_accordion d d.
Proof. by split. Qed.

Lemma same_accordion_trans d1 d2 d3 :
  same_accordion d1 d2 → same_accordion d2 d3 → same_accordion d1 d3.
Proof. intros [? ?] [? ?]. split; congruence. Qed.

Lemma same_accordion_trigger d d' item :
  same_accordion d d' → trigger_of d item = trigger_of d' item.
Proof. intros [Hp Hc]. by apply (querySelector_class_ext "open"). Qed.

Lemma same_accordion_remove n d : same_accordion d (classList_remove n "open" d).
Proof.
  split; symmetry; [apply parentNode_alter_classList | apply classes_but_remove].
Qed.

Lemma same_accordion_toggle n d : same_accordion d (classList_toggle n "open" d).
Proof. split; symmetry; [apply parentNode_toggle | apply classes_but_toggle]. Qed.

Lemma same_accordion_setAttribute n a v d : same_accordion d (setAttribute n a v d).
Proof.
  split; symmetry; [apply parentNode_setAttribute | apply classes_but_setAttribute].
Qed.

Lemma close_other_same item d o : same_accordion d (close_other item d o).
Proof.
  unfold close_other.
  destruct (negb (o =? item) && classList_contains d o "open");
    [|apply same_accordion_refl].
  destruct (querySelector _ _ _).
  - eapply same_accordion_trans;
      [apply same_accordion_remove | apply same_accordion_setAttribute].
  - apply same_accordion_remove.
Qed.

Lemma fold_close_same item items d : same_accordion d (foldl (close_other item) d items).
Proof.
  revert d. induction items as [|o items IH]; intros d; simpl.
  - apply same_accordion_refl.
  - eapply same_accordion_trans; [apply close_other_same | apply IH].
Qed.

Lemma onClick_same items item q d : same_accordion d (onClick items item q d).
Proof.
  unfold onClick.
  eapply same_accordion_trans; [apply fold_close_same|].
  eapply same_accordion_trans; [apply same_accordion_toggle|].
  apply same_accordion_setAttribute.
Qed.

(** ** Which panels are open after the closing loop *)

Lemma is_open_setAttribute n a v d k : is_open (setAttribute n a v d) k = is_open d k.
Proof. apply classList_contains_ext, classList_setAttribute. Qed.

Lemma is_open_close_other item d o k :
  is_open (close_other item d o) k
  = is_open d k && negb (bool_decide (o = k) && negb (o =? item)).
Proof.
  unfold close_other, is_open.
  destruct (o =? item) eqn:Ei; simpl; [by rewrite andb_false_r, andb_true_r|].
  rewrite andb_true_r.
  destruct (classList_contains d o "open") eqn:Eo.
  - assert (classList_contains (classList_remove o "open" d) k "open"
            = classList_contains d k "open" && negb (bool_decide (o = k))) as E.
    { rewrite classList_contains_remove. f_equal. f_equal. apply bool_decide_ext. tauto. }
    destruct (querySelector _ _ _); [|done].
    by rewrite (classList_contains_ext _ _ _ _ (classList_setAttribute _ _ _ _)).
  - case_bool_decide; [subst; by rewrite Eo | by rewrite andb_true_r].
Qed.

Lemma is_open_fold_close item items d k :
  is_open (foldl (close_other item) d items) k
  = is_open d k && negb (bool_decide (k ∈ items) && negb (k =? item)).
Proof.
  revert d. induction items as [|o items IH]; intros d; cbn [foldl].
  - rewrite bool_decide_eq_false_2 by apply not_elem_of_nil. by rewrite andb_true_r.
  - rewrite IH, is_open_close_other. rewrite <- andb_assoc. f_equal.
    destruct (decide (o = k)) as [->|Hne].
    + rewrite (bool_decide_eq_true_2 (k = k)) by done.
      rewrite (bool_decide_eq_true_2 (k ∈ k :: items)) by left. simpl.
      destruct (k =? item); simpl; [by rewrite andb_false_r | done].
    + rewrite (bool_decide_eq_false_2 (o = k)) by done. simpl.
      f_equal. f_equal. apply bool_decide_ext. rewrite elem_of_cons.
      split; [tauto | intros [?|?]; [congruence | done]].
Qed.

(** After the listener has run, no panel of the captured list other than
    its own is open, and its own has changed state. *)
Lemma is_open_onClick items item q d k :
  is_open (onClick items item q d) k
  = if bool_decide (k = item) then negb (is_open d k) && bool_decide (k < length d)
    else is_open d k && negb (bool_decide (k ∈ items)).
Proof.
  unfold onClick. rewrite is_open_setAttribute. unfold is_open at 1.
  rewrite classList_contains_toggle. fold (is_open (foldl (close_other item) d items) k).
  rewrite is_open_fold_close.
  assert (length (foldl (close_other item) d items) = length d) as ->.
  { symmetry. apply (fmap_eq_length parentNode), fold_close_same. }
  destruct (decide (k = item)) as [->|Hne].
  - rewrite (bool_decide_eq_true_2 (item = item)) by done.
    rewrite Nat.eqb_refl, andb_false_r, andb_true_r.
    destruct (decide (item < length d)) as [Hlt|Hge].
    + rewrite !bool_decide_eq_true_2 by done. by rewrite andb_true_r.
    + rewrite !bool_decide_eq_false_2 by tauto. rewrite andb_false_r.
      unfold is_open, classList_contains.
      destruct (d !! item) eqn:E; [|done]. by apply lookup_lt_Some in E.
  - rewrite (bool_decide_eq_false_2 (k = item)) by done.
    rewrite bool_decide_eq_false_2 by (intros [? _]; congruence).
    apply Nat.eqb_neq in Hne. by rewrite Hne, andb_true_r.
Qed.

(** ** What the closing loop writes *)

Lemma close_other_lookup item d o k :
  (o ≠ item → is_open d o = true → k ≠ o ∧ trigger_of d o ≠ Some k) →
  close_other item d o !! k = d !! k.
Proof.
  intros H. unfold close_other.
  destruct (o =? item) eqn:Ei; simpl; [done|]. apply Nat.eqb_neq in Ei.
  destruct (classList_contains d o "open") eqn:Eo; [|done].
  destruct (H Ei Eo) as [Hk Hq].
  fold (trigger_of (classList_remove o "open" d) o).
  rewrite <- (same_accordion_trigger _ _ o (same_accordion_remove o d)).
  destruct (trigger_of d o) as [q|].
  - unfold setAttribute, classList_remove.
    rewrite !list_lookup_alter_ne by congruence. done.
  - unfold classList_remove. by rewrite list_lookup_alter_ne.
Qed.

Lemma is_open_close_other_mono item d o k :
  is_open (close_other item d o) k = true → is_open d k = true.
Proof. rewrite is_open_close_other. by intros [? _]%andb_true_iff. Qed.

Lemma fold_close_lookup item items d k :
  (∀ o, o ∈ items → o ≠ item → is_open d o = true → k ≠ o ∧ trigger_of d o ≠ Some k) →
  foldl (close_other item) d items !! k = d !! k.
Proof.
  revert d. induction items as [|o items IH]; intros d H; cbn [foldl]; [done|].
  rewrite IH.
  - apply close_other_lookup. intros. apply H; [left | done..].
  - intros o' Hin Hne Hopen. apply is_open_close_other_mono in Hopen.
    rewrite <- (same_accordion_trigger _ _ o' (close_other_same item d o)).
    apply H; [by right | done..].
Qed.

(** The expanded flag of the trigger of a panel that the loop closes. *)
Lemma close_other_expanded_keep item d o q :
  getAttribute d q "aria-expanded" = Some (lit "false") →
  getAttribute (close_other item d o) q "aria-expanded" = Some (lit "false").
Proof.
  intros H. unfold close_other.
  destruct (negb (o =? item) && classList_contains d o "open"); [|done].
  assert (getAttribute (classList_remove o "open" d) q "aria-expanded"
          = Some (lit "false")) as H'.
  { rewrite <- H. apply getAttribute_ext, attributes_alter_classList. }
  destruct (querySelector _ _ _); [|done].
  rewrite getAttribute_setAttribute. by case_bool_decide.
Qed.

Lemma close_other_expanded_set item d o q :
  o ≠ item → is_open d o = true → trigger_of d o = Some q →
  getAttribute (close_other item d o) q "aria-expanded" = Some (lit "false").
Proof.
  intros Hne Hopen Hq. unfold close_other. unfold is_open in Hopen.
  apply Nat.eqb_neq in Hne. rewrite Hne, Hopen. simpl.
  rewrite (same_accordion_trigger _ _ o (same_accordion_remove o d)) in Hq.
  unfold trigger_of in Hq. rewrite Hq. rewrite getAttribute_setAttribute.
  apply querySelector_lt in Hq. by rewrite bool_decide_eq_true_2.
Qed.

Lemma fold_close_expanded item items d o q :
  getAttribute d q "aria-expanded" = Some (lit "false")
  ∨ (o ∈ items ∧ o ≠ item ∧ is_open d o = true ∧ trigger_of d o = Some q) →
  getAttribute (foldl (close_other item) d items) q "aria-expanded" = Some (lit "false").
Proof.
  revert d. induction items as [|x items IH]; intros d H; cbn [foldl].
  - destruct H as [H | [H _]]; [done|]. by apply not_elem_of_nil in H.
  - apply IH. destruct H as [H | (Hin & Hne & Hopen & Hq)].
    + left. by apply close_other_expanded_keep.
    + destruct (decide (x = o)) as [->|Hx].
      * left. by apply close_other_expanded_set.
      * right. apply elem_of_cons in Hin as [->|Hin]; [done|].
        split_and!; try done.
        -- rewrite is_open_close_other, Hopen.
           by rewrite (bool_decide_eq_false_2 (x = o)).
        -- by rewrite <- (same_accordion_trigger _ _ o (close_other_same item d x)).
Qed.

(** ** Dispatch *)

(** A click on a trigger that has a listener ends with the listener of
    some item [item]: the document is what that listener leaves. *)
Lemma click_last acc q d :
  (∃ l, l ∈ listeners acc ∧ l_question l = q) →
  ∃ item d0, mkListener q item ∈ listeners acc
             ∧ same_accordion d d0
             ∧ click acc q d = onClick (faqItems acc) item q d0.
Proof.
  unfold click. generalize (faqItems acc) as items. intros items.
  induction (listeners acc) as [|l ls IH] using rev_ind; intros (l0 & Hin & Hq).
  - by apply not_elem_of_nil in Hin.
  - rewrite foldl_snoc. destruct (l_question l =? q) eqn:E.
    + apply Nat.eqb_eq in E. destruct l as [lq li]. simpl in *. subst lq.
      exists li. eexists. split; [|split; [|reflexivity]].
      * apply elem_of_app. right. by left.
      * clear. induction ls as [|x ls IH] using rev_ind; [apply same_accordion_refl|].
        rewrite foldl_snoc. destruct (l_question x =? q); [|done].
        eapply same_accordion_trans; [apply IH | apply onClick_same].
    + apply elem_of_app in Hin as [Hin|Hin].
      * destruct IH as (item & d0 & H1 & H2 & H3); [eauto|].
        exists item, d0. split; [|done]. apply elem_of_app. by left.
      * apply list_elem_of_singleton in Hin as ->. apply Nat.eqb_neq in E. done.
Qed.

End FaqFacts.

(** * Mutual exclusion of the panels *)

Section Accordion.

Implicit Types (d : Document) (acc : Accordion).

(** Once the listener of [item] has run, at most that panel is open. *)
Lemma onClick_exclusive items item q d i j :
  i ∈ items → j ∈ items → i ≠ j →
  is_open (onClick items item q d) i = true → is_open (onClick items item q d) j = false.
Proof.
  intros Hi Hj Hne. rewrite !is_open_onClick.
  rewrite (bool_decide_eq_true_2 (i ∈ items)), (bool_decide_eq_true_2 (j ∈ items)) by done.
  rewrite !andb_false_r.
  destruct (decide (i = item)) as [->|Hi'].
  - by rewrite (bool_decide_eq_false_2 (j = item)) by congruence.
  - by rewrite (bool_decide_eq_false_2 (i = item)).
Qed.

(** Opening B while A is open: A is closed and B is open. *)
Lemma onClick_switch items A B q d :
  A ∈ items → A ≠ B → B < length d → is_open d B = false →
  is_open (onClick items B q d) A = false ∧ is_open (onClick items B q d) B = true.
Proof.
  intros HA Hne Hlt HB. rewrite !is_open_onClick.
  rewrite (bool_decide_eq_false_2 (A = B)), (bool_decide_eq_true_2 (B = B)) by done.
  rewrite (bool_decide_eq_true_2 (A ∈ items)), (bool_decide_eq_true_2 (B < _)) by done.
  by rewrite HB, andb_false_r.
Qed.

(** A click on a trigger leaves at most one panel of the page open,
    whatever was open before. *)
Lemma click_exclusive acc q d i j :
  (∃ l, l ∈ listeners acc ∧ l_question l = q) →
  i ∈ faqItems acc → j ∈ faqItems acc → i ≠ j →
  is_open (click acc q d) i = true → is_open (click acc q d) j = false.
Proof.
  intros Hl Hi Hj Hne. destruct (click_last acc q d Hl) as (item & d0 & _ & _ & ->).
  by apply onClick_exclusive.
Qed.

(** A press of Enter or Space on a trigger does what clicks on it do. *)
Lemma keydown_last acc q ls d :
  (∃ l, l ∈ ls ∧ l_question l = q) →
  ∃ d0, foldl (λ d l, if l_question l =? q then click acc (l_question l) d else d) d ls
        = click acc q d0.
Proof.
  induction ls as [|l ls IH] using rev_ind; intros (l0 & Hin & Hq).
  - by apply not_elem_of_nil in Hin.
  - rewrite foldl_snoc. destruct (l_question l =? q) eqn:E.
    + apply Nat.eqb_eq in E. rewrite E. eauto.
    + apply IH. exists l0. split; [|done].
      apply elem_of_app in Hin as [Hin|Hin]; [done|].
      apply list_elem_of_singleton in Hin as ->. apply Nat.eqb_neq in E. done.
Qed.

Lemma keydown_exclusive acc q key d i j :
  (∃ l, l ∈ listeners acc ∧ l_question l = q) →
  key = lit "Enter" ∨ key = lit " " →
  i ∈ faqItems acc → j ∈ faqItems acc → i ≠ j →
  is_open (keydown acc q key d) i = true → is_open (keydown acc q key d) j = false.
Proof.
  intros Hl Hkey Hi Hj Hne. unfold keydown.
  assert (bool_decide (key = lit "Enter") || bool_decide (key = lit " ") = true) as ->.
  { destruct Hkey as [-> | ->]; done. }
  destruct (keydown_last acc q (listeners acc) d Hl) as [d0 ->].
  by apply click_exclusive.
Qed.

Lemma click_no_listener acc q d :
  (∀ l, l ∈ listeners acc → l_question l ≠ q) → click acc q d = d.
Proof.
  unfold click. generalize (faqItems acc). intros items.
  induction (listeners acc) as [|l ls IH] using rev_ind; intros H; [done|].
  rewrite foldl_snoc, IH.
  - assert (l_question l ≠ q) as E by (apply H, elem_of_app; right; by left).
    apply Nat.eqb_neq in E. by rewrite E.
  - intros l' Hl'. apply H, elem_of_app. by left.
Qed.

Lemma keydown_no_listener acc q key d :
  (∀ l, l ∈ listeners acc → l_question l ≠ q) → keydown acc q key d = d.
Proof.
  unfold keydown.
  induction (listeners acc) as [|l ls IH] using rev_ind; intros H; [done|].
  rewrite foldl_snoc, IH.
  - assert (l_question l ≠ q) as E by (apply H, elem_of_app; right; by left).
    apply Nat.eqb_neq in E. by rewrite E.
  - intros l' Hl'. apply H, elem_of_app. by left.
Qed.

Lemma keydown_other_key acc q key d :
  key ≠ lit "Enter" → key ≠ lit " " → keydown acc q key d = d.
Proof.
  intros H1 H2. unfold keydown. rewrite !bool_decide_eq_false_2 by done. simpl.
  induction (listeners acc) as [|l ls IH] using rev_ind; [done|].
  rewrite foldl_snoc, IH. by destruct (l_question l =? q).
Qed.

Lemma listener_on_dec acc q :
  (∃ l, l ∈ listeners acc ∧ l_question l = q) ∨ (∀ l, l ∈ listeners acc → l_question l ≠ q).
Proof.
  induction (listeners acc) as [|l ls [IH|IH]].
  - right. intros l Hl. by apply not_elem_of_nil in Hl.
  - left. destruct IH as (l0 & H0 & H1). exists l0. split; [by right | done].
  - destruct (decide (l_question l = q)) as [E|E].
    + left. exists l. split; [by left | done].
    + right. intros l' [->|Hl']%elem_of_cons; auto.
Qed.

(** Over every sequence of clicks and key presses, at most one panel is
    open: the listeners keep the invariant of the accordion. *)
Lemma listeners_keep_exclusive acc d l :
  exclusive acc d → Forall by_listener l → exclusive acc (run acc d l).
Proof.
  intros Hd Hl. revert d Hd. unfold run.
  induction Hl as [|a l Ha _ IH]; intros d Hd; [done|].
  cbn [foldl]. apply IH. destruct a as [q | q key | b]; [| |done]; simpl.
  - destruct (listener_on_dec acc q) as [Hex|Hno].
    + intros i j Hi Hj Hne. by apply click_exclusive.
    + by rewrite click_no_listener.
  - destruct (listener_on_dec acc q) as [Hex|Hno]; [|by rewrite keydown_no_listener].
    destruct (decide (key = lit "Enter")) as [E1|E1];
      [intros i j Hi Hj Hne; apply keydown_exclusive; auto|].
    destruct (decide (key = lit " ")) as [E2|E2];
      [intros i j Hi Hj Hne; apply keydown_exclusive; auto|].
    by rewrite keydown_other_key.
Qed.

(** [toggleFaq] changes the state of one panel and of no other. *)
Lemma is_open_toggleFaq button d k :
  is_open (toggleFaq button d) k
  = if bool_decide (closest d button (ByClass "faq-item") = Some k ∧ k < length d)
    then negb (is_open d k) else is_open d k.
Proof.
  unfold toggleFaq. destruct (closest d button (ByClass "faq-item")) as [item|].
  - rewrite is_open_setAttribute. unfold is_open. rewrite classList_contains_toggle.
    rewrite (bool_decide_ext (item = k ∧ "open" = "open" ∧ k < length d)
               (Some item = Some k ∧ k < length d)); [done|].
    split; [intros (-> & _ & ?) | intros [[= ->] ?]]; done.
  - by rewrite bool_decide_eq_false_2 by (by intros [? _]).
Qed.

(** So it opens a closed panel next to an open one and leaves both open. *)
Lemma toggleFaq_two_open button d A B :
  closest d button (ByClass "faq-item") = Some B → B < length d → A ≠ B →
  is_open d A = true → is_open d B = false →
  is_open (toggleFaq button d) A = true ∧ is_open (toggleFaq button d) B = true.
Proof.
  intros Hc Hlt Hne HA HB. rewrite !is_open_toggleFaq, Hc.
  rewrite (bool_decide_eq_false_2 (Some B = Some A ∧ _)) by (intros [[= ?] _]; done).
  rewrite bool_decide_eq_true_2 by done. by rewrite HA, HB.
Qed.

End Accordion.

(** C1: the claim holds for the listener (see [click_exclusive],
    [keydown_exclusive] and [onClick_switch]) and fails through the public
    entry point [toggleFaq].  On a page with panels A and B in one group, a
    click on the trigger of A followed by [toggleFaq] on the trigger of B
    leaves both A and B open; and when [toggleFaq] is the inline handler of
    the trigger of B, so that a click on it runs [toggleFaq] and then the
    listener, that click closes A and leaves B closed too. *)
Theorem toggleFaq_breaks_exclusion (random_id : nat → jsstring) :
  let '(d0, acc) := initFaqAccordions random_id Pages.one_group in
  faqItems acc = [1; 4]
  ∧ open_items (run acc d0 [Click 2]) (faqItems acc) = [1]
  ∧ open_items (run acc d0 [Click 2; CallToggleFaq 5]) (faqItems acc) = [1; 4]
  ∧ open_items (run acc d0 [Click 2; CallToggleFaq 5; Click 5]) (faqItems acc) = [].
Proof. vm_compute. auto. Qed.

(** C2, as stated, fails: the listener closes the open panels of the whole
    page.  On a page with two containers, panel A (node 1) in the first and
    panel B (node 5) in the second, a click on the trigger of B while A is
    open closes A and resets the expanded flag of the trigger of A. *)
Lemma other_group_is_closed :
  let '(d0, acc) := initFaqAccordions Pages.some_random_id Pages.two_groups in
  let d := click acc 2 d0 in
  let d' := click acc 6 d in
  (parentNode <$> d !! 1) ≠ (parentNode <$> d !! 5)
  ∧ is_open d 1 = true ∧ getAttribute d 2 "aria-expanded" = Some (lit "true")
  ∧ is_open d' 1 = false ∧ getAttribute d' 2 "aria-expanded" = Some (lit "false").
Proof. vm_compute. split_and!; congruence. Qed.

(** C2, amended: the group of a panel is the whole page.  The listener of
    panel [item] closes every other panel of the captured list, in whatever
    container it is, and sets the expanded flag of the trigger of each panel
    it closes to "false" -- unless that trigger is the clicked trigger
    itself, which two panels share when one lies inside the other: its flag
    ends saying what the clicked panel has become.  A node that is neither
    [item], nor its trigger, nor an open panel of the list, nor the trigger
    of one, is left as it was. *)
Theorem onClick_page_wide (items : list nat) (item q : nat) (d : Document) :
  (∀ Q, Q ∈ items → Q ≠ item → is_open (onClick items item q d) Q = false)
  ∧ (∀ Q t, Q ∈ items → Q ≠ item → is_open d Q = true →
            trigger_of d Q = Some t →
            getAttribute (onClick items item q d) t "aria-expanded"
            = Some (lit (if bool_decide (t = q)
                         then if is_open d item then "false" else "true"
                         else "false")))
  ∧ (∀ k, k ≠ item → k ≠ q →
          (∀ o, o ∈ items → o ≠ item → is_open d o = true →
                k ≠ o ∧ trigger_of d o ≠ Some k) →
          onClick items item q d !! k = d !! k).
Proof.
  split_and!.
  - intros Q HQ Hne. rewrite is_open_onClick.
    rewrite (bool_decide_eq_false_2 (Q = item)), (bool_decide_eq_true_2 (Q ∈ items)) by done.
    apply andb_false_r.
  - intros Q t HQ Hne Hopen Ht. unfold onClick.
    rewrite getAttribute_setAttribute.
    destruct (decide (t = q)) as [->|Htq].
    + rewrite !(bool_decide_eq_true_2 (q = q)) by done.
      rewrite bool_decide_eq_true_2; [done|]. split_and!; [done..|].
      apply querySelector_lt in Ht.
      change (q < length (classList_toggle item "open" (foldl (close_other item) d items))).
      rewrite <- (fmap_eq_length parentNode _ _ (proj1 (same_accordion_toggle item _))).
      by rewrite <- (fmap_eq_length parentNode _ _ (proj1 (fold_close_same item items d))).
    + rewrite (bool_decide_eq_false_2 (t = q)) by done.
      rewrite bool_decide_eq_false_2 by (intros [? _]; congruence).
      unfold classList_toggle.
      destruct (classList_contains _ item "open");
        (erewrite getAttribute_ext; [|apply attributes_alter_classList]);
        apply (fold_close_expanded item items d Q t); right; done.
  - intros k Hk Hq H. unfold onClick, setAttribute, classList_toggle.
    rewrite list_lookup_alter_ne by congruence.
    destruct (classList_contains _ item "open");
      unfold classList_remove, classList_add;
      (rewrite list_lookup_alter_ne by congruence);
      by apply fold_close_lookup.
Qed.

Lemma onClick_page_wide_witness :
  let d := click (snd (initFaqAccordions Pages.some_random_id Pages.two_groups)) 2
             (fst (initFaqAccordions Pages.some_random_id Pages.two_groups)) in
  is_open (onClick [1; 5] 5 6 d) 1 = false
  ∧ getAttribute (onClick [1; 5] 5 6 d) 2 "aria-expanded" = Some (lit "false")
  ∧ onClick [1; 5] 5 6 d !! 3 = d !! 3
  ∧ getAttribute (onClick [0; 1] 1 2 Pages.nested_panels) 2 "aria-expanded"
    = Some (lit "true").
Proof.
  intros d. destruct (onClick_page_wide [1; 5] 5 6 d) as (H1 & H2 & H3).
  destruct (onClick_page_wide [0; 1] 1 2 Pages.nested_panels) as (_ & H2' & _).
  split_and!.
  - apply H1; [by left | lia].
  - rewrite (H2 1); [done | by left | lia | by vm_compute | by vm_compute].
  - apply H3; [lia | lia |]. intros o Ho Hne _.
    apply elem_of_cons in Ho as [->|Ho].
    + split; [lia|]. vm_compute. congruence.
    + apply list_elem_of_singleton in Ho. congruence.
  - rewrite (H2' 0); [done | by left | lia | by vm_compute | by vm_compute].
Defined.

(** * Error display *)

Section ErrorDisplay.

Implicit Types (d : Document) (input n k : nat) (e : Element).

Lemma field_view_attributes d d' :
  field_view <$> d = field_view <$> d' → attributes <$> d = attributes <$> d'.
Proof.
  intros H. change attributes with ((λ v, v.1.1.2) ∘ field_view).
  by rewrite !list_fmap_compose, H.
Qed.

Lemma field_view_elemId d d' :
  field_view <$> d = field_view <$> d' → elemId <$> d = elemId <$> d'.
Proof.
  intros H. change elemId with ((λ v, v.1.1.1.2) ∘ field_view).
  by rewrite !list_fmap_compose, H.
Qed.

Lemma field_view_parentNode d d' :
  field_view <$> d = field_view <$> d' → parentNode <$> d = parentNode <$> d'.
Proof.
  intros H. change parentNode with ((λ v, v.1.1.1.1.2) ∘ field_view).
  by rewrite !list_fmap_compose, H.
Qed.

Lemma field_view_tagName d d' :
  field_view <$> d = field_view <$> d' → tagName <$> d = tagName <$> d'.
Proof.
  intros H. change tagName with ((λ v, v.1.1.1.1.1) ∘ field_view).
  by rewrite !list_fmap_compose, H.
Qed.

Lemma errorEl_of_ext d d' input :
  field_view <$> d = field_view <$> d' → errorEl_of d input = errorEl_of d' input.
Proof.
  intros H. unfold errorEl_of.
  rewrite (getAttribute_ext d d' input _ (field_view_attributes _ _ H)).
  destruct (getAttribute d' input "aria-describedby") as [s|]; [|done].
  destruct (truthy s); [|done].
  apply getElementById_ext, field_view_elemId, H.
Qed.

Lemma field_view_classList f n d : field_view <$> alter (with_classList f) n d = field_view <$> d.
Proof. apply (fmap_alter_preserved field_view). intros e. reflexivity. Qed.

Lemma field_view_textContent n v d : field_view <$> set_textContent n v d = field_view <$> d.
Proof. apply (fmap_alter_preserved field_view). intros e. reflexivity. Qed.

Lemma field_view_styleDisplay n v d : field_view <$> set_styleDisplay n v d = field_view <$> d.
Proof. apply (fmap_alter_preserved field_view). intros e. reflexivity. Qed.

Lemma field_view_clearError input d : field_view <$> clearError input d = field_view <$> d.
Proof.
  unfold clearError. destruct (errorEl_of _ _); unfold classList_remove.
  - by rewrite field_view_styleDisplay, field_view_textContent, field_view_classList.
  - apply field_view_classList.
Qed.

Lemma field_view_showError input m d : field_view <$> showError input m d = field_view <$> d.
Proof.
  unfold showError. destruct (errorEl_of _ _); unfold classList_add.
  - by rewrite field_view_styleDisplay, field_view_textContent, field_view_classList.
  - apply field_view_classList.
Qed.

Lemma errorEl_of_lt d input t : errorEl_of d input = Some t → t < length d.
Proof.
  unfold errorEl_of. destruct (getAttribute _ _ _) as [s|]; [|done].
  destruct (truthy s); [|done]. intros H.
  apply getElementById_Some in H as (e & H & _). by apply lookup_lt_Some in H.
Qed.

(** ** [clearError] *)

Lemma clearError_unfold input d :
  clearError input d
  = match errorEl_of d input with
    | Some t => set_styleDisplay t (lit "none")
                  (set_textContent t (lit "") (classList_remove input "error" d))
    | None => classList_remove input "error" d
    end.
Proof.
  unfold clearError.
  by rewrite (errorEl_of_ext (classList_remove input "error" d) d input)
    by apply field_view_classList.
Qed.

Lemma showError_unfold input m d :
  showError input m d
  = match errorEl_of d input with
    | Some t => set_styleDisplay t (lit "block")
                  (set_textContent t m (classList_add input "error" d))
    | None => classList_add input "error" d
    end.
Proof.
  unfold showError.
  by rewrite (errorEl_of_ext (classList_add input "error" d) d input)
    by apply field_view_classList.
Qed.

Lemma errorEl_of_clearError input d k :
  errorEl_of (clearError input d) k = errorEl_of d k.
Proof. apply errorEl_of_ext, field_view_clearError. Qed.

Lemma with_classList_remove_twice c e :
  with_classList (λ s, s ∖ {[c]}) (with_classList (λ s, s ∖ {[c]}) e)
  = with_classList (λ s, s ∖ {[c]}) e.
Proof.
  destruct e. unfold with_classList. simpl. f_equal.
  apply set_eq. intros y. rewrite !elem_of_difference. tauto.
Qed.

Lemma classList_remove_twice n c d :
  classList_remove n c (classList_remove n c d) = classList_remove n c d.
Proof.
  unfold classList_remove. rewrite list_alter_alter_eq.
  apply list_alter_ext; [|done]. intros e _. apply with_classList_remove_twice.
Qed.

Lemma clearError_twice input d :
  clearError input (clearError input d) = clearError input d.
Proof.
  rewrite (clearError_unfold input (clearError input d)), errorEl_of_clearError.
  rewrite clearError_unfold. destruct (errorEl_of d input) as [t|].
  - unfold set_styleDisplay, set_textContent, classList_remove.
    apply list_eq. intros k.
    destruct (decide (t = k)) as [->|Ht], (decide (input = k)) as [->|Hi];
      repeat (rewrite list_lookup_alter_eq || rewrite list_lookup_alter_ne by done);
      try done;
      (destruct (d !! k) as [e|]; simpl; [f_equal|done]);
      destruct e; unfold with_styleDisplay, with_textContent, with_classList; simpl;
      f_equal; apply set_eq; intros y; rewrite !elem_of_difference; tauto.
  - apply classList_remove_twice.
Qed.

Lemma clearError_class input d k c :
  classList_contains (clearError input d) k c
  = classList_contains d k c && negb (bool_decide (input = k ∧ "error" = c)).
Proof.
  rewrite clearError_unfold. destruct (errorEl_of d input) as [t|].
  - rewrite (classList_contains_ext _ _ _ _ (classList_set_styleDisplay _ _ _)).
    rewrite (classList_contains_ext _ _ _ _ (classList_set_textContent _ _ _)).
    apply classList_contains_remove.
  - apply classList_contains_remove.
Qed.

Lemma showError_class input m d k c :
  classList_contains (showError input m d) k c
  = classList_contains d k c || bool_decide (input = k ∧ "error" = c ∧ k < length d).
Proof.
  rewrite showError_unfold. destruct (errorEl_of d input) as [t|].
  - rewrite (classList_contains_ext _ _ _ _ (classList_set_styleDisplay _ _ _)).
    rewrite (classList_contains_ext _ _ _ _ (classList_set_textContent _ _ _)).
    apply classList_contains_add.
  - apply classList_contains_add.
Qed.

Lemma text_display_written t v w d :
  t < length d →
  get_textContent (set_styleDisplay t w (set_textContent t v d)) t = v
  ∧ get_styleDisplay (set_styleDisplay t w (set_textContent t v d)) t = w.
Proof.
  intros Hlt. apply lookup_lt_is_Some in Hlt as [e He].
  unfold get_textContent, get_styleDisplay, set_styleDisplay, set_textContent.
  rewrite !list_lookup_alter_eq, He. done.
Qed.

Lemma clearError_target input d t :
  errorEl_of d input = Some t →
  get_textContent (clearError input d) t = lit ""
  ∧ get_styleDisplay (clearError input d) t = lit "none".
Proof.
  intros H. rewrite clearError_unfold, H. apply text_display_written.
  unfold classList_remove. rewrite length_alter. by apply errorEl_of_lt in H.
Qed.

Lemma showError_target input m d t :
  errorEl_of d input = Some t →
  get_textContent (showError input m d) t = m
  ∧ get_styleDisplay (showError input m d) t = lit "block".
Proof.
  intros H. rewrite showError_unfold, H. apply text_display_written.
  unfold classList_add. rewrite length_alter. by apply errorEl_of_lt in H.
Qed.

Lemma clearError_lookup_ne input d k :
  k ≠ input → errorEl_of d input ≠ Some k → clearError input d !! k = d !! k.
Proof.
  intros Hk Ht. rewrite clearError_unfold. destruct (errorEl_of d input) as [t|];
    unfold set_styleDisplay, set_textContent, classList_remove;
    rewrite !list_lookup_alter_ne by congruence; done.
Qed.

Lemma showError_lookup_ne input m d k :
  k ≠ input → errorEl_of d input ≠ Some k → showError input m d !! k = d !! k.
Proof.
  intros Hk Ht. rewrite showError_unfold. destruct (errorEl_of d input) as [t|];
    unfold set_styleDisplay, set_textContent, classList_add;
    rewrite !list_lookup_alter_ne by congruence; done.
Qed.

Lemma length_clearError input d : length (clearError input d) = length d.
Proof. apply (fmap_eq_length field_view), field_view_clearError. Qed.

End ErrorDisplay.

(** * Field validation *)

Section Validation.

Implicit Types (d : Document) (input n k : nat).

Lemma truthy_false (s : jsstring) : truthy s = false ↔ s = [].
Proof. destruct s; simpl; split; congruence. Qed.

Lemma truthy_true (s : jsstring) : truthy s = true ↔ s ≠ [].
Proof. destruct s; simpl; split; congruence. Qed.

(** The outcome is one of two documents. *)
Lemma validateField_with_cases tst input d :
  validateField_with tst input d = (true, clearError input d)
  ∨ ∃ m, validateField_with tst input d = (false, showError input m (clearError input d)).
Proof.
  unfold validateField_with.
  repeat match goal with |- context [if ?b then _ else _] => destruct b end; eauto.
Qed.

Lemma field_view_validateField tst input d :
  field_view <$> (validateField_with tst input d).2 = field_view <$> d.
Proof.
  destruct (validateField_with_cases tst input d) as [-> | [m ->]]; simpl.
  - apply field_view_clearError.
  - by rewrite field_view_showError, field_view_clearError.
Qed.

(** The marker class tells the verdict. *)
Lemma validateField_marker tst input d k :
  classList_contains (validateField_with tst input d).2 k "error"
  = if bool_decide (k = input)
    then negb (validateField_with tst input d).1 && bool_decide (k < length d)
    else classList_contains d k "error".
Proof.
  destruct (decide (k = input)) as [->|Hk].
  - rewrite (bool_decide_eq_true_2 (input = input)) by done.
    destruct (validateField_with_cases tst input d) as [-> | [m ->]]; simpl.
    + rewrite clearError_class. rewrite bool_decide_eq_true_2 by done. apply andb_false_r.
    + rewrite showError_class, clearError_class, length_clearError.
      rewrite (bool_decide_eq_true_2 (input = input ∧ "error" = "error")) by done.
      rewrite andb_false_r. simpl. apply bool_decide_ext. tauto.
  - rewrite (bool_decide_eq_false_2 (k = input)) by done.
    destruct (validateField_with_cases tst input d) as [-> | [m ->]]; simpl.
    + rewrite clearError_class.
      rewrite bool_decide_eq_false_2 by (intros [? _]; congruence). apply andb_true_r.
    + rewrite showError_class, clearError_class.
      rewrite !bool_decide_eq_false_2 by (intros [? _]; congruence).
      by rewrite andb_true_r, orb_false_r.
Qed.

(** The verdict depends on the field alone. *)
Lemma validateField_verdict_ext tst input d d' :
  field_view <$> d !! input = field_view <$> d' !! input →
  (validateField_with tst input d).1 = (validateField_with tst input d').1.
Proof.
  intros H. unfold validateField_with.
  assert (get_value d input = get_value d' input
          ∧ get_type d input = get_type d' input
          ∧ hasAttribute d input "required" = hasAttribute d' input "required")
    as (-> & -> & ->).
  { unfold get_value, get_type, hasAttribute, getAttribute.
    destruct (d !! input) as [e|], (d' !! input) as [e'|]; simpl in *; try done.
    unfold field_view in H. injection H as _ _ _ Ha Hv Ht. by rewrite Ha, Hv, Ht. }
  repeat match goal with |- context [if ?b then _ else _] => destruct b end; done.
Qed.

End Validation.

(** * The rules of [validateField] *)

Section Rules.

Implicit Types (d : Document) (input : nat).

Lemma phone_set_mem c :
  set_mem [ADigit; ASpace; AChar (ch "-"); AChar (ch "("); AChar (ch ")"); AChar (ch "+")] c
  = Spec.tel_char_ws c.
Proof.
  unfold set_mem, Spec.tel_char_ws. simpl. by rewrite orb_false_r, !orb_assoc.
Qed.

Lemma phoneRegex_chars v :
  test phoneRegex v = true ↔ v ≠ [] ∧ Forall (λ c, Spec.tel_char_ws c = true) v.
Proof.
  rewrite test_Matches. unfold phoneRegex. apply Matches_Plus_chars.
  intros w. rewrite Matches_CharSet.
  split; intros (c & -> & H); exists c; (split; [done|]);
    [by rewrite <- phone_set_mem | by rewrite phone_set_mem].
Qed.

(** Past the required check, an email field stands or falls with the
    pattern. *)
Lemma validateField_email tst input d :
  get_type d input = lit "email" → trim (get_value d input) ≠ [] →
  validateField_with tst input d
  = if tst emailRegex (trim (get_value d input))
    then (true, clearError input d)
    else (false, showError input (lit "Please enter a valid email address")
                   (clearError input d)).
Proof.
  intros Ht Hv. unfold validateField_with. rewrite Ht.
  apply truthy_true in Hv. rewrite Hv. rewrite andb_false_r.
  rewrite bool_decide_eq_true_2 by done.
  rewrite (bool_decide_eq_false_2 (lit "email" = lit "tel")) by (vm_compute; congruence).
  by destruct (tst emailRegex _).
Qed.

Lemma validateField_tel tst input d :
  get_type d input = lit "tel" → trim (get_value d input) ≠ [] →
  validateField_with tst input d
  = if negb (tst phoneRegex (trim (get_value d input)))
       || (length (digits_only (trim (get_value d input))) <? 10)
    then (false, showError input (lit "Please enter a valid phone number")
                   (clearError input d))
    else (true, clearError input d).
Proof.
  intros Ht Hv. unfold validateField_with. rewrite Ht.
  apply truthy_true in Hv. rewrite Hv. rewrite andb_false_r.
  rewrite (bool_decide_eq_false_2 (lit "tel" = lit "email")) by (vm_compute; congruence).
  rewrite (bool_decide_eq_true_2 (lit "tel" = lit "tel")) by done.
  simpl. by destruct (_ || _).
Qed.

End Rules.

(** C4: a required field whose trimmed value is empty is invalid, with the
    message "This field is required", whatever its type; the pattern checks
    are not reached: the outcome is the same for every behaviour of the
    regular-expression engine. *)
Theorem required_short_circuits (regex_test : regex → jsstring → bool)
    (input : nat) (d : Document) :
  hasAttribute d input "required" = true →
  trim (get_value d input) = [] →
  validateField_with regex_test input d
  = (false, showError input (lit "This field is required") (clearError input d))
  ∧ classList_contains (validateField_with regex_test input d).2 input "error" = true
  ∧ ∀ t, errorEl_of d input = Some t →
         get_textContent (validateField_with regex_test input d).2 t
         = lit "This field is required"
         ∧ get_styleDisplay (validateField_with regex_test input d).2 t = lit "block".
Proof.
  intros Hreq Hv.
  assert (validateField_with regex_test input d
          = (false, showError input (lit "This field is required") (clearError input d)))
    as E.
  { unfold validateField_with. by rewrite Hreq, Hv. }
  assert (input < length d) as Hlt.
  { unfold hasAttribute, getAttribute in Hreq.
    destruct (d !! input) eqn:El; [by apply lookup_lt_Some in El | done]. }
  split_and!; [done | |].
  - rewrite validateField_marker, E. simpl. by rewrite !bool_decide_eq_true_2.
  - intros t Ht. rewrite E. simpl. apply showError_target.
    by rewrite errorEl_of_clearError.
Qed.

Lemma required_short_circuits_witness :
  let d := Pages.contact_form (lit "  ") (lit "foo@bar") [] in
  fst (validateField 1 d) = false
  ∧ get_textContent (snd (validateField 1 d)) 2 = lit "This field is required".
Proof.
  intros d.
  destruct (required_short_circuits test 1 d) as (H1 & H2 & H3);
    [by vm_compute | by vm_compute |].
  split.
  - unfold validateField. by rewrite H1.
  - apply (H3 2). by vm_compute.
Defined.

(** C5: an email field with a non-empty trimmed value is invalid, with the
    message "Please enter a valid email address", exactly when the value
    fails the pattern local@domain.tld; "user@example.com" passes, and
    "user@", "user@com" and "user example.com" fail. *)
Theorem email_rule (input : nat) (d : Document) :
  get_type d input = lit "email" →
  trim (get_value d input) ≠ [] →
  ((validateField input d).1 = false ↔ ¬ Spec.email_pattern (trim (get_value d input)))
  ∧ ((validateField input d).1 = false →
     (validateField input d).2
     = showError input (lit "Please enter a valid email address") (clearError input d))
  ∧ (trim (get_value d input) = lit "user@example.com" → (validateField input d).1 = true)
  ∧ (trim (get_value d input) = lit "user@" → (validateField input d).1 = false)
  ∧ (trim (get_value d input) = lit "user@com" → (validateField input d).1 = false)
  ∧ (trim (get_value d input) = lit "user example.com" → (validateField input d).1 = false).
Proof.
  intros Ht Hv. unfold validateField. rewrite (validateField_email test input d Ht Hv).
  split_and!.
  - rewrite <- emailRegex_pattern.
    destruct (test emailRegex _); simpl; split; congruence.
  - by destruct (test emailRegex _).
  - by intros ->.
  - by intros ->.
  - by intros ->.
  - by intros ->.
Qed.

Lemma email_rule_witness :
  let d := Pages.contact_form (lit "Ada") (lit " foo@bar ") [] in
  (validateField 3 d).1 = false
  ∧ get_textContent (validateField 3 d).2 4 = lit "Please enter a valid email address".
Proof.
  intros d.
  destruct (email_rule 3 d) as (H1 & H2 & _); [by vm_compute | by vm_compute |].
  assert ((validateField 3 d).1 = false) as E.
  { apply H1. rewrite <- emailRegex_pattern. by vm_compute. }
  split; [done|]. rewrite (H2 E). by vm_compute.
Defined.

(** C6, as stated, fails: a tab is none of digit, space, hyphen, parenthesis
    or plus, and a phone number with tabs in it and ten digits passes. *)
Lemma tab_in_phone_passes :
  let d := Pages.contact_form [] []
             (lit "555" ++ [9%Z] ++ lit "123" ++ [9%Z] ++ lit "4567") in
  get_type d 5 = lit "tel"
  ∧ trim (get_value d 5) ≠ []
  ∧ Spec.tel_invalid (trim (get_value d 5))
  ∧ (validateField 5 d).1 = true.
Proof.
  split_and!; try by vm_compute.
  left. exists 9%Z. split; [|done]. vm_compute. do 3 right. left.
Qed.

(** C6, amended: a tel field with a non-empty trimmed value is invalid, with
    the message "Please enter a valid phone number", exactly when the value
    contains a character outside digits, white space (any character [\s]
    matches), hyphen, parentheses and plus, or has fewer than 10 digits;
    fewer than 10 digits fail whatever the formatting, "(555) 123-4567"
    passes and "555-12a-3456" fails. *)
Theorem tel_rule (input : nat) (d : Document) :
  get_type d input = lit "tel" →
  trim (get_value d input) ≠ [] →
  ((validateField input d).1 = false ↔ Spec.tel_invalid_ws (trim (get_value d input)))
  ∧ ((validateField input d).1 = false →
     (validateField input d).2
     = showError input (lit "Please enter a valid phone number") (clearError input d))
  ∧ (length (digits_only (trim (get_value d input))) < 10 →
     (validateField input d).1 = false)
  ∧ (trim (get_value d input) = lit "(555) 123-4567" → (validateField input d).1 = true)
  ∧ (trim (get_value d input) = lit "555-12a-3456" → (validateField input d).1 = false).
Proof.
  intros Ht Hv. unfold validateField. rewrite (validateField_tel test input d Ht Hv).
  set (v := trim (get_value d input)) in *.
  assert (negb (test phoneRegex v) || (length (digits_only v) <? 10) = true
          ↔ Spec.tel_invalid_ws v) as Hiff.
  { unfold Spec.tel_invalid_ws.
    rewrite orb_true_iff, negb_true_iff, Nat.ltb_lt, <- not_true_iff_false, phoneRegex_chars.
    split; (intros [H|H]; [left | by right]).
    - destruct (decide (Forall (λ c, Spec.tel_char_ws c = true) v)) as [Hall|Hex];
        [by destruct H|].
      apply not_Forall_Exists in Hex; [|apply _].
      apply Exists_exists in Hex as (c & Hc & Hn). exists c. split; [done|].
      by apply not_true_is_false.
    - destruct H as (c & Hc & Hn). intros [_ Hall].
      rewrite Forall_forall in Hall. apply Hall in Hc. congruence. }
  split_and!.
  - rewrite <- Hiff. destruct (_ || _); simpl; split; congruence.
  - by destruct (_ || _).
  - intros Hlt. apply Nat.ltb_lt in Hlt. by rewrite Hlt, orb_true_r.
  - by intros ->.
  - by intros ->.
Qed.

Lemma tel_rule_witness :
  let d := Pages.contact_form [] [] (lit "(555) 123-456") in
  (validateField 5 d).1 = false.
Proof.
  intros d.
  destruct (tel_rule 5 d) as (_ & _ & H & _); [by vm_compute | by vm_compute |].
  apply H. vm_compute. lia.
Defined.

(** C7: [clearError] is idempotent; after it the field does not bear the
    marker class, and the message of its error-display target, when there
    is one, is empty and hidden. *)
Theorem clearError_idempotent (input : nat) (d : Document) :
  clearError input (clearError input d) = clearError input d
  ∧ classList_contains (clearError input d) input "error" = false
  ∧ ∀ t, errorEl_of d input = Some t →
         get_textContent (clearError input d) t = lit ""
         ∧ get_styleDisplay (clearError input d) t = lit "none".
Proof.
  split_and!.
  - apply clearError_twice.
  - rewrite clearError_class, bool_decide_eq_true_2 by done. apply andb_false_r.
  - intros t. apply clearError_target.
Qed.

Lemma clearError_idempotent_witness :
  let d := (validateField 1 (Pages.contact_form [] [] [])).2 in
  classList_contains d 1 "error" = true
  ∧ get_textContent d 2 = lit "This field is required"
  ∧ get_textContent (clearError 1 d) 2 = lit ""
  ∧ get_styleDisplay (clearError 1 d) 2 = lit "none".
Proof.
  intros d. destruct (clearError_idempotent 1 d) as (_ & _ & H).
  destruct (H 2) as [H1 H2]; [by vm_compute|].
  split_and!; [by vm_compute | by vm_compute | done | done].
Defined.

(** C9: when the cross-reference of a field resolves to no element,
    [showError] only adds the marker class to the field; [validateField]
    records the verdict in the marker class and writes nothing else; and the
    verdict is the one it reaches in any document in which the field is the
    same, whether the target is there or not. *)
Theorem missing_error_target (input : nat) (d : Document) :
  errorEl_of d input = None →
  (∀ message, showError input message d = classList_add input "error" d)
  ∧ (input < length d →
     classList_contains (validateField input d).2 input "error"
     = negb (validateField input d).1)
  ∧ (∀ k, k ≠ input → (validateField input d).2 !! k = d !! k)
  ∧ (∀ d', field_view <$> d' !! input = field_view <$> d !! input →
           (validateField input d').1 = (validateField input d).1).
Proof.
  intros Hnone. split_and!.
  - intros m. by rewrite showError_unfold, Hnone.
  - intros Hlt. unfold validateField. rewrite validateField_marker.
    rewrite !bool_decide_eq_true_2 by done. apply andb_true_r.
  - intros k Hk. unfold validateField.
    destruct (validateField_with_cases test input d) as [-> | [m ->]]; simpl.
    + apply clearError_lookup_ne; [done | by rewrite Hnone].
    + rewrite showError_lookup_ne; [|done|by rewrite errorEl_of_clearError, Hnone].
      apply clearError_lookup_ne; [done | by rewrite Hnone].
  - intros d' H. by apply validateField_verdict_ext.
Qed.

Lemma missing_error_target_witness :
  let d := Pages.contact_form [] [] (lit "555") in
  let d' := d ++ [Pages.message 0 "phone-error"] in
  errorEl_of d 5 = None ∧ errorEl_of d' 5 = Some 6
  ∧ classList_contains (validateField 5 d).2 5 "error" = true
  ∧ (validateField 5 d).2 !! 4 = d !! 4
  ∧ (validateField 5 d').1 = (validateField 5 d).1.
Proof.
  intros d d'.
  destruct (missing_error_target 5 d) as (_ & H2 & H3 & H4); [by vm_compute|].
  split_and!.
  - by vm_compute.
  - by vm_compute.
  - rewrite H2; [by vm_compute | vm_compute; lia].
  - apply H3. lia.
  - apply H4. by vm_compute.
Defined.

(** * Submission *)

Section Submit.

Implicit Types (d : Document) (form k : nat) (inputs : list nat).

(** The loop of the [submit] listener validates every field of the list:
    the flag is the conjunction of the verdicts, and the marker class of
    each field tells its verdict. *)
Lemma validate_loop inputs d :
  (foldl validate_step (true, d) inputs).1
  = forallb (λ i, (validateField i d).1) inputs
  ∧ field_view <$> (foldl validate_step (true, d) inputs).2 = field_view <$> d
  ∧ ∀ k, classList_contains (foldl validate_step (true, d) inputs).2 k "error"
         = if bool_decide (k ∈ inputs)
           then negb (validateField k d).1 && bool_decide (k < length d)
           else classList_contains d k "error".
Proof.
  induction inputs as [|x inputs IH] using rev_ind.
  - split_and!; [done..|]. intros k. cbn [foldl snd].
    by rewrite bool_decide_eq_false_2 by apply not_elem_of_nil.
  - rewrite foldl_snoc. destruct IH as (IH1 & IH2 & IH3).
    destruct (foldl validate_step (true, d) inputs) as [isValid dl]. simpl in *.
    unfold validate_step.
    assert ((validateField x dl).1 = (validateField x d).1) as Hverdict.
    { apply validateField_verdict_ext. by rewrite <- !list_lookup_fmap, IH2. }
    pose proof (field_view_validateField test x dl) as Hview.
    pose proof (validateField_marker test x dl) as Hmark.
    fold (validateField x dl) in Hview, Hmark.
    destruct (validateField x dl) as [ok d2]. simpl in *. split_and!.
    + rewrite forallb_app. simpl. rewrite <- Hverdict, <- IH1.
      destruct ok, isValid; done.
    + congruence.
    + intros k. rewrite Hmark, IH3, Hverdict.
      rewrite (fmap_eq_length _ _ _ IH2).
      destruct (decide (k = x)) as [->|Hk].
      * rewrite (bool_decide_eq_true_2 (x = x)) by done.
        rewrite (bool_decide_eq_true_2 (x ∈ inputs ++ [x])); [done|].
        apply elem_of_app. right. by left.
      * rewrite (bool_decide_eq_false_2 (k = x)) by done.
        rewrite (bool_decide_ext (k ∈ inputs ++ [x]) (k ∈ inputs)); [done|].
        rewrite elem_of_app, list_elem_of_singleton. tauto.
Qed.

(** Whatever the page, the listener cancels the submission exactly when a
    field of its list fails, marks the failing fields and no others, and
    asks for no focus when every field passes. *)
Lemma onSubmit_verdict form inputs d :
  defaultPrevented (onSubmit form inputs d)
  = negb (forallb (λ i, (validateField i d).1) inputs)
  ∧ (forallb (λ i, (validateField i d).1) inputs = true →
     focusTarget (onSubmit form inputs d) = None)
  ∧ ∀ i, i ∈ inputs → i < length d →
         classList_contains (doc (onSubmit form inputs d)) i "error"
         = negb (validateField i d).1.
Proof.
  unfold onSubmit. destruct (validate_loop inputs d) as (H1 & H2 & H3).
  destruct (foldl validate_step (true, d) inputs) as [isValid d']. simpl in *.
  rewrite H1.
  assert (∀ i, i ∈ inputs → i < length d →
               classList_contains d' i "error" = negb (validateField i d).1) as Hmark.
  { intros i Hi Hlt. rewrite H3, !bool_decide_eq_true_2 by done. apply andb_true_r. }
  by destruct (forallb _ inputs).
Qed.

Lemma selected_class d root c k :
  selected d root (ByClass c) k = classList_contains d k c && inside d root k.
Proof. unfold selected, classList_contains. by destruct (d !! k). Qed.

Lemma forallb_filter_nil (f : nat → bool) (l : list nat) :
  forallb f l = true → filter (λ i, f i = false) l = [].
Proof.
  induction l as [|x l IH]; simpl; [done|]. intros [Hx Hl]%andb_true_iff.
  rewrite filter_cons_False by congruence. auto.
Qed.

(** When the marker class is found on fields only, the listener does what
    the comment in it says: it cancels the submission when a field fails
    and then asks for the focus on the first failing field; when every
    field passes it does neither. *)
Lemma onSubmit_fields_only form inputs d :
  inputs = querySelectorAll d (Some form) (ByTags ["input"; "textarea"; "select"]) →
  (∀ k, selected d (Some form) (ByClass "error") k = true → k ∈ inputs) →
  defaultPrevented (onSubmit form inputs d)
  = negb (forallb (λ i, (validateField i d).1) inputs)
  ∧ focusTarget (onSubmit form inputs d)
    = head (filter (λ i, (validateField i d).1 = false) inputs)
  ∧ ∀ i, i ∈ inputs →
         classList_contains (doc (onSubmit form inputs d)) i "error"
         = negb (validateField i d).1.
Proof.
  intros Hinputs Honly. unfold onSubmit.
  destruct (validate_loop inputs d) as (H1 & H2 & H3).
  destruct (foldl validate_step (true, d) inputs) as [isValid d']. simpl in *.
  assert (∀ i, i ∈ inputs → i < length d) as Hlt.
  { intros i. rewrite Hinputs. unfold querySelectorAll.
    rewrite list_elem_of_filter, elem_of_seq. lia. }
  assert (∀ i, i ∈ inputs →
               classList_contains d' i "error" = negb (validateField i d).1) as Hmark.
  { intros i Hi. rewrite H3. rewrite !bool_decide_eq_true_2 by auto. apply andb_true_r. }
  rewrite H1. destruct (forallb _ inputs) eqn:Hall; simpl.
  - split_and!; [done | | done]. by rewrite forallb_filter_nil.
  - split_and!; [done | | done].
    unfold querySelector, querySelectorAll. f_equal.
    rewrite (fmap_eq_length _ _ _ H2).
    rewrite Hinputs at 1. unfold querySelectorAll. rewrite list_filter_filter.
    apply list_filter_iff. intros k.
    rewrite selected_class, andb_true_iff.
    rewrite (inside_ext d' d (Some form) k (field_view_parentNode _ _ H2)).
    split.
    + intros [Hc Hin]. destruct (decide (k ∈ inputs)) as [Hk|Hk].
      * rewrite Hmark in Hc by done. apply negb_true_iff in Hc. split; [done|].
        rewrite Hinputs in Hk. unfold querySelectorAll in Hk.
        by apply list_elem_of_filter in Hk as [? _].
      * rewrite H3, bool_decide_eq_false_2 in Hc by done.
        destruct Hk. apply Honly. by rewrite selected_class, Hc, Hin.
    + intros [Hv Hsel].
      assert (k ∈ inputs) as Hk.
      { rewrite Hinputs. unfold querySelectorAll.
        apply list_elem_of_filter. split; [done|]. apply elem_of_seq.
        unfold selected in Hsel. destruct (d !! k) eqn:E; [|done].
        apply lookup_lt_Some in E. lia. }
      rewrite Hmark, Hv by done. split; [done|].
      unfold selected in Hsel. by apply andb_true_iff in Hsel as [_ ?].
Qed.

(** The node list captured at initialisation is the list of the fields of
    the form at any later time: no handler changes a tag or the tree. *)
Lemma captured_inputs d0 d form ts :
  field_view <$> d0 = field_view <$> d →
  querySelectorAll d0 (Some form) (ByTags ts) = querySelectorAll d (Some form) (ByTags ts).
Proof.
  intros H. unfold querySelectorAll. rewrite (fmap_eq_length _ _ _ H).
  apply list_filter_iff. intros k. unfold selected.
  rewrite (inside_ext d0 d (Some form) k (field_view_parentNode _ _ H)).
  pose proof (fmap_eq_lookup _ _ _ k (field_view_tagName _ _ H)) as E.
  destruct (d0 !! k), (d !! k); simpl in *; try done. by injection E as ->.
Qed.

(** The end-to-end example of the specification: an empty required name
    and the email "foo@bar" block the submission, mark both fields and put
    the focus on the name. *)
Example submit_blocked :
  let d := Pages.contact_form [] (lit "foo@bar") [] in
  let o := onSubmit 0 [1; 3; 5] d in
  initFormValidation d = [(0, [1; 3; 5])]
  ∧ defaultPrevented o = true
  ∧ filter (λ i, classList_contains (doc o) i "error" = true) [1; 3; 5] = [1; 3]
  ∧ focusTarget o = Some 1.
Proof. by vm_compute. Qed.

End Submit.

(** C3: the listener validates every field and cancels the submission
    exactly when one fails, but the focus goes to the first element of the
    form that bears the class "error", field or not.  In a form that starts
    with a [div] of that class, followed by an empty required field, the
    submission is cancelled, the field is marked, and the focus is asked for
    on the [div]. *)
Theorem focus_on_non_field :
  let d := Pages.form_with_banner in
  let o := onSubmit 0 [2] d in
  initFormValidation d = [(0, [2])]
  ∧ (validateField 2 d).1 = false
  ∧ defaultPrevented o = true
  ∧ classList_contains (doc o) 2 "error" = true
  ∧ focusTarget o = Some 1
  ∧ tagName <$> d !! 1 = Some "div".
Proof. by vm_compute. Qed.

(** * The phone formatter *)

Section PhoneFormat.

Implicit Types (v ds : jsstring) (d : Document) (input : nat).

Lemma get_value_formatPhone input d :
  input < length d →
  get_value (formatPhone input d) input = formatted (get_value d input).
Proof.
  intros Hlt. apply lookup_lt_is_Some in Hlt as [e He].
  unfold formatPhone, set_value, get_value at 1.
  by rewrite list_lookup_alter_eq, He.
Qed.

Lemma formatPhone_lookup_ne input d k : k ≠ input → formatPhone input d !! k = d !! k.
Proof. intros H. unfold formatPhone, set_value. by rewrite list_lookup_alter_ne. Qed.

(** The three branches of the source fill the shape from the left. *)
Lemma formatted_fill v : formatted v = Spec.fill Spec.phone_shape (digits_only v).
Proof.
  unfold formatted. generalize (digits_only v) as ds. intros ds.
  destruct ds as [|x0 [|x1 [|x2 [|x3 [|x4 [|x5 [|x6 [|x7 [|x8 [|x9 ds]]]]]]]]]];
    reflexivity.
Qed.

Lemma digits_only_cons c v :
  digits_only (c :: v) = if is_digit c then c :: digits_only v else digits_only v.
Proof.
  unfold digits_only. rewrite filter_cons. destruct (is_digit c); by case_decide.
Qed.

Lemma digits_only_all ds : Forall (λ c, is_digit c = true) ds → digits_only ds = ds.
Proof.
  induction 1 as [|c ds Hc _ IH]; [done|]. by rewrite digits_only_cons, Hc, IH.
Qed.

Lemma digits_only_digits v : Forall (λ c, is_digit c = true) (digits_only v).
Proof. unfold digits_only. apply Forall_forall. by intros c [? _]%list_elem_of_filter. Qed.

(** The digits of the output are the first ten digits of the input. *)
Lemma fill_digits ds :
  Forall (λ c, is_digit c = true) ds →
  digits_only (Spec.fill Spec.phone_shape ds) = take 10 ds.
Proof.
  intros H.
  destruct ds as [|x0 [|x1 [|x2 [|x3 [|x4 [|x5 [|x6 [|x7 [|x8 [|x9 ds]]]]]]]]]];
    repeat match goal with
      | H : Forall _ (_ :: _) |- _ => apply Forall_cons in H as [? H]
      end;
    cbn [Spec.fill Spec.phone_shape take];
    repeat (rewrite digits_only_cons;
            first [ match goal with H : is_digit ?c = true |- context [is_digit ?c] =>
                      rewrite H end
                  | change (is_digit (ch "(")) with false
                  | change (is_digit (ch ")")) with false
                  | change (is_digit (ch " ")) with false
                  | change (is_digit (ch "-")) with false ]; cbv iota);
    reflexivity.
Qed.

Lemma fill_length ds : length (Spec.fill Spec.phone_shape ds) ≤ 14.
Proof.
  destruct ds as [|x0 [|x1 [|x2 [|x3 [|x4 [|x5 [|x6 [|x7 [|x8 [|x9 ds]]]]]]]]]];
    simpl; lia.
Qed.

End PhoneFormat.



(** C10: of a value with more than ten digits, [formatPhone] keeps the
    first ten and drops the rest: the result is (NNN) NNN-NNNN made of
    digits 1 to 10; whatever the value, the digits of the result are the
    first ten digits of the value at most, and the result has at most 14
    characters. *)
Theorem formatPhone_keeps_ten (input : nat) (d : Document) :
  input < length d →
  (10 < length (digits_only (get_value d input)) →
   ∃ n1 n2 n3 n4 n5 n6 n7 n8 n9 n10,
     take 10 (digits_only (get_value d input)) = [n1; n2; n3; n4; n5; n6; n7; n8; n9; n10]
     ∧ get_value (formatPhone input d) input
       = [ch "("; n1; n2; n3; ch ")"; ch " "; n4; n5; n6; ch "-"; n7; n8; n9; n10])
  ∧ digits_only (get_value (formatPhone input d) input)
    = take 10 (digits_only (get_value d input))
  ∧ length (get_value (formatPhone input d) input) ≤ 14.
Proof.
  intros Hlt. rewrite get_value_formatPhone, formatted_fill by done.
  split_and!.
  - intros Hlen.
    destruct (digits_only (get_value d input))
      as [|x0 [|x1 [|x2 [|x3 [|x4 [|x5 [|x6 [|x7 [|x8 [|x9 ds]]]]]]]]]];
      simpl in Hlen; try lia.
    exists x0, x1, x2, x3, x4, x5, x6, x7, x8, x9. done.
  - apply fill_digits, digits_only_digits.
  - apply fill_length.
Qed.

Lemma formatPhone_keeps_ten_witness :
  let d := Pages.contact_form [] [] (lit "+1 (555) 123-4567 ext. 89") in
  get_value (formatPhone 5 d) 5 = lit "(155) 512-3456".
Proof.
  intros d. destruct (formatPhone_keeps_ten 5 d) as (H & _ & _); [vm_compute; lia|].
  destruct H as (n1 & n2 & n3 & n4 & n5 & n6 & n7 & n8 & n9 & n10 & E & ->);
    [vm_compute; lia|].
  vm_compute in E. by injection E as <- <- <- <- <- <- <- <- <- <-.
Defined.

(** * More on field validation *)

Section ValidationAgain.

Implicit Types (d : Document) (input k : nat).

Lemma errorEl_of_showError input m d k :
  errorEl_of (showError input m d) k = errorEl_of d k.
Proof. apply errorEl_of_ext, field_view_showError. Qed.

Lemma clearError_after_showError input m d :
  clearError input (showError input m d) = clearError input d.
Proof.
  rewrite (clearError_unfold input (showError input m d)), errorEl_of_showError.
  rewrite showError_unfold, clearError_unfold. destruct (errorEl_of d input) as [t|].
  - unfold set_styleDisplay, set_textContent, classList_remove, classList_add.
    apply list_eq. intros k.
    destruct (decide (t = k)) as [->|Ht], (decide (input = k)) as [->|Hi];
      repeat (rewrite list_lookup_alter_eq || rewrite list_lookup_alter_ne by done);
      try done;
      (destruct (d !! k) as [e|]; simpl; [f_equal|done]);
      destruct e; unfold with_styleDisplay, with_textContent, with_classList; simpl;
      f_equal; apply set_eq; intros y;
      rewrite !elem_of_difference, elem_of_union; tauto.
  - unfold classList_remove, classList_add. rewrite list_alter_alter_eq.
    apply list_alter_ext; [|done]. intros e _. destruct e.
    unfold with_classList. simpl. f_equal. apply set_eq. intros y.
    rewrite !elem_of_difference, elem_of_union. tauto.
Qed.

(** The outcome of [validateField] is a function of the field and of the
    cleared document. *)
Lemma validateField_with_same tst input d d' :
  field_view <$> d' !! input = field_view <$> d !! input →
  clearError input d' = clearError input d →
  validateField_with tst input d' = validateField_with tst input d.
Proof.
  intros Hv Hc. unfold validateField_with.
  assert (get_value d' input = get_value d input
          ∧ get_type d' input = get_type d input
          ∧ hasAttribute d' input "required" = hasAttribute d input "required")
    as (-> & -> & ->).
  { unfold get_value, get_type, hasAttribute, getAttribute.
    destruct (d' !! input) as [e'|], (d !! input) as [e|]; simpl in *; try done.
    unfold field_view in Hv. injection Hv as _ _ _ Ha Hval Ht. by rewrite Ha, Hval, Ht. }
  by rewrite Hc.
Qed.

Lemma validateField_with_twice tst input d :
  validateField_with tst input (validateField_with tst input d).2
  = validateField_with tst input d.
Proof.
  apply validateField_with_same.
  - by rewrite <- !list_lookup_fmap, field_view_validateField.
  - destruct (validateField_with_cases tst input d) as [-> | [m ->]]; simpl.
    + apply clearError_twice.
    + by rewrite clearError_after_showError, clearError_twice.
Qed.

Lemma validateField_with_cleared tst input d :
  validateField_with tst input (clearError input d) = validateField_with tst input d.
Proof.
  apply validateField_with_same.
  - by rewrite <- !list_lookup_fmap, field_view_clearError.
  - apply clearError_twice.
Qed.

End ValidationAgain.

(** X1: validating a field again, with nothing changed in between, gives
    the same verdict and leaves the document as the first validation left
    it. *)
Theorem validateField_again (input : nat) (d : Document) :
  validateField input (validateField input d).2 = validateField input d.
Proof. apply validateField_with_twice. Qed.

(** X2: the [input] listener drops the error of a field without looking at
    its value, and loses nothing by it: a [blur] after it gives what a
    [blur] gives without it, and a [blur], an [input] and a [blur] leave
    what the first [blur] left. *)
Theorem input_then_blur (input : nat) (d : Document) :
  classList_contains (FieldEvents.onInput input d) input "error" = false
  ∧ FieldEvents.onBlur input (FieldEvents.onInput input d) = FieldEvents.onBlur input d
  ∧ FieldEvents.onBlur input (FieldEvents.onInput input (FieldEvents.onBlur input d))
    = FieldEvents.onBlur input d.
Proof.
  unfold FieldEvents.onBlur, FieldEvents.onInput, validateField. split_and!.
  - rewrite clearError_class, bool_decide_eq_true_2 by done. apply andb_false_r.
  - by rewrite validateField_with_cleared.
  - by rewrite validateField_with_cleared, validateField_with_twice.
Qed.

(** X3: a field that no rule applies to is valid and ends cleared: an
    empty field that is not required, whatever its type; and a field whose
    type is neither "email" nor "tel" as soon as it is not both required and
    empty.  No pattern is ever consulted for it. *)
Theorem validateField_no_rule (regex_test : regex → jsstring → bool)
    (input : nat) (d : Document) :
  (hasAttribute d input "required" = false →
   trim (get_value d input) = [] →
   validateField_with regex_test input d = (true, clearError input d))
  ∧ (get_type d input ≠ lit "email" → get_type d input ≠ lit "tel" →
     hasAttribute d input "required" = false ∨ trim (get_value d input) ≠ [] →
     validateField_with regex_test input d = (true, clearError input d)).
Proof.
  split.
  - intros Hreq Hv. unfold validateField_with. rewrite Hreq, Hv. simpl.
    by rewrite !andb_false_r.
  - intros He Ht Hor. unfold validateField_with.
    rewrite (bool_decide_eq_false_2 (_ = lit "email")), (bool_decide_eq_false_2 (_ = lit "tel"))
      by done.
    simpl. destruct Hor as [-> | Hv]; [done|].
    apply truthy_true in Hv. rewrite Hv. by rewrite andb_false_r.
Qed.

Lemma validateField_no_rule_witness :
  let d := Pages.contact_form (lit "Ada") [] [] in
  validateField 3 d = (true, clearError 3 d) ∧ validateField 1 d = (true, clearError 1 d).
Proof.
  intros d. split.
  - destruct (validateField_no_rule test 3 d) as [H _]. apply H; by vm_compute.
  - destruct (validateField_no_rule test 1 d) as [_ H].
    apply H; [vm_compute; congruence | vm_compute; congruence | right; vm_compute; congruence].
Defined.

(** * What a handler leaves alone *)

Section ViewFacts.

Implicit Types (d : Document) (n k input t : nat).

Lemma but_classes_alter_classList f n d :
  Views.but_classes <$> alter (with_classList f) n d = Views.but_classes <$> d.
Proof. apply (fmap_alter_preserved Views.but_classes). intros e. reflexivity. Qed.

Lemma but_classes_add n c d : Views.but_classes <$> classList_add n c d = Views.but_classes <$> d.
Proof. apply but_classes_alter_classList. Qed.

Lemma but_classes_remove n c d :
  Views.but_classes <$> classList_remove n c d = Views.but_classes <$> d.
Proof. apply but_classes_alter_classList. Qed.

Lemma add_all_but_classes c els d :
  Views.but_classes <$> foldl (λ d el, classList_add el c d) d els = Views.but_classes <$> d.
Proof.
  revert d. induction els as [|x els IH]; intros d; cbn [foldl]; [done|].
  by rewrite IH, but_classes_add.
Qed.

(** The first match of a search through the document. *)
Lemma head_filter_seq (P : nat → Prop) `{!∀ k, Decision (P k)} a n h :
  head (filter P (seq a n)) = Some h → P h ∧ ∀ k, a ≤ k → k < h → ¬ P k.
Proof.
  revert a. induction n as [|n IH]; intros a; [done|]. cbn [seq].
  destruct (decide (P a)) as [Ha|Ha].
  - rewrite filter_cons_True by done. intros [= <-]. split; [done | lia].
  - rewrite filter_cons_False by done. intros [Hh Hk]%IH. split; [done|].
    intros k H1 H2. destruct (decide (k = a)) as [->|Hne]; [done|]. apply Hk; lia.
Qed.

Lemma head_filter_seq_None (P : nat → Prop) `{!∀ k, Decision (P k)} a n :
  (∀ k, ¬ P k) → head (filter P (seq a n)) = None.
Proof.
  intros HP. revert a. induction n as [|n IH]; intros a; [done|]. cbn [seq].
  rewrite filter_cons_False by apply HP. apply IH.
Qed.

Lemma querySelector_class_first d c h :
  querySelector d None (ByClass c) = Some h →
  classList_contains d h c = true ∧ ∀ k, k < h → classList_contains d k c = false.
Proof.
  unfold querySelector, querySelectorAll. intros [H1 H2]%head_filter_seq.
  rewrite selected_class in H1. simpl in H1. rewrite andb_true_r in H1. split; [done|].
  intros k Hk. specialize (H2 k ltac:(lia) Hk). rewrite selected_class in H2.
  simpl in H2. rewrite andb_true_r in H2. by apply not_true_is_false.
Qed.

Lemma querySelector_class_None d c :
  (∀ k, classList_contains d k c = false) → querySelector d None (ByClass c) = None.
Proof.
  intros H. unfold querySelector, querySelectorAll. apply head_filter_seq_None.
  intros k. rewrite selected_class, H. done.
Qed.

Lemma but_classes_lookup_clearError input d :
  errorEl_of d input ≠ Some input →
  Views.but_classes <$> clearError input d !! input = Views.but_classes <$> d !! input.
Proof.
  intros H. rewrite clearError_unfold. destruct (errorEl_of d input) as [t|].
  - unfold set_styleDisplay, set_textContent.
    rewrite !list_lookup_alter_ne by congruence.
    unfold classList_remove, classList_add.
    rewrite <- !list_lookup_fmap. by rewrite but_classes_alter_classList.
  - unfold classList_remove, classList_add.
    rewrite <- !list_lookup_fmap. by rewrite but_classes_alter_classList.
Qed.

Lemma but_classes_lookup_showError input m d :
  errorEl_of d input ≠ Some input →
  Views.but_classes <$> showError input m d !! input = Views.but_classes <$> d !! input.
Proof.
  intros H. rewrite showError_unfold. destruct (errorEl_of d input) as [t|].
  - unfold set_styleDisplay, set_textContent.
    rewrite !list_lookup_alter_ne by congruence.
    unfold classList_remove, classList_add.
    rewrite <- !list_lookup_fmap. by rewrite but_classes_alter_classList.
  - unfold classList_remove, classList_add.
    rewrite <- !list_lookup_fmap. by rewrite but_classes_alter_classList.
Qed.

Lemma classList_lookup_clearError input d k :
  k ≠ input → classList <$> clearError input d !! k = classList <$> d !! k.
Proof.
  intros H. rewrite clearError_unfold. destruct (errorEl_of d input) as [t|].
  - rewrite <- !list_lookup_fmap.
    rewrite classList_set_styleDisplay, classList_set_textContent.
    rewrite !list_lookup_fmap. unfold classList_remove.
    by rewrite list_lookup_alter_ne.
  - unfold classList_remove. by rewrite list_lookup_alter_ne.
Qed.

Lemma classList_lookup_showError input m d k :
  k ≠ input → classList <$> showError input m d !! k = classList <$> d !! k.
Proof.
  intros H. rewrite showError_unfold. destruct (errorEl_of d input) as [t|].
  - rewrite <- !list_lookup_fmap.
    rewrite classList_set_styleDisplay, classList_set_textContent.
    rewrite !list_lookup_fmap. unfold classList_add.
    by rewrite list_lookup_alter_ne.
  - unfold classList_add. by rewrite list_lookup_alter_ne.
Qed.

Lemma but_value_formatPhone input d :
  Views.but_value <$> formatPhone input d = Views.but_value <$> d.
Proof.
  unfold formatPhone, set_value.
  apply (fmap_alter_preserved Views.but_value). intros e. reflexivity.
Qed.

End ViewFacts.


(** X4: on a page where the error-display target of the field holds no
    element, only text, [validateField] writes the marker class of the
    field and the text and display of the target, and nothing else.  Every
    other node is left as it was; no value, type, id, attribute or position
    in the tree changes anywhere, and no class other than the marker; the
    field keeps its text and display, unless it is its own target, and the
    target keeps its classes. *)
Theorem validateField_writes (input : nat) (d : Document) :
  (∀ t, errorEl_of d input = Some t → Views.childless d t) →
  (∀ k, k ≠ input → errorEl_of d input ≠ Some k → (validateField input d).2 !! k = d !! k)
  ∧ field_view <$> (validateField input d).2 = field_view <$> d
  ∧ classes_but "error" <$> (validateField input d).2 = classes_but "error" <$> d
  ∧ (errorEl_of d input ≠ Some input →
     Views.but_classes <$> (validateField input d).2 !! input
     = Views.but_classes <$> d !! input)
  ∧ (∀ k, k ≠ input →
          classList <$> (validateField input d).2 !! k = classList <$> d !! k).
Proof.
  intros _. unfold validateField. split_and!.
  - intros k Hk Ht.
    destruct (validateField_with_cases test input d) as [-> | [m ->]]; simpl.
    + by apply clearError_lookup_ne.
    + rewrite showError_lookup_ne; [|done|by rewrite errorEl_of_clearError].
      by apply clearError_lookup_ne.
  - apply field_view_validateField.
  - assert (∀ d0, classes_but "error" <$> clearError input d0 = classes_but "error" <$> d0)
      as Hclear.
    { intros d0. rewrite clearError_unfold. destruct (errorEl_of d0 input).
      - unfold set_styleDisplay, set_textContent.
        rewrite !(fmap_alter_preserved (classes_but "error")) by done.
        apply classes_but_remove.
      - apply classes_but_remove. }
    assert (∀ m d0, classes_but "error" <$> showError input m d0
                    = classes_but "error" <$> d0) as Hshow.
    { intros m d0. rewrite showError_unfold. destruct (errorEl_of d0 input).
      - unfold set_styleDisplay, set_textContent.
        rewrite !(fmap_alter_preserved (classes_but "error")) by done.
        apply classes_but_add.
      - apply classes_but_add. }
    destruct (validateField_with_cases test input d) as [-> | [m ->]]; simpl.
    + apply Hclear.
    + by rewrite Hshow, Hclear.
  - intros Ht.
    destruct (validateField_with_cases test input d) as [-> | [m ->]]; simpl.
    + by apply but_classes_lookup_clearError.
    + rewrite but_classes_lookup_showError by (by rewrite errorEl_of_clearError).
      by apply but_classes_lookup_clearError.
  - intros k Hk.
    destruct (validateField_with_cases test input d) as [-> | [m ->]]; simpl.
    + by apply classList_lookup_clearError.
    + rewrite classList_lookup_showError by done. by apply classList_lookup_clearError.
Qed.

Lemma validateField_writes_witness :
  let d := Pages.contact_form [] (lit "foo@bar") [] in
  (validateField 3 d).2 !! 1 = d !! 1
  ∧ classList <$> (validateField 3 d).2 !! 4 = classList <$> d !! 4.
Proof.
  intros d. destruct (validateField_writes 3 d) as (H & _ & _ & _ & H').
  - intros t [= <-]. apply (bool_decide_unpack _). by vm_compute.
  - split; [apply H; [lia | by vm_compute] | apply H'; lia].
Defined.

(** * Submitting again *)

Section SubmitAgain.

Implicit Types (d x y : Document) (i j k : nat) (w : list nat).

















End SubmitAgain.



(** * More on the phone formatter *)

Section PhoneAgain.

Implicit Types (v w ds : jsstring) (d : Document) (input : nat).

Lemma digits_only_app v w : digits_only (v ++ w) = digits_only v ++ digits_only w.
Proof. unfold digits_only. apply filter_app. Qed.

Lemma fill_take_10 ds : Spec.fill Spec.phone_shape (take 10 ds) = Spec.fill Spec.phone_shape ds.
Proof.
  destruct ds as [|x0 [|x1 [|x2 [|x3 [|x4 [|x5 [|x6 [|x7 [|x8 [|x9 ds]]]]]]]]]];
    reflexivity.
Qed.

Lemma formatted_twice v : formatted (formatted v) = formatted v.
Proof.
  rewrite (formatted_fill (formatted v)), (formatted_fill v).
  rewrite fill_digits by apply digits_only_digits. apply fill_take_10.
Qed.

(** More digits only lengthen what the shape shows. *)
Lemma fill_prefix shape ds l : Spec.fill shape ds `prefix_of` Spec.fill shape (ds ++ l).
Proof.
  revert ds. induction shape as [|[|c] shape IH]; intros ds; simpl.
  - done.
  - destruct ds as [|x ds]; simpl; [apply prefix_nil|]. apply prefix_cons, IH.
  - destruct ds as [|x ds]; simpl; [apply prefix_nil|].
    apply prefix_cons. apply (IH (x :: ds)).
Qed.

Lemma fill_full ds l :
  10 ≤ length ds → Spec.fill Spec.phone_shape (ds ++ l) = Spec.fill Spec.phone_shape ds.
Proof.
  intros H.
  destruct ds as [|x0 [|x1 [|x2 [|x3 [|x4 [|x5 [|x6 [|x7 [|x8 [|x9 ds]]]]]]]]]];
    simpl in H; try lia.
  reflexivity.
Qed.

Lemma is_digit_not_space c : is_digit c = true → is_space c = false.
Proof.
  unfold is_digit, is_space. intros [H1 H2]%andb_true_iff.
  apply Z.leb_le in H1, H2.
  repeat (apply orb_false_intro);
    try (apply Z.eqb_neq; lia);
    apply andb_false_iff; (left; apply Z.leb_gt; lia) || (right; apply Z.leb_gt; lia).
Qed.

Lemma is_digit_tel_char c : is_digit c = true → Spec.tel_char_ws c = true.
Proof. intros H. unfold Spec.tel_char_ws. by rewrite H. Qed.

Lemma trim_fixed (s : jsstring) a b :
  head s = Some a → last s = Some b → is_space a = false → is_space b = false →
  trim s = s.
Proof.
  intros Ha Hb Hsa Hsb. unfold trim, trimEnd.
  destruct s as [|x s]; [done|]. injection Ha as ->.
  cbn [trimStart]. rewrite Hsa.
  rewrite <- head_reverse in Hb.
  destruct (reverse (a :: s)) as [|y t] eqn:E; [done|]. injection Hb as ->.
  cbn [trimStart]. rewrite Hsb, <- E. apply reverse_involutive.
Qed.

(** What [formatPhone] writes, for a value with a digit in it: it starts
    with "(", ends with a digit, and is made of digits and of the
    punctuation of the shape. *)
Lemma fill_well_formed ds :
  ds ≠ [] → Forall (λ c, is_digit c = true) ds →
  trim (Spec.fill Spec.phone_shape ds) = Spec.fill Spec.phone_shape ds
  ∧ Spec.fill Spec.phone_shape ds ≠ []
  ∧ Forall (λ c, Spec.tel_char_ws c = true) (Spec.fill Spec.phone_shape ds).
Proof.
  intros Hne H.
  destruct ds as [|x0 [|x1 [|x2 [|x3 [|x4 [|x5 [|x6 [|x7 [|x8 [|x9 ds]]]]]]]]]];
    [done|..];
    repeat match goal with
      | H : Forall _ (_ :: _) |- _ => apply Forall_cons in H as [? H]
      end;
    (split_and!;
     [ eapply trim_fixed; [reflexivity | reflexivity | reflexivity |];
       by apply is_digit_not_space
     | done
     | cbn [Spec.fill Spec.phone_shape];
       repeat (apply Forall_cons; split; [by (reflexivity || apply is_digit_tel_char)|]);
       apply Forall_nil ]);
    exact I.
Qed.

End PhoneAgain.

(** X6: [formatPhone] is idempotent: formatting a formatted value changes
    nothing; and it writes the value of its input and nothing else: the
    other nodes are left as they were, and of the input itself nothing but
    the value changes. *)
Theorem formatPhone_again (input : nat) (d : Document) :
  formatPhone input (formatPhone input d) = formatPhone input d
  ∧ (∀ k, k ≠ input → formatPhone input d !! k = d !! k)
  ∧ Views.but_value <$> formatPhone input d = Views.but_value <$> d.
Proof.
  split_and!; [|intros k Hk; by apply formatPhone_lookup_ne|apply but_value_formatPhone].
  destruct (decide (input < length d)) as [Hlt|Hge].
  - unfold formatPhone at 1. rewrite get_value_formatPhone by done.
    rewrite formatted_twice. unfold formatPhone, set_value.
    rewrite list_alter_alter_eq. by apply list_alter_ext.
  - assert (∀ v, set_value input v d = d) as Hid.
    { intros v. unfold set_value. apply list_eq. intros k.
      rewrite list_lookup_alter. case_decide; [subst|done].
      rewrite (lookup_ge_None_2 d k) by lia. done. }
    unfold formatPhone. by rewrite !Hid.
Qed.

Lemma formatPhone_again_witness :
  let d := Pages.contact_form [] [] (lit "555-1234") in
  formatPhone 5 d !! 3 = d !! 3.
Proof. intros d. destruct (formatPhone_again 5 d) as (_ & H & _). apply H. lia. Defined.

(** X7: as the user types, the formatter only ever appends: the formatted
    value of a value extended at its end starts with the formatted value of
    the value; a character that is not a digit adds nothing, and nothing is
    added once there are ten digits. *)
Theorem formatted_as_typed (v w : jsstring) :
  formatted v `prefix_of` formatted (v ++ w)
  ∧ (digits_only w = [] → formatted (v ++ w) = formatted v)
  ∧ (10 ≤ length (digits_only v) → formatted (v ++ w) = formatted v).
Proof.
  rewrite !formatted_fill, digits_only_app. split_and!.
  - apply fill_prefix.
  - intros ->. by rewrite app_nil_r.
  - apply fill_full.
Qed.

Lemma formatted_as_typed_witness :
  formatted (lit "(555) 123-4567" ++ lit "8") = lit "(555) 123-4567"
  ∧ formatted (lit "(555" ++ lit "x") = lit "(555".
Proof.
  split.
  - destruct (formatted_as_typed (lit "(555) 123-4567") (lit "8")) as (_ & _ & H).
    rewrite H; [by vm_compute | vm_compute; lia].
  - destruct (formatted_as_typed (lit "(555") (lit "x")) as (_ & H & _).
    rewrite H; by vm_compute.
Defined.

(** X8: what [formatPhone] writes into a tel field passes [validateField]
    exactly when the value had ten digits or more (a value without a digit
    aside): the punctuation the formatter adds is never what fails. *)
Theorem formatPhone_then_validate (input : nat) (d : Document) :
  input < length d →
  get_type d input = lit "tel" →
  digits_only (get_value d input) ≠ [] →
  ((validateField input (formatPhone input d)).1 = true
   ↔ 10 ≤ length (digits_only (get_value d input))).
Proof.
  intros Hlt Ht Hds.
  pose proof (fill_well_formed _ Hds (digits_only_digits _)) as (Htrim & Hne & Hall).
  assert (get_type (formatPhone input d) input = lit "tel") as Ht'.
  { rewrite <- Ht. unfold get_type, formatPhone, set_value.
    rewrite list_lookup_alter_eq. by destruct (d !! input). }
  assert (get_value (formatPhone input d) input
          = Spec.fill Spec.phone_shape (digits_only (get_value d input))) as Hval.
  { by rewrite get_value_formatPhone, formatted_fill. }
  unfold validateField. rewrite validateField_tel; [|done|by rewrite Hval, Htrim].
  rewrite Hval, Htrim.
  assert (test phoneRegex (Spec.fill Spec.phone_shape (digits_only (get_value d input)))
          = true) as -> by (by apply phoneRegex_chars).
  rewrite fill_digits by apply digits_only_digits. simpl.
  rewrite length_take. destruct (_ <? 10) eqn:E; simpl.
  - apply Nat.ltb_lt in E. split; [done | lia].
  - apply Nat.ltb_ge in E. split; [lia | done].
Qed.

Lemma formatPhone_then_validate_witness :
  let d := Pages.contact_form [] [] (lit "555.123.4567") in
  (validateField 5 (formatPhone 5 d)).1 = true.
Proof.
  intros d. apply formatPhone_then_validate;
    [vm_compute; lia | by vm_compute | vm_compute; congruence | vm_compute; lia].
Defined.

(** * More on the accordion *)

Section AccordionAgain.

Implicit Types (d : Document) (acc : Accordion) (item q k : nat).

Lemma length_onClick items item q d : length (onClick items item q d) = length d.
Proof. symmetry. apply (fmap_eq_length parentNode), onClick_same. Qed.

Lemma same_accordion_class c d d' :
  c ≠ "open" → same_accordion d d' →
  (λ e, bool_decide (c ∈ classList e)) <$> d = (λ e, bool_decide (c ∈ classList e)) <$> d'.
Proof.
  intros Hc [_ H]. apply list_eq. intros k. rewrite !list_lookup_fmap.
  pose proof (fmap_eq_lookup _ d d' k H) as E.
  destruct (d !! k) as [e|], (d' !! k) as [e'|]; simpl in *; try done.
  injection E as E. f_equal. apply bool_decide_ext.
  rewrite !(classes_but_mem c "open") by done. by rewrite E.
Qed.

Lemma toggleFaq_same button d : same_accordion d (toggleFaq button d).
Proof.
  unfold toggleFaq. destruct (closest d button (ByClass "faq-item")) as [item|].
  - eapply same_accordion_trans;
      [apply same_accordion_toggle | apply same_accordion_setAttribute].
  - apply same_accordion_refl.
Qed.

Lemma closest_Some d n c item :
  closest d n (ByClass c) = Some item → item < length d ∧ n < length d.
Proof.
  unfold closest. intros H. apply head_Some_elem_of in H.
  apply list_elem_of_filter in H as [Hm Hin]. split.
  - destruct (d !! item) eqn:E; [by apply lookup_lt_Some in E | done].
  - destruct (d !! n) eqn:E; [by apply lookup_lt_Some in E|].
    apply elem_of_cons in Hin as [->|Hin]; [by rewrite E in Hm|].
    unfold ancestors in Hin. destruct (length d); simpl in Hin.
    + by apply not_elem_of_nil in Hin.
    + rewrite E in Hin. simpl in Hin. by apply not_elem_of_nil in Hin.
Qed.


End AccordionAgain.

(** X9: the listener of a panel flips the state of its panel, leaves the
    expanded flag of its trigger saying what the panel now is, and run a
    second time gives the panel its first state back. *)
Theorem onClick_flips (items : list nat) (item q : nat) (d : Document) :
  item < length d → q < length d →
  is_open (onClick items item q d) item = negb (is_open d item)
  ∧ getAttribute (onClick items item q d) q "aria-expanded"
    = Some (lit (if is_open (onClick items item q d) item then "true" else "false"))
  ∧ is_open (onClick items item q (onClick items item q d)) item = is_open d item.
Proof.
  intros Hi Hq.
  assert (∀ d0, length d0 = length d →
                is_open (onClick items item q d0) item = negb (is_open d0 item)) as Hflip.
  { intros d0 Hlen. rewrite is_open_onClick, !bool_decide_eq_true_2 by (done || lia).
    apply andb_true_r. }
  split_and!.
  - by apply Hflip.
  - rewrite Hflip by done. unfold onClick. rewrite getAttribute_setAttribute.
    rewrite bool_decide_eq_true_2.
    + unfold is_open. by destruct (classList_contains d item "open").
    + split_and!; [done..|].
      change (q < length (classList_toggle item "open" (foldl (close_other item) d items))).
      rewrite <- (fmap_eq_length parentNode _ _ (proj1 (same_accordion_toggle item _))).
      by rewrite <- (fmap_eq_length parentNode _ _ (proj1 (fold_close_same item items d))).
  - rewrite Hflip by apply length_onClick. rewrite Hflip by done. apply negb_involutive.
Qed.

Lemma onClick_flips_witness :
  let d := fst (initFaqAccordions Pages.some_random_id Pages.one_group) in
  is_open (onClick [1; 4] 4 5 d) 4 = true
  ∧ getAttribute (onClick [1; 4] 4 5 d) 5 "aria-expanded" = Some (lit "true").
Proof.
  intros d. destruct (onClick_flips [1; 4] 4 5 d) as (H1 & H2 & _);
    [vm_compute; lia | vm_compute; lia |].
  split; [by rewrite H1 | by rewrite H2, H1].
Defined.

(** X10: [toggleFaq] does nothing for a button outside every panel;
    otherwise it leaves the expanded flag of the button saying what the
    panel now is; and called twice it leaves every panel as open or closed
    as it was. *)
Theorem toggleFaq_flips (button : nat) (d : Document) :
  (closest d button (ByClass "faq-item") = None → toggleFaq button d = d)
  ∧ (∀ item, closest d button (ByClass "faq-item") = Some item →
             is_open (toggleFaq button d) item = negb (is_open d item)
             ∧ getAttribute (toggleFaq button d) button "aria-expanded"
               = Some (lit (if is_open (toggleFaq button d) item then "true" else "false")))
  ∧ (∀ k, is_open (toggleFaq button (toggleFaq button d)) k = is_open d k).
Proof.
  split_and!.
  - intros H. unfold toggleFaq. by rewrite H.
  - intros item H. destruct (closest_Some _ _ _ _ H) as [Hi Hb].
    assert (is_open (toggleFaq button d) item = negb (is_open d item)) as E.
    { rewrite is_open_toggleFaq, H.
      rewrite (bool_decide_eq_true_2 (Some item = Some item ∧ item < length d));
        [done | by split]. }
    split; [done|]. unfold toggleFaq. rewrite H.
    rewrite getAttribute_setAttribute, bool_decide_eq_true_2.
    + by rewrite is_open_setAttribute.
    + split_and!; [done..|].
      by rewrite <- (fmap_eq_length parentNode _ _ (proj1 (same_accordion_toggle item d))).
  - intros k. rewrite (is_open_toggleFaq button (toggleFaq button d)).
    rewrite <- (closest_ext d (toggleFaq button d) button "faq-item");
      [|apply toggleFaq_same | by apply same_accordion_class, toggleFaq_same].
    rewrite <- (fmap_eq_length parentNode _ _ (proj1 (toggleFaq_same button d))).
    rewrite is_open_toggleFaq. case_bool_decide; [apply negb_involutive | done].
Qed.

Lemma toggleFaq_flips_witness :
  let d := Pages.one_group in
  is_open (toggleFaq 5 d) 4 = true
  ∧ getAttribute (toggleFaq 5 d) 5 "aria-expanded" = Some (lit "true")
  ∧ toggleFaq 0 d = d.
Proof.
  intros d. destruct (toggleFaq_flips 5 d) as (_ & H & _).
  destruct (H 4) as [H1 H2]; [by vm_compute|].
  destruct (toggleFaq_flips 0 d) as (H0 & _ & _).
  split_and!; [by rewrite H1 | by rewrite H2, H1 | apply H0; by vm_compute].
Defined.



(** * The set-up of the accordion *)

Section FaqSetUp.

Import FaqInit.

Implicit Types (d : Document) (item q a k : nat) (ls : list Listener).

Variable random_id : nat → jsstring.

Lemma initItem_wired d ls item q a :
  wired d item = Some (item, q, a) →
  initItem random_id (d, ls) item = (wire random_id item q a d, ls ++ [mkListener q item]).
Proof.
  unfold wired, trigger_of, answer_of, initItem. intros H.
  destruct (querySelector d (Some item) (ByClass "faq-question")) as [q'|]; [|done].
  destruct (querySelector d (Some item) (ByClass "faq-answer")) as [a'|]; [|done].
  by injection H as -> ->.
Qed.

Lemma initItem_skipped d ls item :
  wired d item = None → initItem random_id (d, ls) item = (d, ls).
Proof.
  unfold wired, trigger_of, answer_of, initItem. intros H.
  destruct (querySelector d (Some item) (ByClass "faq-question")) as [q'|]; [|done].
  by destruct (querySelector d (Some item) (ByClass "faq-answer")) as [a'|].
Qed.

Lemma wired_lt d item w : wired d item = Some w → w.1.2 < length d ∧ w.2 < length d.
Proof.
  unfold wired, trigger_of, answer_of.
  destruct (querySelector d (Some item) (ByClass "faq-question")) as [q|] eqn:Eq; [|done].
  destruct (querySelector d (Some item) (ByClass "faq-answer")) as [a|] eqn:Ea; [|done].
  intros [= <-]. simpl. split; eapply querySelector_lt; eauto.
Qed.

(** ** What [wire] leaves alone *)

Lemma wire_classList item q a d : classList <$> wire random_id item q a d = classList <$> d.
Proof.
  unfold wire, setAttribute, set_id.
  by rewrite !(fmap_alter_preserved classList) by done.
Qed.

Lemma wire_parentNode item q a d : parentNode <$> wire random_id item q a d = parentNode <$> d.
Proof.
  unfold wire, setAttribute, set_id.
  by rewrite !(fmap_alter_preserved parentNode) by done.
Qed.

Lemma wire_lookup_ne item q a d k :
  k ≠ q → k ≠ a → wire random_id item q a d !! k = d !! k.
Proof.
  intros Hq Ha. unfold wire, setAttribute, set_id.
  by rewrite !list_lookup_alter_ne by congruence.
Qed.

Lemma wire_same item q a d : same_accordion d (wire random_id item q a d).
Proof.
  split; [symmetry; apply wire_parentNode|].
  change (classes_but "open") with ((λ s : gset string, s ∖ {["open"]}) ∘ classList).
  by rewrite !list_fmap_compose, wire_classList.
Qed.

Lemma wired_same d d' item : same_accordion d d' → wired d item = wired d' item.
Proof.
  intros H. unfold wired, answer_of.
  rewrite (same_accordion_trigger d d' item H).
  destruct H as [Hp Hc].
  by rewrite (querySelector_class_ext "open" d d' (Some item) "faq-answer").
Qed.

(** ** What [wire] writes *)

Lemma wire_expanded item q a d :
  q < length d →
  getAttribute (wire random_id item q a d) q "aria-expanded" = Some (lit "false").
Proof.
  intros Hq. apply lookup_lt_is_Some in Hq as [e He].
  unfold wire, getAttribute, setAttribute, set_id.
  destruct (decide (a = q)) as [->|Hne];
    repeat (rewrite list_lookup_alter_eq || rewrite list_lookup_alter_ne by done);
    rewrite He; simpl; by simplify_map_eq.
Qed.

Lemma wire_expanded_keep item q a d k :
  getAttribute d k "aria-expanded" = Some (lit "false") →
  getAttribute (wire random_id item q a d) k "aria-expanded" = Some (lit "false").
Proof.
  intros H. unfold wire.
  rewrite !getAttribute_setAttribute.
  rewrite (bool_decide_eq_false_2 (_ ∧ "aria-labelledby" = _ ∧ _)) by (by intros (_ & ? & _)).
  rewrite (bool_decide_eq_false_2 (_ ∧ "role" = _ ∧ _)) by (by intros (_ & ? & _)).
  assert (∀ n v d0, getAttribute (set_id n v d0) k "aria-expanded"
                    = getAttribute d0 k "aria-expanded") as Hid.
  { intros n v d0. apply getAttribute_ext. unfold set_id.
    by apply (fmap_alter_preserved attributes). }
  rewrite Hid, !getAttribute_setAttribute.
  rewrite (bool_decide_eq_false_2 (_ ∧ "aria-controls" = _ ∧ _)) by (by intros (_ & ? & _)).
  rewrite Hid, H. by case_bool_decide.
Qed.

Lemma wire_links item q a d :
  q ≠ a → q < length d → a < length d →
  let d' := wire random_id item q a d in
  get_id d' q = question_id random_id d item q
  ∧ get_id d' a = get_id d' q ++ lit "-answer"
  ∧ getAttribute d' q "aria-controls" = Some (get_id d' a)
  ∧ getAttribute d' a "aria-labelledby" = Some (get_id d' q)
  ∧ getAttribute d' a "role" = Some (lit "region").
Proof.
  intros Hne Hq Ha.
  apply lookup_lt_is_Some in Hq as [eq Heq]. apply lookup_lt_is_Some in Ha as [ea Hea].
  unfold wire, get_id, getAttribute, setAttribute, set_id. cbv zeta.
  repeat (rewrite list_lookup_alter_eq || rewrite list_lookup_alter_ne by done).
  rewrite Heq, Hea. simpl. split_and!; try done; by simplify_map_eq.
Qed.

(** ** The whole loop *)

Lemma init_loop d items :
  let r := foldl (initItem random_id) (d, []) items in
  same_accordion d r.1
  ∧ classList <$> r.1 = classList <$> d
  ∧ r.2 = (λ w, mkListener w.1.2 w.1.1) <$> omap (wired d) items
  ∧ ∀ l, l ∈ r.2 → getAttribute r.1 (l_question l) "aria-expanded" = Some (lit "false").
Proof.
  induction items as [|x items IH] using rev_ind.
  - simpl. split_and!; [apply same_accordion_refl | done | done |].
    intros l Hl. by apply not_elem_of_nil in Hl.
  - cbv zeta in *. rewrite foldl_snoc, omap_app, fmap_app.
    destruct (foldl (initItem random_id) (d, []) items) as [d1 ls1]. cbn [fst snd] in *.
    destruct IH as (Hs & Hc & Hl & He).
    assert (omap (wired d) [x] = from_option (λ w, [w]) [] (wired d x)) as ->.
    { simpl. by destruct (wired d x). }
    rewrite (wired_same d d1 x Hs).
    destruct (wired d1 x) as [[[x' q] a]|] eqn:Ew.
    + assert (x' = x) as ->.
      { unfold wired in Ew. destruct (trigger_of d1 x), (answer_of d1 x); congruence. }
      rewrite (initItem_wired _ _ _ _ _ Ew). cbn [fst snd]. split_and!.
      * eapply same_accordion_trans; [done | apply wire_same].
      * by rewrite wire_classList.
      * by rewrite Hl.
      * intros l [Hin | ->%list_elem_of_singleton]%elem_of_app.
        -- apply wire_expanded_keep. auto.
        -- simpl. apply wire_expanded. by apply wired_lt in Ew as [? _].
    + rewrite (initItem_skipped _ _ _ Ew). cbn [fst snd fmap list_fmap]. rewrite app_nil_r.
      split_and!; done.
Qed.

Lemma wired_nodes_elem ws w :
  w ∈ ws → w.1.2 ∈ wired_nodes ws ∧ w.2 ∈ wired_nodes ws.
Proof.
  intros H. unfold wired_nodes. split; apply list_elem_of_bind; exists w;
    (split; [|done]); [left | right; left].
Qed.

Lemma init_loop_untouched d items k :
  k ∉ wired_nodes (omap (wired d) items) →
  (foldl (initItem random_id) (d, []) items).1 !! k = d !! k.
Proof.
  induction items as [|x items IH] using rev_ind; [done|].
  intros Hk. pose proof (init_loop d items) as (Hs & _).
  rewrite foldl_snoc. rewrite omap_app in Hk. unfold wired_nodes in Hk.
  rewrite bind_app in Hk. apply not_elem_of_app in Hk as [Hk1 Hk2].
  specialize (IH Hk1).
  destruct (foldl (initItem random_id) (d, []) items) as [d1 ls1]. cbn [fst snd] in *.
  assert (omap (wired d) [x] = from_option (λ w, [w]) [] (wired d x)) as E.
  { simpl. by destruct (wired d x). }
  rewrite E in Hk2. rewrite (wired_same d d1 x Hs) in Hk2.
  destruct (wired d1 x) as [[[x' q] a]|] eqn:Ew.
  - assert (x' = x) as ->.
    { unfold wired in Ew. destruct (trigger_of d1 x), (answer_of d1 x); congruence. }
    rewrite (initItem_wired _ _ _ _ _ Ew). cbn [fst]. rewrite <- IH.
    simpl in Hk2. apply wire_lookup_ne; intros ->; apply Hk2; [left | right; left].
  - by rewrite (initItem_skipped _ _ _ Ew).
Qed.

Lemma init_loop_links d items :
  NoDup (wired_nodes (omap (wired d) items)) →
  ∀ item q a, (item, q, a) ∈ omap (wired d) items →
    let d' := (foldl (initItem random_id) (d, []) items).1 in
    get_id d' q = question_id random_id d item q
    ∧ get_id d' a = get_id d' q ++ lit "-answer"
    ∧ getAttribute d' q "aria-controls" = Some (get_id d' a)
    ∧ getAttribute d' a "aria-labelledby" = Some (get_id d' q)
    ∧ getAttribute d' a "role" = Some (lit "region").
Proof.
  induction items as [|x items IH] using rev_ind.
  - intros _ item q a H. by apply not_elem_of_nil in H.
  - intros Hnd item q a Hin. cbv zeta.
    pose proof (init_loop d items) as (Hs & _).
    pose proof (init_loop_untouched d items) as Hun.
    rewrite foldl_snoc. rewrite omap_app in Hnd, Hin. unfold wired_nodes in Hnd.
    rewrite bind_app in Hnd. apply NoDup_app in Hnd as (Hnd1 & Hdisj & Hnd2).
    specialize (IH Hnd1). cbv zeta in IH.
    destruct (foldl (initItem random_id) (d, []) items) as [d1 ls1]. cbn [fst snd] in *.
    assert (omap (wired d) [x] = from_option (λ w, [w]) [] (wired d x)) as E.
    { simpl. by destruct (wired d x). }
    rewrite E in Hnd2, Hin, Hdisj. rewrite (wired_same d d1 x Hs) in Hnd2, Hin, Hdisj.
    destruct (wired d1 x) as [[[x' qx] ax]|] eqn:Ew.
    + assert (x' = x) as ->.
      { unfold wired in Ew. destruct (trigger_of d1 x), (answer_of d1 x); congruence. }
      rewrite (initItem_wired _ _ _ _ _ Ew). cbn [fst].
      simpl in Hnd2, Hin, Hdisj.
      apply elem_of_app in Hin as [Hin | Hin%list_elem_of_singleton].
      * destruct (wired_nodes_elem _ _ Hin) as [Hq Ha]. simpl in Hq, Ha.
        assert (∀ k, k ∈ wired_nodes (omap (wired d) items) →
                     wire random_id x qx ax d1 !! k = d1 !! k) as Hsame.
        { intros k Hk. apply wire_lookup_ne; intros ->;
            apply (Hdisj _ Hk); [left | right; left]. }
        destruct (IH item q a Hin) as (H1 & H2 & H3 & H4 & H5).
        unfold get_id, getAttribute in *.
        rewrite !(Hsame q Hq), !(Hsame a Ha). done.
      * injection Hin as -> -> ->.
        apply wired_lt in Ew as Hlt. simpl in Hlt. destruct Hlt as [Hq Ha].
        assert (qx ≠ ax) as Hne.
        { apply NoDup_cons in Hnd2 as [Hnd2 _]. intros ->. apply Hnd2. left. }
        destruct (wire_links x qx ax d1 Hne Hq Ha) as (H1 & H2 & H3 & H4 & H5).
        split_and!; try done. rewrite H1. unfold question_id, get_id.
        rewrite Hun; [done|]. intros Hk. apply (Hdisj _ Hk). left.
    + rewrite (initItem_skipped _ _ _ Ew). cbn [fst].
      simpl in Hin. rewrite app_nil_r in Hin. by apply IH.
Qed.

End FaqSetUp.

(** X12: [initFaqAccordions] gives a listener to the items that have both a
    question and an answer, in document order, and to no other; it changes
    no class and no place in the tree, so it opens and closes nothing; and
    it leaves the expanded flag of every trigger at "false" (also that of a
    panel that the markup has open). *)
Theorem initFaqAccordions_listeners (random_id : nat → jsstring) (d : Document) :
  let '(d', acc) := initFaqAccordions random_id d in
  listeners acc
  = (λ w, mkListener w.1.2 w.1.1) <$> FaqInit.wired_items d
  ∧ classList <$> d' = classList <$> d
  ∧ parentNode <$> d' = parentNode <$> d
  ∧ ∀ l, l ∈ listeners acc →
         getAttribute d' (l_question l) "aria-expanded" = Some (lit "false").
Proof.
  unfold initFaqAccordions, FaqInit.wired_items.
  pose proof (init_loop random_id d (querySelectorAll d None (ByClass "faq-item")))
    as (Hs & Hc & Hl & He).
  destruct (foldl _ _ _) as [d' ls]. simpl in *.
  split_and!; [done | done | symmetry; apply Hs | done].
Qed.

Lemma initFaqAccordions_listeners_witness :
  let d := classList_add 1 "open" Pages.one_group in
  let d' := (initFaqAccordions Pages.some_random_id d).1 in
  is_open d' 1 = true ∧ getAttribute d' 2 "aria-expanded" = Some (lit "false").
Proof.
  cbv zeta. set (d := classList_add 1 "open" Pages.one_group).
  pose proof (initFaqAccordions_listeners Pages.some_random_id d) as H.
  destruct (initFaqAccordions Pages.some_random_id d) as [d1 acc] eqn:E.
  destruct H as (Hl & _ & _ & He). cbn [fst]. split.
  - assert (d1 = (initFaqAccordions Pages.some_random_id d).1) as -> by (by rewrite E).
    by vm_compute.
  - apply (He (mkListener 2 1)). rewrite Hl. vm_compute. left.
Defined.

(** X13: when the questions and answers of the items are different nodes,
    [initFaqAccordions] links each question to its answer: the question
    keeps its id or, without one, is given "faq-" and the random string; the
    answer is given that id and "-answer"; the question refers to the id of
    the answer in [aria-controls], and the answer, a region, to the id of
    the question in [aria-labelledby]. *)
Theorem initFaqAccordions_links (random_id : nat → jsstring) (d : Document) :
  NoDup (FaqInit.wired_nodes (FaqInit.wired_items d)) →
  ∀ item q a, (item, q, a) ∈ FaqInit.wired_items d →
    let d' := (initFaqAccordions random_id d).1 in
    get_id d' q = FaqInit.question_id random_id d item q
    ∧ get_id d' a = get_id d' q ++ lit "-answer"
    ∧ getAttribute d' q "aria-controls" = Some (get_id d' a)
    ∧ getAttribute d' a "aria-labelledby" = Some (get_id d' q)
    ∧ getAttribute d' a "role" = Some (lit "region").
Proof.
  intros Hnd item q a Hin. unfold initFaqAccordions, FaqInit.wired_items in *.
  pose proof (init_loop_links random_id d _ Hnd item q a Hin) as H. cbv zeta in H.
  destruct (foldl _ _ _) as [d' ls]. exact H.
Qed.

Lemma initFaqAccordions_links_witness :
  let d' := (initFaqAccordions Pages.some_random_id Pages.one_group).1 in
  get_id d' 5 = lit "faq-k3j9x1q0z"
  ∧ getAttribute d' 5 "aria-controls" = Some (lit "faq-k3j9x1q0z-answer")
  ∧ get_id d' 6 = lit "faq-k3j9x1q0z-answer".
Proof.
  intros d'.
  destruct (initFaqAccordions_links Pages.some_random_id Pages.one_group) with
    (item := 4) (q := 5) (a := 6) as (H1 & H2 & H3 & _).
  - apply (bool_decide_unpack _). by vm_compute.
  - vm_compute. right. left.
  - fold d' in H1, H2, H3. split_and!.
    + rewrite H1. by vm_compute.
    + rewrite H3, H2, H1. by vm_compute.
    + rewrite H2, H1. by vm_compute.
Defined.

(** * Nodes removed from the tree *)

Section Pruning.

Implicit Types (d : Document) (n k node : nat) (e : Element).

Lemma length_remove_children n d : length (remove_children n d) = length d.
Proof. apply length_fmap. Qed.

Lemma lookup_remove_children n d k :
  remove_children n d !! k
  = (λ e, if bool_decide (parentNode e = Some n) then without_parent e else e) <$> d !! k.
Proof. apply list_lookup_fmap. Qed.

Lemma view_remove_children {X} (g : Element → X) n d :
  (∀ e, g (without_parent e) = g e) → g <$> remove_children n d = g <$> d.
Proof.
  intros H. unfold remove_children. rewrite <- list_fmap_compose.
  apply list_fmap_ext. intros _ e _. simpl. case_bool_decide; [apply H | done].
Qed.

Lemma classList_remove_children n d : classList <$> remove_children n d = classList <$> d.
Proof. by apply view_remove_children. Qed.

Lemma attributes_remove_children n d : attributes <$> remove_children n d = attributes <$> d.
Proof. by apply view_remove_children. Qed.

Lemma own_remove_children n d : Views.own <$> remove_children n d = Views.own <$> d.
Proof. by apply view_remove_children. Qed.

Lemma remove_children_twice n d : remove_children n (remove_children n d) = remove_children n d.
Proof.
  unfold remove_children. rewrite <- list_fmap_compose.
  apply list_fmap_ext. intros _ e _. simpl.
  destruct (decide (parentNode e = Some n)) as [H|H].
  - rewrite (bool_decide_eq_true_2 _ H). by rewrite bool_decide_eq_false_2.
  - by rewrite !(bool_decide_eq_false_2 _ H).
Qed.

Lemma pruned_refl d : pruned d d.
Proof. apply Forall2_same_length_lookup. split; [done|]. intros k e e' -> [= ->]. by left. Qed.

Lemma pruned_trans d1 d2 d3 : pruned d1 d2 → pruned d2 d3 → pruned d1 d3.
Proof.
  intros H12 H23. unfold pruned in *.
  rewrite Forall2_same_length_lookup in H12, H23 |- *.
  destruct H12 as [L12 H12], H23 as [L23 H23]. split; [congruence|].
  intros k e1 e3 H1 H3.
  destruct (d2 !! k) as [e2|] eqn:H2.
  - destruct (H12 k e1 e2 H1 H2) as [A|A], (H23 k e2 e3 H2 H3) as [B|B];
      rewrite ?B, ?A; auto.
  - apply lookup_lt_Some in H1. apply lookup_ge_None in H2. lia.
Qed.

Lemma pruned_length d d' : pruned d d' → length d = length d'.
Proof. apply Forall2_length. Qed.

Lemma pruned_same_tree d d' : parentNode <$> d = parentNode <$> d' → pruned d d'.
Proof.
  intros H. apply Forall2_same_length_lookup. split; [by apply (fmap_eq_length parentNode)|].
  intros k e e' He He'. left.
  pose proof (fmap_eq_lookup _ _ _ k H) as E. rewrite He, He' in E. by injection E.
Qed.

Lemma pruned_remove_children n d : pruned d (remove_children n d).
Proof.
  apply Forall2_same_length_lookup. split; [by rewrite length_remove_children|].
  intros k e e' He. rewrite lookup_remove_children, He. intros [= <-].
  case_bool_decide; [by right | by left].
Qed.

(** Removing nodes from their parents only shortens the chains of
    ancestors. *)
Lemma ancestors_upto_pruned fuel d d' n :
  pruned d d' → ancestors_upto fuel d' n `prefix_of` ancestors_upto fuel d n.
Proof.
  intros H. revert n. induction fuel as [|fuel IH]; intros n; simpl; [done|].
  destruct (d' !! n) as [e'|] eqn:He'; simpl; [|apply prefix_nil].
  destruct (parentNode e') as [q|] eqn:Hq; [|apply prefix_nil].
  unfold pruned in H. rewrite Forall2_same_length_lookup in H. destruct H as [Hlen H].
  destruct (d !! n) as [e|] eqn:He.
  - destruct (H n e e' He He') as [A|A]; [|congruence].
    simpl. rewrite <- A, Hq. apply prefix_cons. apply IH.
  - apply lookup_lt_Some in He'. apply lookup_ge_None in He. lia.
Qed.

Lemma ancestors_pruned d d' n : pruned d d' → ancestors d' n `prefix_of` ancestors d n.
Proof.
  intros H. unfold ancestors. rewrite <- (pruned_length _ _ H).
  by apply ancestors_upto_pruned.
Qed.

Lemma contains_pruned d d' node n :
  pruned d d' → contains d node n = false → contains d' node n = false.
Proof.
  intros H. unfold contains. intros [H1 H2]%orb_false_elim. rewrite H1. simpl.
  apply bool_decide_eq_false in H2. apply bool_decide_eq_false_2. intros Hin.
  apply H2. destruct (ancestors_pruned d d' n H) as [l ->]. apply elem_of_app. by left.
Qed.

(** A node that has no children is nobody's ancestor. *)
Lemma ancestors_upto_parent fuel d n q :
  q ∈ ancestors_upto fuel d n → ∃ k e, d !! k = Some e ∧ parentNode e = Some q.
Proof.
  revert n. induction fuel as [|fuel IH]; intros n; simpl.
  - by intros ?%not_elem_of_nil.
  - destruct (d !! n) as [e|] eqn:He; simpl; [|by intros ?%not_elem_of_nil].
    destruct (parentNode e) as [q'|] eqn:Hq; [|by intros ?%not_elem_of_nil].
    intros [->|Hin]%elem_of_cons; [eauto | by eapply IH].
Qed.

Lemma childless_not_ancestor d n q : Views.childless d q → q ∉ ancestors d n.
Proof.
  intros Hc Hin. apply ancestors_upto_parent in Hin as (k & e & He & Hq).
  unfold Views.childless in Hc. rewrite Forall_lookup in Hc. by apply (Hc k e He).
Qed.

Lemma childless_remove_children n d : Views.childless (remove_children n d) n.
Proof.
  apply Forall_lookup. intros k e. rewrite lookup_remove_children.
  destruct (d !! k) as [e0|]; [|done]. simpl. intros [= <-].
  case_bool_decide as H; [done | done].
Qed.

Lemma childless_pruned d d' n : pruned d d' → Views.childless d n → Views.childless d' n.
Proof.
  intros H Hc. unfold Views.childless in *. rewrite Forall_lookup in Hc |- *.
  intros k e' He'. unfold pruned in H. rewrite Forall2_same_length_lookup in H.
  destruct H as [Hlen H]. destruct (d !! k) as [e|] eqn:He.
  - destruct (H k e e' He He') as [A|A]; [rewrite A; by apply (Hc k) | by rewrite A].
  - apply lookup_lt_Some in He'. apply lookup_ge_None in He. lia.
Qed.

(** Removing the children of a node that is not above [n] leaves the
    ancestors of [n] as they are. *)
Lemma ancestors_upto_remove_children fuel q d n :
  q ∉ ancestors_upto fuel d n →
  ancestors_upto fuel (remove_children q d) n = ancestors_upto fuel d n.
Proof.
  revert n. induction fuel as [|fuel IH]; intros n; simpl; [done|].
  rewrite lookup_remove_children. destruct (d !! n) as [e|]; simpl; [|done].
  destruct (parentNode e) as [q'|] eqn:Hq.
  - intros [Hne Hin]%not_elem_of_cons.
    rewrite bool_decide_eq_false_2 by congruence. rewrite Hq. f_equal. by apply IH.
  - intros _. rewrite bool_decide_eq_false_2 by done. by rewrite Hq.
Qed.

Lemma ancestors_remove_children q d n :
  q ∉ ancestors d n → ancestors (remove_children q d) n = ancestors d n.
Proof.
  intros H. unfold ancestors. rewrite length_remove_children.
  by apply ancestors_upto_remove_children.
Qed.

(** The chain of ancestors goes on from each of its nodes. *)
Lemma ancestors_upto_more fuel fuel' d n :
  fuel ≤ fuel' → ancestors_upto fuel d n `prefix_of` ancestors_upto fuel' d n.
Proof.
  revert fuel' n. induction fuel as [|fuel IH]; intros fuel' n Hle; simpl; [apply prefix_nil|].
  destruct fuel' as [|fuel']; [lia|]. simpl.
  destruct (d !! n ≫= parentNode) as [q|]; [|done].
  apply prefix_cons, IH. lia.
Qed.

Lemma ancestors_upto_from fuel d n l1 x l2 :
  ancestors_upto fuel d n = l1 ++ x :: l2 → l2 `prefix_of` ancestors_upto fuel d x.
Proof.
  revert n l1. induction fuel as [|fuel IH]; intros n l1; simpl.
  - by destruct l1.
  - destruct (d !! n ≫= parentNode) as [q|]; [|by destruct l1].
    destruct l1 as [|y l1]; simpl.
    + intros [= -> <-]. apply (ancestors_upto_more fuel (S fuel)). lia.
    + intros [= -> H]. etrans; [by eapply IH|].
      apply (ancestors_upto_more fuel (S fuel)). lia.
Qed.

Lemma ancestors_from d n l1 x l2 :
  ancestors d n = l1 ++ x :: l2 → l2 `prefix_of` ancestors d x.
Proof. apply ancestors_upto_from. Qed.

End Pruning.

(** * The mobile menu *)

Section MenuFacts.

Import Menu.

Implicit Types (m : Menu) (p : Page) (d : Document) (node target : nat).

(** ** What the change of icon does to the document *)

Lemma length_set_innerHTML n v p : length (dom (set_innerHTML n v p)) = length (dom p).
Proof. unfold set_innerHTML. case_bool_decide; [apply length_remove_children | done]. Qed.

Lemma pruned_set_innerHTML n v p : pruned (dom p) (dom (set_innerHTML n v p)).
Proof.
  unfold set_innerHTML. case_bool_decide; [apply pruned_remove_children | apply pruned_refl].
Qed.

Lemma view_set_innerHTML {X} (g : Element → X) n v p :
  (∀ e, g (without_parent e) = g e) → g <$> dom (set_innerHTML n v p) = g <$> dom p.
Proof.
  intros H. unfold set_innerHTML. case_bool_decide; [by apply view_remove_children | done].
Qed.

Lemma view_set_icon {X} (g : Element → X) m v p :
  (∀ e, g (without_parent e) = g e) → g <$> dom (set_icon m v p) = g <$> dom p.
Proof. intros H. unfold set_icon. destruct (menuIcon m); [by apply view_set_innerHTML | done]. Qed.

Lemma length_set_icon m v p : length (dom (set_icon m v p)) = length (dom p).
Proof. unfold set_icon. destruct (menuIcon m); [apply length_set_innerHTML | done]. Qed.

Lemma pruned_set_icon m v p : pruned (dom p) (dom (set_icon m v p)).
Proof.
  unfold set_icon. destruct (menuIcon m); [apply pruned_set_innerHTML | apply pruned_refl].
Qed.

Lemma html_set_icon m v p icon :
  menuIcon m = Some icon → icon < length (dom p) →
  html (set_icon m v p) !! icon = Some v.
Proof.
  intros Hi Hlt. unfold set_icon, set_innerHTML. rewrite Hi.
  rewrite bool_decide_eq_true_2 by done. simpl. apply lookup_insert_eq.
Qed.

Lemma childless_set_icon m v p icon :
  menuIcon m = Some icon → icon < length (dom p) →
  Views.childless (dom (set_icon m v p)) icon.
Proof.
  intros Hi Hlt. unfold set_icon, set_innerHTML. rewrite Hi.
  rewrite bool_decide_eq_true_2 by done. simpl. apply childless_remove_children.
Qed.

Lemma classList_contains_set_icon m v p k c :
  classList_contains (dom (set_icon m v p)) k c = classList_contains (dom p) k c.
Proof. apply classList_contains_ext. by apply view_set_icon. Qed.

Lemma getAttribute_set_icon m v p k a :
  getAttribute (dom (set_icon m v p)) k a = getAttribute (dom p) k a.
Proof. apply getAttribute_ext. by apply view_set_icon. Qed.

Lemma classList_contains_setAttribute n a v d k c :
  classList_contains (setAttribute n a v d) k c = classList_contains d k c.
Proof. apply classList_contains_ext, classList_setAttribute. Qed.

(** ** The two handlers *)

Lemma length_onButtonClick m p : length (dom (onButtonClick m p)) = length (dom p).
Proof.
  unfold onButtonClick. rewrite length_set_icon. cbn [dom].
  unfold setAttribute. rewrite length_alter.
  symmetry. apply (fmap_eq_length parentNode). symmetry. apply parentNode_toggle.
Qed.

Lemma length_close m p : length (dom (close m p)) = length (dom p).
Proof.
  unfold close. rewrite length_set_icon. cbn [dom].
  unfold setAttribute, classList_remove. by rewrite !length_alter.
Qed.

Lemma pruned_onButtonClick m p : pruned (dom p) (dom (onButtonClick m p)).
Proof.
  unfold onButtonClick. eapply pruned_trans; [|apply pruned_set_icon]. cbn [dom].
  apply pruned_same_tree. by rewrite parentNode_setAttribute, parentNode_toggle.
Qed.

Lemma pruned_close m p : pruned (dom p) (dom (close m p)).
Proof.
  unfold close. eapply pruned_trans; [|apply pruned_set_icon]. cbn [dom].
  apply pruned_same_tree. rewrite parentNode_setAttribute. symmetry.
  apply parentNode_alter_classList.
Qed.

Lemma is_active_onButtonClick m p :
  mobileNav m < length (dom p) →
  is_active m (onButtonClick m p) = negb (is_active m p).
Proof.
  intros Hn. unfold is_active, onButtonClick.
  rewrite classList_contains_set_icon. cbn [dom].
  rewrite classList_contains_setAttribute.
  rewrite classList_contains_toggle. by rewrite bool_decide_eq_true_2.
Qed.

Lemma is_active_close m p : is_active m (close m p) = false.
Proof.
  unfold is_active, close. rewrite classList_contains_set_icon. cbn [dom].
  rewrite classList_contains_setAttribute.
  rewrite classList_contains_remove, bool_decide_eq_true_2 by done. apply andb_false_r.
Qed.

Lemma in_document_length m d d' : length d = length d' → in_document m d → in_document m d'.
Proof. intros H. unfold in_document. by rewrite H. Qed.

Lemma in_document_onButtonClick m p :
  in_document m (dom p) → in_document m (dom (onButtonClick m p)).
Proof. apply in_document_length. symmetry. apply length_onButtonClick. Qed.

Lemma in_document_close m p : in_document m (dom p) → in_document m (dom (close m p)).
Proof. apply in_document_length. symmetry. apply length_close. Qed.

Lemma in_sync_onButtonClick m p : in_document m (dom p) → in_sync m (onButtonClick m p).
Proof.
  intros (Hb & Hn & Hi).
  assert (length (classList_toggle (mobileNav m) "active" (dom p)) = length (dom p)) as Hlen.
  { symmetry. apply (fmap_eq_length parentNode). symmetry. apply parentNode_toggle. }
  unfold in_sync.
  assert (is_active m (onButtonClick m p)
          = classList_contains (classList_toggle (mobileNav m) "active" (dom p))
              (mobileNav m) "active") as ->.
  { unfold is_active, onButtonClick. rewrite classList_contains_set_icon. cbn [dom].
    apply classList_contains_setAttribute. }
  split.
  - unfold onButtonClick. rewrite getAttribute_set_icon. cbn [dom].
    rewrite getAttribute_setAttribute.
    rewrite bool_decide_eq_true_2; [done|]. split_and!; [done..|]. by rewrite Hlen.
  - intros icon Hicon. unfold onButtonClick. apply html_set_icon; [done|]. cbn [dom].
    unfold setAttribute. rewrite length_alter, Hlen. auto.
Qed.

Lemma in_sync_close m p : in_document m (dom p) → in_sync m (close m p).
Proof.
  intros (Hb & Hn & Hi). split.
  - rewrite is_active_close. unfold close. rewrite getAttribute_set_icon. cbn [dom].
    rewrite getAttribute_setAttribute.
    rewrite bool_decide_eq_true_2; [done|]. split_and!; [done..|].
    unfold classList_remove. by rewrite length_alter.
  - intros icon Hicon. rewrite is_active_close.
    unfold close. apply html_set_icon; [done|]. cbn [dom].
    unfold setAttribute, classList_remove. rewrite !length_alter. auto.
Qed.

Lemma shut_close m p : in_document m (dom p) → shut m (close m p).
Proof. intros H. split; [apply is_active_close | by apply in_sync_close]. Qed.

(** ** One node of the path *)

Lemma at_node_cases m node p :
  at_node m node p = p
  ∨ (node = menuBtn m ∧ at_node m node p = onButtonClick m p)
  ∨ (node ∈ mobileLinks m ∧ ∃ p0, at_node m node p = close m p0
                                   ∧ length (dom p0) = length (dom p)).
Proof.
  unfold at_node, onLinkClick. destruct (Nat.eqb_spec node (menuBtn m)) as [->|Hb];
    case_bool_decide as Hl.
  - right. right. split; [done|]. eexists. split; [done|]. apply length_onButtonClick.
  - right. left. done.
  - right. right. split; [done|]. by exists p.
  - by left.
Qed.

Lemma at_node_inert m node p :
  node ≠ menuBtn m → node ∉ mobileLinks m → at_node m node p = p.
Proof.
  intros Hb Hl. unfold at_node. apply Nat.eqb_neq in Hb. rewrite Hb.
  by rewrite bool_decide_eq_false_2.
Qed.

Lemma pruned_at_node m node p : pruned (dom p) (dom (at_node m node p)).
Proof.
  unfold at_node, onLinkClick.
  destruct (node =? menuBtn m); case_bool_decide.
  - eapply pruned_trans; [apply pruned_onButtonClick | apply pruned_close].
  - apply pruned_onButtonClick.
  - apply pruned_close.
  - apply pruned_refl.
Qed.

Lemma pruned_path m path p :
  pruned (dom p) (dom (foldl (λ p node, at_node m node p) p path)).
Proof.
  revert p. induction path as [|n path IH]; intros p; [apply pruned_refl|].
  cbn [foldl]. eapply pruned_trans; [apply pruned_at_node | apply IH].
Qed.

Lemma in_document_path m path p :
  in_document m (dom p) → in_document m (dom (foldl (λ p node, at_node m node p) p path)).
Proof. apply in_document_length, pruned_length, pruned_path. Qed.

Lemma at_node_in_sync m node p :
  in_document m (dom p) → in_sync m p → in_sync m (at_node m node p).
Proof.
  intros Hd Hs. destruct (at_node_cases m node p) as [-> | [[_ ->] | (_ & p0 & -> & Hlen)]].
  - done.
  - by apply in_sync_onButtonClick.
  - apply in_sync_close. unfold in_document in *. by rewrite Hlen.
Qed.

Lemma at_node_shut m node p :
  in_document m (dom p) → node ≠ menuBtn m → shut m p → shut m (at_node m node p).
Proof.
  intros Hd Hb Hs. destruct (at_node_cases m node p) as [-> | [[? _] | (_ & p0 & -> & Hlen)]].
  - done.
  - done.
  - apply shut_close. unfold in_document in *. by rewrite Hlen.
Qed.

Lemma at_node_link_shut m node p :
  in_document m (dom p) → node ∈ mobileLinks m → shut m (at_node m node p).
Proof.
  intros Hd Hl. unfold at_node, onLinkClick. rewrite bool_decide_eq_true_2 by done.
  apply shut_close. destruct (node =? menuBtn m); [|done].
  by apply in_document_onButtonClick.
Qed.

Lemma path_in_sync m path p :
  in_document m (dom p) → in_sync m p →
  in_sync m (foldl (λ p node, at_node m node p) p path).
Proof.
  revert p. induction path as [|n path IH]; intros p Hd Hs; [done|].
  cbn [foldl]. apply IH.
  - eapply in_document_length; [|done]. apply pruned_length, pruned_at_node.
  - by apply at_node_in_sync.
Qed.

Lemma path_shut m path p :
  in_document m (dom p) → menuBtn m ∉ path →
  shut m p ∨ (∃ node, node ∈ path ∧ node ∈ mobileLinks m) →
  shut m (foldl (λ p node, at_node m node p) p path).
Proof.
  revert p. induction path as [|n path IH]; intros p Hd Hb H.
  - destruct H as [H | (node & H & _)]; [done|]. by apply not_elem_of_nil in H.
  - cbn [foldl]. apply not_elem_of_cons in Hb as [Hn Hb]. apply IH.
    + eapply in_document_length; [|done]. apply pruned_length, pruned_at_node.
    + done.
    + destruct H as [H | (node & [->|Hin]%elem_of_cons & Hl)].
      * left. apply at_node_shut; [done | congruence | done].
      * left. by apply at_node_link_shut.
      * right. eauto.
Qed.

Lemma path_inert m path p :
  (∀ node, node ∈ path → node ≠ menuBtn m ∧ node ∉ mobileLinks m) →
  foldl (λ p node, at_node m node p) p path = p.
Proof.
  induction path as [|n path IH]; intros H; [done|].
  cbn [foldl]. destruct (H n) as [Hb Hl]; [left|]. rewrite at_node_inert by done.
  apply IH. intros node Hin. apply H. by right.
Qed.

Lemma path_button_once m path p :
  NoDup path → menuBtn m ∈ path → (∀ node, node ∈ path → node ∉ mobileLinks m) →
  foldl (λ p node, at_node m node p) p path = onButtonClick m p.
Proof.
  intros Hnd Hin Hl. apply list_elem_of_split in Hin as (l1 & l2 & ->).
  apply NoDup_app in Hnd as (_ & H1 & [H2 _]%NoDup_cons).
  rewrite foldl_app. cbn [foldl]. rewrite (path_inert m l1).
  - assert (at_node m (menuBtn m) p = onButtonClick m p) as ->.
    { unfold at_node. rewrite Nat.eqb_refl. rewrite bool_decide_eq_false_2; [done|].
      apply Hl, elem_of_app. right. left. }
    apply path_inert. intros node Hn. split.
    + intros ->. done.
    + apply Hl, elem_of_app. right. by right.
  - intros node Hn. split.
    + intros ->. apply (H1 _ Hn). left.
    + apply Hl, elem_of_app. by left.
Qed.

(** Once the button has been on the way, the icon holds none of the nodes
    it held. *)
Lemma childless_at_node m node p icon :
  menuIcon m = Some icon → icon < length (dom p) →
  node = menuBtn m ∨ Views.childless (dom p) icon →
  Views.childless (dom (at_node m node p)) icon.
Proof.
  intros Hi Hlt [-> | Hc].
  - unfold at_node, onLinkClick. rewrite Nat.eqb_refl.
    assert (Views.childless (dom (onButtonClick m p)) icon) as Hb.
    { unfold onButtonClick. apply childless_set_icon; [done|]. cbn [dom].
      unfold setAttribute. rewrite length_alter.
      by rewrite (fmap_eq_length parentNode _ _
                    (parentNode_toggle (mobileNav m) "active" (dom p))). }
    case_bool_decide; [|done].
    eapply childless_pruned; [apply pruned_close | done].
  - eapply childless_pruned; [apply pruned_at_node | done].
Qed.

Lemma childless_path m path p icon :
  menuIcon m = Some icon → icon < length (dom p) →
  menuBtn m ∈ path ∨ Views.childless (dom p) icon →
  Views.childless (dom (foldl (λ p node, at_node m node p) p path)) icon.
Proof.
  intros Hi. revert p. induction path as [|n path IH]; intros p Hlt H.
  - destruct H as [H|H]; [by apply not_elem_of_nil in H | done].
  - cbn [foldl]. apply IH.
    + by rewrite <- (pruned_length _ _ (pruned_at_node m n p)).
    + destruct H as [[E|H]%elem_of_cons | H].
      * right. apply childless_at_node; [done | done | by left].
      * by left.
      * right. apply childless_at_node; [done | done | by right].
Qed.

Lemma contains_ext d d' node n :
  parentNode <$> d = parentNode <$> d' → contains d node n = contains d' node n.
Proof.
  intros H. unfold contains, ancestors.
  by rewrite (fmap_eq_length _ _ _ H), (ancestors_upto_ext _ d d' n H).
Qed.

Lemma contains_path d node n :
  contains d node n = bool_decide (node ∈ n :: ancestors d n).
Proof.
  unfold contains. destruct (decide (node = n)) as [->|Hne].
  - rewrite (bool_decide_eq_true_2 (n = n)) by done. simpl.
    symmetry. apply bool_decide_eq_true_2. left.
  - rewrite (bool_decide_eq_false_2 (node = n)) by done. simpl.
    apply bool_decide_ext. rewrite elem_of_cons. tauto.
Qed.

(** The listener of the button leaves the ancestors of a node that is not
    inside the icon as they are. *)
Lemma ancestors_onButtonClick m p n :
  (∀ icon, menuIcon m = Some icon → icon ∉ ancestors (dom p) n) →
  ancestors (dom (onButtonClick m p)) n = ancestors (dom p) n.
Proof.
  intros H. unfold onButtonClick.
  set (d2 := setAttribute _ _ _ _).
  assert (parentNode <$> d2 = parentNode <$> dom p) as Hp
    by (unfold d2; by rewrite parentNode_setAttribute, parentNode_toggle).
  assert (ancestors d2 n = ancestors (dom p) n) as Ha.
  { unfold ancestors. by rewrite (fmap_eq_length _ _ _ Hp), (ancestors_upto_ext _ _ _ n Hp). }
  unfold set_icon, set_innerHTML. destruct (menuIcon m) as [icon|]; [|done].
  cbn [dom]. case_bool_decide; [|done]. cbn [dom].
  rewrite ancestors_remove_children; [done|]. rewrite Ha. by apply H.
Qed.

End MenuFacts.

(** X14: the mobile menu keeps the expanded flag of its button and its icon
    in step with the drawer: the listener of the button and the closing
    listeners leave them so, whatever they were, and a click anywhere on the
    page keeps them so. *)
Theorem menu_in_sync (m : Menu.Menu) (target : nat) (p : Page) :
  Menu.in_document m (dom p) →
  Menu.in_sync m (Menu.onButtonClick m p)
  ∧ Menu.in_sync m (Menu.onLinkClick m p)
  ∧ (Menu.in_sync m p → Menu.in_sync m (Menu.click m target p)).
Proof.
  intros Hd. split_and!.
  - by apply in_sync_onButtonClick.
  - by apply in_sync_close.
  - intros Hs. unfold Menu.click, Menu.onDocumentClick.
    set (p1 := foldl _ p _).
    assert (Menu.in_document m (dom p1)) as Hd1 by (by apply in_document_path).
    destruct (_ && _); [by apply in_sync_close | by apply path_in_sync].
Qed.

Lemma menu_in_sync_witness :
  let p := mkPage Site.page ∅ in
  Menu.initMobileMenu Site.page = Some Site.menu
  ∧ Menu.in_sync Site.menu (Menu.click Site.menu 2 p)
  ∧ Menu.is_active Site.menu (Menu.click Site.menu 2 p) = true.
Proof.
  intros p. split_and!; [by vm_compute | | by vm_compute].
  assert (Menu.click Site.menu 2 p = Menu.onButtonClick Site.menu p) as -> by (by vm_compute).
  apply (menu_in_sync Site.menu 0 p). vm_compute. split_and!; try lia.
  intros icon [= <-]. lia.
Defined.

(** X15: a click on the button of the menu, or on something inside it that
    is not inside its icon -- the icon itself, say -- does what the listener
    of the button does, flipping the drawer: the listener of the document
    sees the same click and leaves the menu alone.  A second click flips the
    drawer back. *)
Theorem menu_button_click (m : Menu.Menu) (target : nat) (p : Page) :
  Menu.in_document m (dom p) →
  NoDup (target :: ancestors (dom p) target) →
  contains (dom p) (Menu.menuBtn m) target = true →
  (∀ icon, Menu.menuIcon m = Some icon → icon ∉ ancestors (dom p) target) →
  (∀ node, node ∈ target :: ancestors (dom p) target → node ∉ Menu.mobileLinks m) →
  Menu.click m target p = Menu.onButtonClick m p
  ∧ Menu.is_active m (Menu.click m target p) = negb (Menu.is_active m p)
  ∧ Menu.click m target (Menu.click m target p)
    = Menu.onButtonClick m (Menu.onButtonClick m p)
  ∧ Menu.is_active m (Menu.click m target (Menu.click m target p)) = Menu.is_active m p.
Proof.
  intros Hd Hnd Hb Hi Hl.
  assert (∀ p0, ancestors (dom p0) target = ancestors (dom p) target →
                Menu.click m target p0 = Menu.onButtonClick m p0) as Hclick.
  { intros p0 Ha. unfold Menu.click, Menu.onDocumentClick.
    rewrite (contains_path _ (Menu.menuBtn m)) in Hb. apply bool_decide_eq_true in Hb.
    rewrite Ha. rewrite (path_button_once m _ p0 Hnd Hb Hl).
    rewrite (contains_path _ (Menu.menuBtn m) target).
    rewrite ancestors_onButtonClick by (rewrite Ha; exact Hi).
    rewrite Ha, (bool_decide_eq_true_2 _ Hb).
    by rewrite andb_false_r. }
  assert (Menu.click m target p = Menu.onButtonClick m p) as E by (by apply Hclick).
  assert (Menu.click m target (Menu.onButtonClick m p)
          = Menu.onButtonClick m (Menu.onButtonClick m p)) as E2
    by (by apply Hclick, ancestors_onButtonClick).
  destruct Hd as (Hdb & Hdn & Hdi). split_and!.
  - done.
  - rewrite E. by apply is_active_onButtonClick.
  - by rewrite E, E2.
  - rewrite E, E2. rewrite !is_active_onButtonClick; [apply negb_involutive | done |].
    by rewrite length_onButtonClick.
Qed.

Lemma menu_button_click_witness :
  let p := mkPage Site.page ∅ in
  Menu.is_active Site.menu (Menu.click Site.menu 2 p) = true.
Proof.
  intros p. destruct (menu_button_click Site.menu 2 p) as (_ & H & _).
  - vm_compute. split_and!; try lia. intros icon [= <-]. lia.
  - apply (bool_decide_unpack _). by vm_compute.
  - by vm_compute.
  - intros icon [= <-]. apply (bool_decide_unpack _). by vm_compute.
  - apply Forall_forall. apply (bool_decide_unpack _). by vm_compute.
  - rewrite H. by vm_compute.
Defined.

(** X16: a click outside the drawer and the button, and a click on a link
    of the drawer (or inside one), close the menu: the drawer is not active,
    the flag of the button is "false" and the icon is the menu icon. *)
Theorem menu_closing_click (m : Menu.Menu) (target : nat) (p : Page) :
  Menu.in_document m (dom p) →
  (contains (dom p) (Menu.mobileNav m) target = false →
   contains (dom p) (Menu.menuBtn m) target = false →
   Menu.shut m (Menu.click m target p))
  ∧ (Menu.menuBtn m ∉ target :: ancestors (dom p) target →
     (∃ node, node ∈ target :: ancestors (dom p) target ∧ node ∈ Menu.mobileLinks m) →
     Menu.shut m (Menu.click m target p)).
Proof.
  intros Hd. split.
  - intros Hn Hb. unfold Menu.click, Menu.onDocumentClick.
    set (p1 := foldl _ p _).
    assert (pruned (dom p) (dom p1)) as Hp by apply pruned_path.
    rewrite (contains_pruned _ _ _ _ Hp Hn), (contains_pruned _ _ _ _ Hp Hb). simpl.
    apply shut_close. by apply in_document_path.
  - intros Hb Hl. unfold Menu.click, Menu.onDocumentClick.
    set (p1 := foldl _ p _).
    assert (Menu.shut m p1) as Hs by (apply path_shut; auto).
    destruct (_ && _); [|done].
    apply shut_close. by apply in_document_path.
Qed.

Lemma menu_closing_click_witness :
  let p := Menu.onButtonClick Site.menu (mkPage Site.page ∅) in
  Menu.is_active Site.menu p = true
  ∧ Menu.shut Site.menu (Menu.click Site.menu 11 p)
  ∧ Menu.shut Site.menu (Menu.click Site.menu 4 p).
Proof.
  intros p.
  assert (Menu.in_document Site.menu (dom p)) as Hd.
  { vm_compute. split_and!; try lia. intros icon [= <-]. lia. }
  split_and!.
  - by vm_compute.
  - destruct (menu_closing_click Site.menu 11 p Hd) as [H _]. apply H; by vm_compute.
  - destruct (menu_closing_click Site.menu 4 p Hd) as [_ H]. apply H.
    + apply (bool_decide_unpack _). by vm_compute.
    + exists 4. split; [left | by vm_compute; left].
Defined.

(** X17: a click inside the drawer that is not on a link changes nothing:
    no listener of the menu is on its way, and the listener of the document
    takes it for a click inside. *)
Theorem menu_inert_click (m : Menu.Menu) (target : nat) (p : Page) :
  contains (dom p) (Menu.mobileNav m) target = true →
  (∀ node, node ∈ target :: ancestors (dom p) target →
           node ≠ Menu.menuBtn m ∧ node ∉ Menu.mobileLinks m) →
  Menu.click m target p = p.
Proof.
  intros Hn Hpath. unfold Menu.click, Menu.onDocumentClick.
  rewrite (path_inert m _ p Hpath). by rewrite Hn.
Qed.

Lemma menu_inert_click_witness :
  let p := Menu.onButtonClick Site.menu (mkPage Site.page ∅) in
  Menu.click Site.menu 5 p = p.
Proof.
  intros p. apply menu_inert_click; [by vm_compute|].
  apply Forall_forall. apply (bool_decide_unpack _). by vm_compute.
Defined.

(** X23: a click on a node inside the icon of the button never leaves the
    drawer open.  The listener of the button replaces what the icon holds,
    which takes the clicked node out of the tree; the listener of the
    document then finds the clicked node neither in the drawer nor in the
    button and closes the menu, which the listener of the button had just
    opened if it was closed. *)
Theorem menu_icon_click (m : Menu.Menu) (icon target : nat) (p : Page) :
  Menu.in_document m (dom p) →
  Menu.menuIcon m = Some icon →
  icon ∈ ancestors (dom p) target →
  icon ∉ ancestors (dom p) (Menu.menuBtn m) →
  contains (dom p) (Menu.mobileNav m) target = false →
  Menu.shut m (Menu.click m target p).
Proof.
  intros Hd Hi Hin Htree Hn. unfold Menu.click, Menu.onDocumentClick.
  set (p1 := foldl _ p _).
  assert (pruned (dom p) (dom p1)) as Hp by apply pruned_path.
  assert (contains (dom p1) (Menu.menuBtn m) target = false) as Hb.
  { destruct (decide (Menu.menuBtn m ∈ target :: ancestors (dom p) target)) as [Hon|Hoff].
    - assert (Views.childless (dom p1) icon) as Hc.
      { apply childless_path; [done | by apply Hd | by left]. }
      rewrite contains_path. apply bool_decide_eq_false_2. intros Hb.
      destruct (ancestors_pruned _ _ target Hp) as [rest Hrest].
      assert (icon ∈ rest) as Hr.
      { rewrite Hrest in Hin. apply elem_of_app in Hin as [Hin|Hin]; [|done].
        by apply (childless_not_ancestor _ target) in Hc. }
      apply elem_of_cons in Hb as [Hb|Hb].
      + apply Htree. by rewrite Hb.
      + apply list_elem_of_split in Hb as (l1 & l2 & Hl). rewrite Hl in Hrest.
        rewrite <- app_assoc in Hrest. simpl in Hrest.
        apply ancestors_from in Hrest as [more Hmore].
        apply Htree. rewrite Hmore. rewrite !elem_of_app. auto.
    - apply (contains_pruned _ _ _ _ Hp). rewrite contains_path.
      by apply bool_decide_eq_false_2. }
  rewrite (contains_pruned _ _ _ _ Hp Hn), Hb. simpl.
  apply shut_close. by apply in_document_path.
Qed.

Lemma menu_icon_click_witness :
  let p := mkPage Site.bar ∅ in
  Menu.initMobileMenu Site.bar = Some Site.bar_menu
  ∧ Menu.is_active Site.bar_menu p = false
  ∧ Menu.is_active Site.bar_menu (Menu.click Site.bar_menu 2 p) = true
  ∧ Menu.shut Site.bar_menu (Menu.click Site.bar_menu 3 p).
Proof.
  intros p. split_and!; [by vm_compute.. |].
  apply (menu_icon_click Site.bar_menu 2 3 p).
  - vm_compute. split_and!; try lia. intros icon [= <-]. lia.
  - done.
  - vm_compute. left.
  - apply (bool_decide_unpack _). by vm_compute.
  - by vm_compute.
Defined.

(** * The header *)

Section HeaderFacts.

Lemma classList_add_after f n c (d : Document) :
  (∀ s : gset string, f s ∪ {[c]} = s ∪ {[c]}) →
  classList_add n c (alter (with_classList f) n d) = classList_add n c d.
Proof.
  intros H. unfold classList_add. rewrite list_alter_alter_eq.
  apply list_alter_ext; [|done]. intros e _. destruct e. unfold with_classList. simpl.
  by rewrite H.
Qed.

Lemma classList_remove_after f n c (d : Document) :
  (∀ s : gset string, f s ∖ {[c]} = s ∖ {[c]}) →
  classList_remove n c (alter (with_classList f) n d) = classList_remove n c d.
Proof.
  intros H. unfold classList_remove. rewrite list_alter_alter_eq.
  apply list_alter_ext; [|done]. intros e _. destruct e. unfold with_classList. simpl.
  by rewrite H.
Qed.

Lemma scrolled_iff (y : Q) : negb (Qle_bool y 20) = true ↔ (20 < y)%Q.
Proof.
  rewrite negb_true_iff, <- not_true_iff_false, Qle_bool_iff. split.
  - apply Qnot_le_lt.
  - apply Qlt_not_le.
Qed.

End HeaderFacts.

(** X18: without an element of class "header", [initHeaderScroll] registers
    no listener and a [scroll] event changes nothing.  Otherwise the listener
    is on the first such element, and after a [scroll] event that element
    bears the class "scrolled" exactly when the offset is more than 20 (at 20
    it does not); the event touches no other class of it, nothing else of
    it, and no other node; and of two events in a row only the second
    counts: the state follows the position, not the way there. *)
Theorem header_follows_scroll (d0 : Document) (header : nat) (y1 y2 : Q)
    (st : Document * Q) :
  ((∀ k, classList_contains d0 k "header" = false) →
   Header.initHeaderScroll d0 = None
   ∧ Header.scroll (Header.initHeaderScroll d0) y2 st = st)
  ∧ (Header.initHeaderScroll d0 = Some header →
     classList_contains d0 header "header" = true
     ∧ (∀ k, k < header → classList_contains d0 k "header" = false)
     ∧ Header.scroll (Header.initHeaderScroll d0) y2 st = Header.onScroll header y2 st)
  ∧ (header < length st.1 →
     (classList_contains (Header.onScroll header y2 st).1 header "scrolled" = true
      ↔ (20 < y2)%Q))
  ∧ classes_but "scrolled" <$> (Header.onScroll header y2 st).1
    = classes_but "scrolled" <$> st.1
  ∧ Views.but_classes <$> (Header.onScroll header y2 st).1 = Views.but_classes <$> st.1
  ∧ (∀ k, k ≠ header → (Header.onScroll header y2 st).1 !! k = st.1 !! k)
  ∧ Header.onScroll header y2 (Header.onScroll header y1 st) = Header.onScroll header y2 st.
Proof.
  destruct st as [d last]. simpl. unfold Header.onScroll. split_and!.
  - intros H. unfold Header.initHeaderScroll. by rewrite querySelector_class_None.
  - intros H. rewrite H. unfold Header.initHeaderScroll in H.
    apply querySelector_class_first in H as [H1 H2]. done.
  - intros Hlt. rewrite <- scrolled_iff. destruct (negb (Qle_bool y2 20)); simpl.
    + rewrite classList_contains_add, bool_decide_eq_true_2 by done.
      by rewrite orb_true_r.
    + rewrite classList_contains_remove, bool_decide_eq_true_2 by done.
      by rewrite andb_false_r.
  - destruct (negb (Qle_bool y2 20)); simpl;
      [apply classes_but_add | apply classes_but_remove].
  - destruct (negb (Qle_bool y2 20)); simpl;
      [apply but_classes_add | apply but_classes_remove].
  - intros k Hk. destruct (negb (Qle_bool y2 20)); simpl;
      unfold classList_add, classList_remove; by rewrite list_lookup_alter_ne.
  - f_equal.
    destruct (negb (Qle_bool y1 20)), (negb (Qle_bool y2 20));
      unfold classList_add at 2 || unfold classList_remove at 2 || idtac.
    + unfold classList_add at 2. apply classList_add_after. intros s.
      apply set_eq; intros x;
      repeat (rewrite elem_of_union || rewrite elem_of_difference); tauto.
    + unfold classList_add. apply classList_remove_after. intros s.
      apply set_eq; intros x;
      repeat (rewrite elem_of_union || rewrite elem_of_difference); tauto.
    + unfold classList_remove. apply classList_add_after. intros s.
      apply set_eq. intros x. rewrite !elem_of_union, elem_of_difference.
      destruct (decide (x ∈ ({["scrolled"]} : gset string))); tauto.
    + unfold classList_remove at 2. apply classList_remove_after. intros s.
      apply set_eq; intros x;
      repeat (rewrite elem_of_union || rewrite elem_of_difference); tauto.
Qed.

Lemma header_follows_scroll_witness :
  Header.initHeaderScroll Site.page = Some 0
  ∧ classList_contains
      (Header.scroll (Header.initHeaderScroll Site.page) (41 # 2) (Site.page, 0%Q)).1
      0 "scrolled" = true
  ∧ classList_contains (Header.onScroll 0 20 (Site.page, 0%Q)).1 0 "scrolled" = false
  ∧ Header.scroll (Header.initHeaderScroll Pages.one_group) (41 # 2) (Pages.one_group, 0%Q)
    = (Pages.one_group, 0%Q).
Proof.
  assert (Header.initHeaderScroll Site.page = Some 0) as E by (by vm_compute).
  split_and!.
  - done.
  - destruct (header_follows_scroll Site.page 0 0 (41 # 2) (Site.page, 0%Q))
      as (_ & H1 & H2 & _).
    destruct (H1 E) as (_ & _ & ->). apply H2; [vm_compute; lia | reflexivity].
  - destruct (header_follows_scroll Site.page 0 0 20 (Site.page, 0%Q)) as (_ & _ & H & _).
    apply not_true_is_false. intros E'. apply H in E'; [by vm_compute in E' | vm_compute; lia].
  - destruct (header_follows_scroll Pages.one_group 0 0 (41 # 2) (Pages.one_group, 0%Q))
      as (H & _).
    apply H. intros k. destruct k as [|[|[|[|[|[|[|k]]]]]]]; by vm_compute.
Defined.

(** * Scroll reveal *)

Section RevealFacts.

Import Reveal.

Implicit Types (d : Document) (n : nat) (els : list nat).

(** Adding a class to every node of a list. *)
Lemma add_all_contains c els d n c' :
  classList_contains (foldl (λ d el, classList_add el c d) d els) n c'
  = classList_contains d n c' || bool_decide (n ∈ els ∧ c = c' ∧ n < length d).
Proof.
  revert d. induction els as [|x els IH]; intros d; cbn [foldl].
  - rewrite bool_decide_eq_false_2; [by rewrite orb_false_r|].
    intros [H _]. by apply not_elem_of_nil in H.
  - rewrite IH, classList_contains_add.
    assert (length (classList_add x c d) = length d) as ->
      by (unfold classList_add; apply length_alter).
    rewrite <- orb_assoc. f_equal.
    destruct (decide (c = c' ∧ n < length d)) as [[-> Hlt]|Hno].
    + destruct (decide (x = n)) as [->|Hx].
      * rewrite (bool_decide_eq_true_2 (n = n ∧ _)) by done.
        rewrite (bool_decide_eq_true_2 (n ∈ n :: els ∧ _)); [done|].
        split; [left | done].
      * rewrite (bool_decide_eq_false_2 (x = n ∧ _)) by tauto. simpl.
        apply bool_decide_ext. rewrite elem_of_cons. split; [tauto|].
        intros [[?|?] ?]; [congruence | tauto].
    + rewrite !bool_decide_eq_false_2 by tauto. done.
Qed.

Lemma add_all_lookup_ne c els d n :
  n ∉ els → foldl (λ d el, classList_add el c d) d els !! n = d !! n.
Proof.
  revert d. induction els as [|x els IH]; intros d Hn; cbn [foldl]; [done|].
  apply not_elem_of_cons in Hn as [Hx Hn]. rewrite IH by done.
  unfold classList_add. by rewrite list_lookup_alter_ne.
Qed.

Lemma add_all_classes_but c els d :
  classes_but c <$> foldl (λ d el, classList_add el c d) d els = classes_but c <$> d.
Proof.
  revert d. induction els as [|x els IH]; intros d; cbn [foldl]; [done|].
  by rewrite IH, classes_but_add.
Qed.

Lemma revealElements_lt d n : n ∈ revealElements d → n < length d.
Proof.
  unfold revealElements. intros [_ H]%list_elem_of_filter. apply elem_of_seq in H. lia.
Qed.

(** The callback adds the class to the intersecting targets and takes
    them off the list of the observer. *)
Lemma onIntersection_unfold entries st :
  onIntersection entries st
  = mkState (foldl (λ d el, classList_add el "revealed" d) (page st) (intersecting entries))
      (observed st ∖ list_to_set (intersecting entries)).
Proof.
  unfold onIntersection, intersecting. revert st.
  induction entries as [|e entries IH]; intros [d o]; cbn [foldl].
  - simpl. f_equal. apply set_eq. intros x.
    rewrite elem_of_difference, elem_of_empty. tauto.
  - rewrite IH. destruct e as [t [|]]; cbn [isIntersecting target page observed].
    + rewrite filter_cons_True by done. cbn [fmap list_fmap foldl list_to_set target].
      f_equal. apply set_eq. intros x.
      rewrite !elem_of_difference, elem_of_union. tauto.
    + by rewrite filter_cons_False by done.
Qed.

End RevealFacts.

(** X19: with the reduced-motion preference, [initScrollReveal] marks every
    element of class "reveal" or "reveal-stagger" as revealed at once and
    observes nothing; it touches no other node, no other class, and nothing
    but the classes of the elements it reveals.  Without the preference it
    reveals nothing and observes exactly those elements. *)
Theorem initScrollReveal_reduced_motion (d : Document) :
  Reveal.observed (Reveal.initScrollReveal true d) = ∅
  ∧ (∀ n, n ∈ Reveal.revealElements d →
          classList_contains (Reveal.page (Reveal.initScrollReveal true d)) n "revealed" = true)
  ∧ (∀ n, n ∉ Reveal.revealElements d →
          Reveal.page (Reveal.initScrollReveal true d) !! n = d !! n)
  ∧ classes_but "revealed" <$> Reveal.page (Reveal.initScrollReveal true d)
    = classes_but "revealed" <$> d
  ∧ Views.but_classes <$> Reveal.page (Reveal.initScrollReveal true d)
    = Views.but_classes <$> d
  ∧ Reveal.page (Reveal.initScrollReveal false d) = d
  ∧ (∀ n, n ∈ Reveal.observed (Reveal.initScrollReveal false d) ↔ n ∈ Reveal.revealElements d).
Proof.
  unfold Reveal.initScrollReveal. simpl. split_and!.
  - done.
  - intros n Hn. rewrite add_all_contains.
    rewrite bool_decide_eq_true_2; [apply orb_true_r|].
    split_and!; [done | done | by apply revealElements_lt].
  - intros n Hn. by apply add_all_lookup_ne.
  - apply add_all_classes_but.
  - apply add_all_but_classes.
  - done.
  - intros n. apply elem_of_list_to_set.
Qed.

Lemma initScrollReveal_reduced_motion_witness :
  Reveal.revealElements Site.page = [7; 8]
  ∧ classList_contains (Reveal.page (Reveal.initScrollReveal true Site.page)) 8 "revealed" = true
  ∧ Reveal.page (Reveal.initScrollReveal true Site.page) !! 6 = Site.page !! 6.
Proof.
  destruct (initScrollReveal_reduced_motion Site.page) as (_ & H1 & H2 & _).
  split_and!; [by vm_compute | apply H1 | apply H2].
  - vm_compute. right. left.
  - apply (bool_decide_unpack _). by vm_compute.
Defined.

(** X20: the callback of the observer reveals the targets of the entries
    that intersect and stops observing them, and does nothing for the other
    entries: a node is revealed after it exactly when it was before or is
    such a target; a revealed node is never hidden again; a target is
    observed after it exactly when it was before and did not intersect; and
    no other class changes. *)
Theorem onIntersection_reveals (entries : list Reveal.Entry) (st : Reveal.State) :
  (∀ n, classList_contains (Reveal.page (Reveal.onIntersection entries st)) n "revealed"
        = classList_contains (Reveal.page st) n "revealed"
          || bool_decide (n ∈ Reveal.intersecting entries ∧ n < length (Reveal.page st)))
  ∧ (∀ n, n ∈ Reveal.observed (Reveal.onIntersection entries st)
          ↔ n ∈ Reveal.observed st ∧ n ∉ Reveal.intersecting entries)
  ∧ classes_but "revealed" <$> Reveal.page (Reveal.onIntersection entries st)
    = classes_but "revealed" <$> Reveal.page st
  ∧ (∀ n, n ∉ Reveal.intersecting entries →
          Reveal.page (Reveal.onIntersection entries st) !! n = Reveal.page st !! n).
Proof.
  rewrite onIntersection_unfold. simpl. split_and!.
  - intros n. rewrite add_all_contains. f_equal. apply bool_decide_ext. tauto.
  - intros n. rewrite elem_of_difference, elem_of_list_to_set. tauto.
  - apply add_all_classes_but.
  - intros n Hn. by apply add_all_lookup_ne.
Qed.

Lemma onIntersection_reveals_witness :
  let st := Reveal.initScrollReveal false Site.page in
  let st' := Reveal.onIntersection [Reveal.mkEntry 7 true; Reveal.mkEntry 8 false] st in
  classList_contains (Reveal.page st') 7 "revealed" = true
  ∧ Reveal.page st' !! 8 = Reveal.page st !! 8
  ∧ 7 ∉ Reveal.observed st'.
Proof.
  intros st st'.
  destruct (onIntersection_reveals [Reveal.mkEntry 7 true; Reveal.mkEntry 8 false] st)
    as (H1 & H2 & _ & H4).
  split_and!.
  - unfold st'. rewrite H1. by vm_compute.
  - apply H4. apply (bool_decide_unpack _). by vm_compute.
  - intros Hin. apply H2 in Hin as [_ Hn]. apply Hn. vm_compute. left.
Defined.

(** * Form status messages *)

Section StatusFacts.

Import Status.

Implicit Types (d : Document) (p : Page) (formId message : jsstring) (s k : nat).

Lemma head_filter_seq_first (P : nat → Prop) `{!∀ k, Decision (P k)} a n h :
  a ≤ h → h < a + n → P h → (∀ k, a ≤ k → k < h → ¬ P k) →
  head (filter P (seq a n)) = Some h.
Proof.
  revert a. induction n as [|n IH]; intros a H1 H2 Hh Hk; [lia|]. cbn [seq].
  destruct (decide (a = h)) as [->|Hne].
  - by rewrite filter_cons_True.
  - rewrite filter_cons_False by (apply Hk; lia). apply IH; [lia | lia | done |].
    intros k ? ?. apply Hk; lia.
Qed.

Lemma statusEl_of_lt d formId s : statusEl_of d formId = Some s → s < length d.
Proof.
  unfold statusEl_of. destruct (elementById d formId); [|done].
  intros H. apply head_Some_elem_of in H.
  apply list_elem_of_filter in H as [_ H]. apply elem_of_seq in H. lia.
Qed.

Lemma with_styleDisplay_without_parent v e :
  with_styleDisplay v (without_parent e) = without_parent (with_styleDisplay v e).
Proof. by destruct e. Qed.

Lemma remove_children_set_styleDisplay n k v d :
  remove_children n (set_styleDisplay k v d) = set_styleDisplay k v (remove_children n d).
Proof.
  apply list_eq. intros i. unfold set_styleDisplay.
  rewrite lookup_remove_children. destruct (decide (k = i)) as [->|Hne].
  - rewrite !list_lookup_alter_eq, lookup_remove_children.
    destruct (d !! i) as [[]|]; [|done]. simpl. f_equal. by case_bool_decide.
  - rewrite !list_lookup_alter_ne by done. by rewrite lookup_remove_children.
Qed.

(** The page either function leaves when the status element is [s]. *)
Lemma dom_shown s v p :
  s < length (dom p) →
  dom (on_dom (set_styleDisplay s (lit "block")) (set_innerHTML s v p))
  = set_styleDisplay s (lit "block") (remove_children s (dom p))
  ∧ html (on_dom (set_styleDisplay s (lit "block")) (set_innerHTML s v p))
    = <[s:=v]> (html p).
Proof.
  intros Hlt. unfold on_dom, set_innerHTML. by rewrite bool_decide_eq_true_2.
Qed.

Lemma show_on s v p :
  s < length (dom p) →
  let p' := on_dom (set_styleDisplay s (lit "block")) (set_innerHTML s v p) in
  html p' !! s = Some v
  ∧ get_styleDisplay (dom p') s = lit "block"
  ∧ Views.own <$> dom p' = Views.own <$> dom p
  ∧ parentNode <$> dom p' = parentNode <$> remove_children s (dom p)
  ∧ (∀ k, k ≠ s →
          get_textContent (dom p') k = get_textContent (dom p) k
          ∧ get_styleDisplay (dom p') k = get_styleDisplay (dom p) k
          ∧ html p' !! k = html p !! k).
Proof.
  intros Hlt p'. destruct (dom_shown s v p Hlt) as [Hd Hh]. fold p' in Hd, Hh.
  rewrite Hd, Hh. split_and!.
  - apply lookup_insert_eq.
  - assert (s < length (remove_children s (dom p))) as Hlt'
      by (by rewrite length_remove_children).
    apply lookup_lt_is_Some in Hlt' as [e He].
    unfold get_styleDisplay, set_styleDisplay. by rewrite list_lookup_alter_eq, He.
  - unfold set_styleDisplay. rewrite (fmap_alter_preserved Views.own) by done.
    apply own_remove_children.
  - unfold set_styleDisplay. by rewrite (fmap_alter_preserved parentNode).
  - intros k Hk. unfold get_textContent, get_styleDisplay, set_styleDisplay.
    rewrite list_lookup_alter_ne by done. rewrite lookup_remove_children.
    split_and!; [| |by apply lookup_insert_ne];
      destruct (dom p !! k) as [e|]; simpl; try done; by case_bool_decide.
Qed.

Lemma show_twice s v w p :
  s < length (dom p) →
  on_dom (set_styleDisplay s (lit "block"))
    (set_innerHTML s w (on_dom (set_styleDisplay s (lit "block")) (set_innerHTML s v p)))
  = on_dom (set_styleDisplay s (lit "block")) (set_innerHTML s w p).
Proof.
  intros Hlt. set (p1 := on_dom _ (set_innerHTML s v p)).
  destruct (dom_shown s v p Hlt) as [Hd Hh]. fold p1 in Hd, Hh.
  assert (s < length (dom p1)) as Hlt1.
  { rewrite Hd. unfold set_styleDisplay. by rewrite length_alter, length_remove_children. }
  destruct (dom_shown s w p1 Hlt1) as [Hd1 Hh1].
  destruct (dom_shown s w p Hlt) as [Hd2 Hh2].
  destruct (on_dom _ (set_innerHTML s w p1)) as [d1 h1].
  destruct (on_dom _ (set_innerHTML s w p)) as [d2 h2]. simpl in *.
  f_equal.
  - rewrite Hd1, Hd2, Hd, remove_children_set_styleDisplay, remove_children_twice.
    unfold set_styleDisplay. rewrite list_alter_alter_eq. by apply list_alter_ext.
  - rewrite Hh1, Hh2, Hh. apply insert_insert_eq.
Qed.

(** A second message goes where the first went. *)
Lemma statusEl_of_shown s v p formId :
  statusEl_of (dom p) formId = Some s → s ∉ ancestors (dom p) s →
  statusEl_of (dom (on_dom (set_styleDisplay s (lit "block")) (set_innerHTML s v p))) formId
  = Some s.
Proof.
  intros Hs Hacyc. pose proof (statusEl_of_lt _ _ _ Hs) as Hlt.
  destruct (dom_shown s v p Hlt) as [Hd _]. rewrite Hd. clear Hd.
  set (d' := set_styleDisplay s (lit "block") (remove_children s (dom p))).
  assert (Views.own <$> d' = Views.own <$> dom p) as Hown.
  { unfold d', set_styleDisplay. rewrite (fmap_alter_preserved Views.own) by done.
    apply own_remove_children. }
  assert (parentNode <$> d' = parentNode <$> remove_children s (dom p)) as Htree.
  { unfold d', set_styleDisplay. by rewrite (fmap_alter_preserved parentNode). }
  assert (length d' = length (dom p)) as Hlen
    by (by rewrite (fmap_eq_length _ _ _ Hown)).
  assert (pruned (dom p) d') as Hp.
  { eapply pruned_trans; [apply (pruned_remove_children s)|].
    apply pruned_same_tree. by symmetry. }
  assert (elemId <$> d' = elemId <$> dom p) as Hid.
  { change elemId with ((λ v, v.1.1.1.1.2) ∘ Views.own).
    by rewrite !list_fmap_compose, Hown. }
  assert (attributes <$> d' = attributes <$> dom p) as Hattr.
  { change attributes with ((λ v, v.1.1.2) ∘ Views.own).
    by rewrite !list_fmap_compose, Hown. }
  unfold statusEl_of, elementById in *.
  rewrite (getElementById_ext d' (dom p) formId Hid).
  destruct (if truthy formId then getElementById (dom p) formId else None) as [form|];
    [|done].
  apply head_filter_seq in Hs as [Hs1 Hs2]. rewrite Hlen.
  assert (∀ k, role_alert d' form k = true → role_alert (dom p) form k = true) as Hmono.
  { intros k. unfold role_alert. intros [H1 H2]%andb_true_iff. apply andb_true_iff. split.
    - pose proof (fmap_eq_lookup _ _ _ k Hattr) as E.
      destruct (d' !! k) as [e'|], (dom p !! k) as [e|]; simpl in *; try done.
      by injection E as <-.
    - simpl in *. apply bool_decide_eq_true in H2. apply bool_decide_eq_true_2.
      destruct (ancestors_pruned _ _ k Hp) as [l ->]. apply elem_of_app. by left. }
  apply head_filter_seq_first; [lia | simpl; lia | | ].
  - unfold role_alert in *. apply andb_true_iff in Hs1 as [H1 H2]. apply andb_true_iff. split.
    + pose proof (fmap_eq_lookup _ _ _ s Hattr) as E.
      destruct (d' !! s) as [e'|], (dom p !! s) as [e|]; simpl in *; try done.
      by injection E as ->.
    + simpl in *.
      assert (ancestors d' s = ancestors (dom p) s) as ->; [|done].
      transitivity (ancestors (remove_children s (dom p)) s).
      * unfold ancestors. rewrite Hlen, length_remove_children.
        apply ancestors_upto_ext, Htree.
      * by apply ancestors_remove_children.
  - intros k H1 H2 Hk. apply (Hs2 k H1 H2). by apply Hmono.
Qed.

End StatusFacts.

(** X21: [showFormSuccess] and [showFormError] do nothing when the form or
    its status element is missing.  Otherwise they write the message as it
    is, unescaped, inside their template into the status element and show
    it; the elements the status element held are removed from it; nothing
    else of the tree changes, no tag, id, class, attribute, value or type
    changes anywhere, and no other node changes its text, its display or its
    markup.  Of two messages in a row to the same form only the last is
    left. *)
Theorem form_status_messages (formId m1 m2 : jsstring) (p : Page) :
  (Status.statusEl_of (dom p) formId = None →
   Status.showFormSuccess formId m1 p = p ∧ Status.showFormError formId m1 p = p)
  ∧ (∀ s p' tpl,
       Status.statusEl_of (dom p) formId = Some s →
       (p' = Status.showFormSuccess formId m1 p ∧ tpl = Status.success_html m1)
       ∨ (p' = Status.showFormError formId m1 p ∧ tpl = Status.error_html m1) →
       html p' !! s = Some tpl
       ∧ get_styleDisplay (dom p') s = lit "block"
       ∧ Views.own <$> dom p' = Views.own <$> dom p
       ∧ parentNode <$> dom p' = parentNode <$> remove_children s (dom p)
       ∧ ∀ k, k ≠ s →
              get_textContent (dom p') k = get_textContent (dom p) k
              ∧ get_styleDisplay (dom p') k = get_styleDisplay (dom p) k
              ∧ html p' !! k = html p !! k)
  ∧ ((∀ s, Status.statusEl_of (dom p) formId = Some s → s ∉ ancestors (dom p) s) →
     Status.showFormError formId m2 (Status.showFormSuccess formId m1 p)
     = Status.showFormError formId m2 p
     ∧ Status.showFormSuccess formId m2 (Status.showFormError formId m1 p)
       = Status.showFormSuccess formId m2 p
     ∧ Status.showFormSuccess formId m2 (Status.showFormSuccess formId m1 p)
       = Status.showFormSuccess formId m2 p
     ∧ Status.showFormError formId m2 (Status.showFormError formId m1 p)
       = Status.showFormError formId m2 p).
Proof.
  unfold Status.showFormSuccess, Status.showFormError. split_and!.
  - intros ->. done.
  - intros s p' tpl Hs Hp'. rewrite Hs in Hp'. apply statusEl_of_lt in Hs as Hlt.
    destruct Hp' as [[-> ->] | [-> ->]]; by apply show_on.
  - intros Hacyc. destruct (Status.statusEl_of (dom p) formId) as [s|] eqn:Hs.
    + pose proof (statusEl_of_lt _ _ _ Hs) as Hlt.
      rewrite !(statusEl_of_shown s _ p formId Hs (Hacyc s eq_refl)).
      by rewrite !show_twice.
    + by rewrite Hs.
Qed.

Lemma form_status_messages_witness :
  let p := mkPage Site.answered_form ∅ in
  Status.showFormError (lit "signup") (lit "No") p = p
  ∧ html (Status.showFormError (lit "contact") (lit "<b>No</b>") p) !! 1
    = Some (Status.error_html (lit "<b>No</b>"))
  ∧ parentNode <$> dom (Status.showFormError (lit "contact") (lit "<b>No</b>") p)
    = [None; Some 0; None]
  ∧ Status.showFormSuccess (lit "contact") (lit "Yes")
      (Status.showFormError (lit "contact") (lit "No") p)
    = Status.showFormSuccess (lit "contact") (lit "Yes") p.
Proof.
  intros p. split_and!.
  - destruct (form_status_messages (lit "signup") (lit "No") [] p) as ([_ H] & _);
      [by vm_compute | done].
  - destruct (form_status_messages (lit "contact") (lit "<b>No</b>") [] p) as (_ & H & _).
    destruct (H 1 _ _ ltac:(by vm_compute) (or_intror (conj eq_refl eq_refl)))
      as (H1 & _). exact H1.
  - destruct (form_status_messages (lit "contact") (lit "<b>No</b>") [] p) as (_ & H & _).
    destruct (H 1 _ _ ltac:(by vm_compute) (or_intror (conj eq_refl eq_refl)))
      as (_ & _ & _ & H4 & _). rewrite H4. by vm_compute.
  - destruct (form_status_messages (lit "contact") (lit "No") (lit "Yes") p) as (_ & _ & H).
    apply H. intros s Hs. assert (s = 1) as -> by (vm_compute in Hs; congruence).
    apply (bool_decide_unpack _). by vm_compute.
Defined.

(** * The expanded flags *)

Section Mirrored.

Import FaqInit.

Implicit Types (d : Document) (acc : Accordion) (l : Listener).

Lemma click_same acc q d : same_accordion d (click acc q d).
Proof.
  unfold click. induction (listeners acc) as [|l ls IH] using rev_ind;
    [apply same_accordion_refl|].
  rewrite foldl_snoc. destruct (l_question l =? q); [|done].
  eapply same_accordion_trans; [apply IH | apply onClick_same].
Qed.

(** With one listener on the trigger, a click is that listener. *)
Lemma click_single acc l0 d :
  NoDup (l_question <$> listeners acc) → l0 ∈ listeners acc →
  click acc (l_question l0) d = onClick (faqItems acc) (l_item l0) (l_question l0) d.
Proof.
  intros Hnd Hin. unfold click.
  assert (∀ ls d0, (∀ l, l ∈ ls → l_question l ≠ l_question l0) →
            foldl (λ d l, if l_question l =? l_question l0
                          then onClick (faqItems acc) (l_item l) (l_question l) d else d)
              d0 ls = d0) as Hno.
  { intros ls. induction ls as [|l ls IH]; intros d0 H; [done|]. cbn [foldl].
    assert (l_question l ≠ l_question l0) as E by (apply H; left).
    apply Nat.eqb_neq in E. rewrite E. apply IH. intros l' Hl'. apply H. by right. }
  apply list_elem_of_split in Hin as (l1 & l2 & E). rewrite E in Hnd |- *.
  rewrite fmap_app, fmap_cons in Hnd.
  apply NoDup_app in Hnd as (_ & H1 & [H2 _]%NoDup_cons).
  rewrite foldl_app. cbn [foldl]. rewrite (Hno l1), Nat.eqb_refl.
  - apply Hno. intros l Hl Heq. apply H2. rewrite <- Heq. by apply list_elem_of_fmap_2.
  - intros l Hl Heq. apply (H1 (l_question l)); [by apply list_elem_of_fmap_2|].
    rewrite Heq. left.
Qed.

(** Listeners on different triggers are told apart by their trigger. *)
Lemma listener_of_trigger acc l l' :
  NoDup (l_question <$> listeners acc) → l ∈ listeners acc → l' ∈ listeners acc →
  l_question l = l_question l' → l = l'.
Proof.
  intros Hnd [i Hi]%list_elem_of_lookup [j Hj]%list_elem_of_lookup E.
  assert (i = j) as ->.
  { apply (NoDup_lookup _ i j (l_question l) Hnd); rewrite list_lookup_fmap.
    - by rewrite Hi.
    - by rewrite Hj, E. }
  congruence.
Qed.

Lemma tidy_same acc d d' : same_accordion d d' → tidy acc d → tidy acc d'.
Proof.
  intros Hs [Hnd H]. split; [done|]. intros l Hl.
  destruct (H l Hl) as (H1 & H2 & H3 & H4).
  rewrite <- (fmap_eq_length parentNode d d' (proj1 Hs)).
  by rewrite <- (same_accordion_trigger d d' _ Hs).
Qed.

Lemma onClick_mirrored acc l0 d :
  tidy acc d → mirrored acc d → l0 ∈ listeners acc →
  mirrored acc (onClick (faqItems acc) (l_item l0) (l_question l0) d).
Proof.
  intros [Hnd Ht] Hm Hl0 l Hl.
  destruct (Ht l0 Hl0) as (Hi0 & Hlt0 & Hq0 & Htr0).
  destruct (Ht l Hl) as (Hi & Hlt & Hq & Htr).
  rewrite is_open_onClick.
  destruct (decide (l_question l = l_question l0)) as [Eq|Nq].
  - assert (l_item l = l_item l0) as Ei.
    { by rewrite (listener_of_trigger acc l l0). }
    rewrite Eq, Ei, !bool_decide_eq_true_2 by done. rewrite andb_true_r.
    unfold onClick. rewrite getAttribute_setAttribute, bool_decide_eq_true_2.
    + unfold is_open. by destruct (classList_contains d (l_item l0) "open").
    + split_and!; [done..|].
      change (l_question l0 < length (classList_toggle (l_item l0) "open"
                (foldl (close_other (l_item l0)) d (faqItems acc)))).
      rewrite <- (fmap_eq_length parentNode _ _ (proj1 (same_accordion_toggle _ _))).
      by rewrite <- (fmap_eq_length parentNode _ _ (proj1 (fold_close_same _ _ d))).
  - assert (l_item l ≠ l_item l0) as Ni.
    { intros Ei. rewrite Ei, Htr0 in Htr. by injection Htr. }
    rewrite (bool_decide_eq_false_2 (l_item l = l_item l0)) by done.
    rewrite (bool_decide_eq_true_2 (l_item l ∈ faqItems acc)) by done.
    rewrite andb_false_r. unfold onClick.
    rewrite getAttribute_setAttribute, bool_decide_eq_false_2 by (intros [? _]; congruence).
    assert (getAttribute (foldl (close_other (l_item l0)) d (faqItems acc)) (l_question l)
              "aria-expanded" = Some (lit "false")) as Hf.
    { apply (fold_close_expanded _ _ _ (l_item l)).
      destruct (is_open d (l_item l)) eqn:Eo.
      - right. done.
      - left. rewrite (Hm l Hl), Eo. done. }
    rewrite <- Hf. apply getAttribute_ext. unfold classList_toggle.
    destruct (classList_contains _ _ _); apply attributes_alter_classList.
Qed.

(** A node has a listener of the accordion or has none. *)
Lemma listener_on acc q :
  (∃ l, l ∈ listeners acc ∧ l_question l = q) ∨ (∀ l, l ∈ listeners acc → l_question l ≠ q).
Proof.
  induction (listeners acc) as [|l ls IH].
  - right. intros l H. by apply not_elem_of_nil in H.
  - destruct (decide (l_question l = q)) as [E|E].
    + left. exists l. split; [left | done].
    + destruct IH as [(l' & Hl' & E') | IH].
      * left. exists l'. split; [by right | done].
      * right. intros l' [->|Hl']%elem_of_cons; [done | by apply IH].
Qed.

Lemma click_mirrored acc q d :
  tidy acc d → mirrored acc d → mirrored acc (click acc q d) ∧ tidy acc (click acc q d).
Proof.
  intros Ht Hm. split; [|by apply (tidy_same acc d), Ht; apply click_same].
  destruct (listener_on acc q) as [(l0 & Hl0 & <-) | Hno].
  - rewrite click_single by (done || apply Ht). by apply onClick_mirrored.
  - by rewrite click_no_listener.
Qed.

Lemma querySelectorAll_lt d root sel n : n ∈ querySelectorAll d root sel → n < length d.
Proof.
  unfold querySelectorAll. intros [_ H]%list_elem_of_filter. apply elem_of_seq in H. lia.
Qed.

(** What [initFaqAccordions] hands to the listeners. *)
Lemma init_tidy random_id d :
  NoDup ((λ w, w.1.2) <$> wired_items d) →
  Forall (λ w, is_open d w.1.1 = false) (wired_items d) →
  let r := initFaqAccordions random_id d in tidy r.2 r.1 ∧ mirrored r.2 r.1.
Proof.
  intros Hnd Hclosed. cbv zeta. unfold initFaqAccordions.
  pose proof (init_loop random_id d (querySelectorAll d None (ByClass "faq-item")))
    as (Hs & Hc & Hl & He). cbv zeta in *.
  destruct (foldl _ _ _) as [d' ls]. cbn [fst snd listeners faqItems] in *.
  fold (wired_items d) in Hl.
  assert (∀ l, l ∈ ls → ∃ a, (l_item l, l_question l, a) ∈ wired_items d
                             ∧ wired d (l_item l) = Some (l_item l, l_question l, a)
                             ∧ l_item l ∈ querySelectorAll d None (ByClass "faq-item"))
    as Hw.
  { intros l Hin. rewrite Hl in Hin.
    apply list_elem_of_fmap in Hin as ([[item q] a] & -> & Hin). simpl.
    exists a. pose proof Hin as Hin'. unfold wired_items in Hin'.
    apply list_elem_of_omap in Hin' as (x & Hx & Hwx).
    assert (x = item) as ->.
    { unfold wired in Hwx. destruct (trigger_of d x), (answer_of d x); congruence. }
    done. }
  split.
  - split; unfold tidy; cbn [listeners faqItems].
    + rewrite Hl, <- list_fmap_compose. exact Hnd.
    + intros l Hin. destruct (Hw l Hin) as (a & _ & Hwl & Hitem).
      rewrite <- (fmap_eq_length parentNode d d' (proj1 Hs)).
      rewrite <- (same_accordion_trigger d d' _ Hs).
      split_and!; [done | by eapply querySelectorAll_lt | apply (wired_lt _ _ _ Hwl) |].
      unfold wired in Hwl. destruct (trigger_of d (l_item l)), (answer_of d (l_item l));
        congruence.
  - intros l Hin. cbn [listeners] in Hin. rewrite (He l Hin).
    destruct (Hw l Hin) as (a & Ha & _).
    rewrite Forall_forall in Hclosed. specialize (Hclosed _ Ha). simpl in Hclosed.
    unfold is_open in *. rewrite (classList_contains_ext d' d) by done.
    by rewrite Hclosed.
Qed.

End Mirrored.

(** * Events that bubble *)

Section Bubbling.

Import FaqInit FaqEvents.

Implicit Types (d : Document) (acc : Accordion) (nodes : list nat).

Lemma clicks_mirrored acc nodes d :
  tidy acc d → mirrored acc d →
  mirrored acc (foldl (λ d node, click acc node d) d nodes)
  ∧ tidy acc (foldl (λ d node, click acc node d) d nodes).
Proof.
  revert d. induction nodes as [|n nodes IH]; intros d Ht Hm; [done|].
  cbn [foldl]. destruct (click_mirrored acc n d Ht Hm) as [Hm' Ht']. by apply IH.
Qed.

Lemma clickOn_mirrored acc target d :
  tidy acc d → mirrored acc d →
  mirrored acc (clickOn acc target d) ∧ tidy acc (clickOn acc target d).
Proof. apply clicks_mirrored. Qed.

Lemma keydownAt_mirrored acc node key d :
  tidy acc d → mirrored acc d →
  mirrored acc (keydownAt acc node key d) ∧ tidy acc (keydownAt acc node key d).
Proof.
  unfold keydownAt. revert d.
  induction (listeners acc) as [|l ls IH]; intros d Ht Hm; [done|].
  cbn [foldl]. destruct (l_question l =? node); [|by apply IH].
  destruct (_ || _); [|by apply IH].
  destruct (clickOn_mirrored acc (l_question l) d Ht Hm) as [Hm' Ht']. by apply IH.
Qed.

Lemma keydownOn_mirrored acc target key d :
  tidy acc d → mirrored acc d →
  mirrored acc (keydownOn acc target key d) ∧ tidy acc (keydownOn acc target key d).
Proof.
  unfold keydownOn. generalize (path d target). intros nodes. revert d.
  induction nodes as [|n nodes IH]; intros d Ht Hm; [done|].
  cbn [foldl]. destruct (keydownAt_mirrored acc n key d Ht Hm) as [Hm' Ht']. by apply IH.
Qed.

Lemma fire_all_mirrored acc evs d :
  tidy acc d → mirrored acc d →
  mirrored acc (fire_all acc d evs) ∧ tidy acc (fire_all acc d evs).
Proof.
  unfold fire_all. revert d. induction evs as [|ev evs IH]; intros d Ht Hm; [done|].
  cbn [foldl]. apply IH; destruct ev as [t|t key]; simpl;
    by (apply clickOn_mirrored || apply keydownOn_mirrored).
Qed.

End Bubbling.

(** X22: on a page where the wired items have different triggers and none
    of them starts open, after [initFaqAccordions] and any clicks and key
    presses, on any nodes of the page and bubbling from there through their
    ancestors, the expanded flag of every trigger still says whether its
    panel is open. *)
Theorem accordion_flags_mirrored (random_id : nat → jsstring) (d : Document)
    (evs : list FaqEvents.event) :
  NoDup ((λ w, w.1.2) <$> FaqInit.wired_items d) →
  Forall (λ w, is_open d w.1.1 = false) (FaqInit.wired_items d) →
  let '(d', acc) := initFaqAccordions random_id d in
  FaqInit.mirrored acc (FaqEvents.fire_all acc d' evs).
Proof.
  intros Hnd Hclosed.
  destruct (init_tidy random_id d Hnd Hclosed) as [Ht Hm].
  destruct (initFaqAccordions random_id d) as [d' acc]. cbn [fst snd] in *.
  by apply fire_all_mirrored.
Qed.

Lemma accordion_flags_mirrored_witness :
  let '(d', acc) := initFaqAccordions Pages.some_random_id Pages.labelled_panel in
  FaqInit.mirrored acc
    (FaqEvents.fire_all acc d'
       [FaqEvents.ClickOn 2; FaqEvents.KeyDownOn 2 (lit "Enter"); FaqEvents.ClickOn 0])
  ∧ is_open (FaqEvents.fire_all acc d' [FaqEvents.ClickOn 2]) 0 = true
  ∧ is_open (FaqEvents.fire_all acc d'
               [FaqEvents.ClickOn 2; FaqEvents.KeyDownOn 2 (lit "Enter")]) 0 = false.
Proof.
  pose proof (accordion_flags_mirrored Pages.some_random_id Pages.labelled_panel
                [FaqEvents.ClickOn 2; FaqEvents.KeyDownOn 2 (lit "Enter");
                 FaqEvents.ClickOn 0]) as H.
  destruct (initFaqAccordions Pages.some_random_id Pages.labelled_panel) as [d' acc] eqn:E.
  split_and!.
  - apply H.
    + apply (bool_decide_unpack _). by vm_compute.
    + vm_compute. repeat constructor.
  - assert (d' = (initFaqAccordions Pages.some_random_id Pages.labelled_panel).1) as ->
      by (by rewrite E).
    assert (acc = (initFaqAccordions Pages.some_random_id Pages.labelled_panel).2) as ->
      by (by rewrite E).
    by vm_compute.
  - assert (d' = (initFaqAccordions Pages.some_random_id Pages.labelled_panel).1) as ->
      by (by rewrite E).
    assert (acc = (initFaqAccordions Pages.some_random_id Pages.labelled_panel).2) as ->
      by (by rewrite E).
    by vm_compute.
Defined.
